(** * A shallow embedding of [vector.h]: [RawMemory<T>] and [Vector<T>]

    The element type [T] of the templates is a parameter.  Its special
    member functions can throw and can observe a global state (a counter
    of constructions, say), so they are functions on a world [W] that
    report failure; a method of the container threads the world through
    the calls it makes, in the order the source makes them.

    A call ends in one of three ways: it returns, an exception
    propagates out of it, or it trips an [assert] (or, with the asserts
    compiled out, runs into undefined behaviour). *)

From Stdlib Require Import NArith Lia.
From stdpp Require Import base option list gmap.

(** ** Outcomes and the state-and-exception monad *)

Inductive outcome (A : Type) : Type :=
| Done (a : A)
| Thrown
| Fault.
Arguments Done {A} a.
Arguments Thrown {A}.
Arguments Fault {A}.

Definition M (S A : Type) : Type := S -> S * outcome A.

Definition ret {S A} (a : A) : M S A := fun s => (s, Done a).
Definition throw {S A} : M S A := fun s => (s, Thrown).
Definition fault {S A} : M S A := fun s => (s, Fault).

Definition bind {S A B} (m : M S A) (k : A -> M S B) : M S B :=
  fun s =>
    match m s with
    | (s', Done a) => k a s'
    | (s', Thrown) => (s', Thrown)
    | (s', Fault) => (s', Fault)
    end.

Declare Scope cpp_scope.
Delimit Scope cpp_scope with cpp.
Notation "x <- m ;; k" := (bind m (fun x => k))
  (at level 100, m at next level, right associativity) : cpp_scope.
Notation "m ;;; k" := (bind m (fun _ => k))
  (at level 100, right associativity) : cpp_scope.
Open Scope cpp_scope.

Definition get {S} : M S S := fun s => (s, Done s).
Definition put {S} (s : S) : M S unit := fun _ => (s, Done tt).
Definition modify {S} (f : S -> S) : M S unit := fun s => (f s, Done tt).

(** [assert(b)]. *)
Definition assert {S} (b : bool) : M S unit := if b then ret tt else fault.

(** ** [size_t]

    Sizes, capacities and offsets are natural numbers.  Two products
    of the source can leave the range of [size_t] on a path that is
    reached: [size_ * 2] of the growth policy and [n * sizeof(T)] of
    [Allocate]; they wrap modulo 2^64.  The subtractions are all
    guarded by the comparison (or the assert) in front of them. *)

Definition size_t_mul (a b : nat) : nat :=
  N.to_nat ((N.of_nat a * N.of_nat b) mod 2 ^ 64)%N.

(** ** The element type *)

(** What the containers use of [T].  [W] is the state the special member
    functions of [T] and the allocator can observe and change, [A] the
    type of the argument packs [T] can be constructed from.

    - [sizeof_T] is [sizeof(T)]: at least one byte, and, as the size of
      an object, at most [PTRDIFF_MAX];
    - [operator_new] is [operator new(bytes)], [false] when it throws
      [std::bad_alloc]; it returns no block of more than [PTRDIFF_MAX]
      bytes, since no object is that large;
    - a constructor returns the new object, or [None] when it throws;
    - the move constructor also returns the state its source is left in;
    - an assignment returns the state of its left-hand side (and, for a
      move, of its right-hand side) and whether it completed. *)
Class ElementType (T W A : Type) : Type := {
  is_nothrow_move_constructible : bool;
  is_copy_constructible : bool;
  sizeof_T : N;
  operator_new : N -> W -> W * bool;
  value_construct : W -> W * option T;
  args_construct : A -> W -> W * option T;
  copy_construct : T -> W -> W * option T;
  move_construct : T -> W -> W * (T * option T);
  copy_assign : T -> T -> W -> W * (T * bool);
  move_assign : T -> T -> W -> W * (T * T * bool);
  sizeof_T_range : (0 < sizeof_T < 2 ^ 63)%N;
  operator_new_limit n w : snd (operator_new n w) = true -> (n < 2 ^ 63)%N
}.

Section Containers.

Context {T W A : Type} `{E : ElementType T W A}.

(** ** Memory blocks *)

(** A block of raw memory is a list of slots: [None] is uninitialised
    storage, [Some x] a live object.  The null pointer is the block with
    no slot. *)
Local Abbreviation block := (list (option T)).

Definition live (b : block) (i : nat) : option T := mjoin (b !! i).

Definition in_block (b : block) (i : nat) : bool := bool_decide (i < length b).

(** ** The algorithms of <memory> and <algorithm> the source calls *)

(** [std::destroy_n(p, n)]: ends the lifetime of [n] objects. *)
Fixpoint destroy_n (b : block) (p n : nat) : option block :=
  match n with
  | 0 => Some b
  | S n' =>
      match live b p with
      | Some _ => destroy_n (<[p := None]> b) (S p) n'
      | None => None
      end
  end.

(** [std::uninitialized_copy_n(src + s, n, dst + d)]: copy-constructs;
    when a constructor throws, the objects already made are destroyed
    and the exception goes on. *)
Fixpoint uninitialized_copy_n (w : W) (src : block) (s n : nat) (dst : block) (d : nat)
  : W * block * outcome unit :=
  match n with
  | 0 => (w, dst, Done tt)
  | S n' =>
      match live src s with
      | None => (w, dst, Fault)
      | Some x =>
          if in_block dst d then
            match copy_construct x w with
            | (w1, None) => (w1, dst, Thrown)
            | (w1, Some y) =>
                match uninitialized_copy_n w1 src (S s) n' (<[d := Some y]> dst) (S d) with
                | (w2, dst2, Thrown) => (w2, <[d := None]> dst2, Thrown)
                | r => r
                end
            end
          else (w, dst, Fault)
      end
  end.

(** [std::uninitialized_move_n(src + s, n, dst + d)]: move-constructs;
    the sources are left in their moved-from state, also when a later
    constructor throws. *)
Fixpoint uninitialized_move_n (w : W) (src : block) (s n : nat) (dst : block) (d : nat)
  : W * block * block * outcome unit :=
  match n with
  | 0 => (w, src, dst, Done tt)
  | S n' =>
      match live src s with
      | None => (w, src, dst, Fault)
      | Some x =>
          if in_block dst d then
            match move_construct x w with
            | (w1, (x', None)) => (w1, <[s := Some x']> src, dst, Thrown)
            | (w1, (x', Some y)) =>
                match uninitialized_move_n w1 (<[s := Some x']> src) (S s) n'
                        (<[d := Some y]> dst) (S d) with
                | (w2, src2, dst2, Thrown) => (w2, src2, <[d := None]> dst2, Thrown)
                | r => r
                end
            end
          else (w, src, dst, Fault)
      end
  end.

(** [std::uninitialized_value_construct_n(dst + d, n)]. *)
Fixpoint uninitialized_value_construct_n (w : W) (dst : block) (d n : nat)
  : W * block * outcome unit :=
  match n with
  | 0 => (w, dst, Done tt)
  | S n' =>
      if in_block dst d then
        match value_construct w with
        | (w1, None) => (w1, dst, Thrown)
        | (w1, Some y) =>
            match uninitialized_value_construct_n w1 (<[d := Some y]> dst) (S d) n' with
            | (w2, dst2, Thrown) => (w2, <[d := None]> dst2, Thrown)
            | r => r
            end
        end
      else (w, dst, Fault)
  end.

(** [std::copy_n(src + s, n, dst + d)]: copy-assigns, front to back. *)
Fixpoint copy_n (w : W) (src : block) (s n : nat) (dst : block) (d : nat)
  : W * block * outcome unit :=
  match n with
  | 0 => (w, dst, Done tt)
  | S n' =>
      match live src s, live dst d with
      | Some x, Some y =>
          match copy_assign y x w with
          | (w1, (y', false)) => (w1, <[d := Some y']> dst, Thrown)
          | (w1, (y', true)) => copy_n w1 src (S s) n' (<[d := Some y']> dst) (S d)
          end
      | _, _ => (w, dst, Fault)
      end
  end.

(** One move-assignment [b[d] = std::move(b[s])] inside a block. *)
Definition move_assign_at (w : W) (b : block) (s d : nat) : W * block * outcome unit :=
  match live b s, live b d with
  | Some x, Some y =>
      match move_assign y x w with
      | (w1, (y', x', ok)) =>
          (w1, <[d := Some y']> (<[s := Some x']> b), if ok then Done tt else Thrown)
      end
  | _, _ => (w, b, Fault)
  end.

(** [std::move(b + first, b + first + n, b + d_first)]: move-assigns,
    front to back. *)
Fixpoint move_forward_n (w : W) (b : block) (first n d_first : nat)
  : W * block * outcome unit :=
  match n with
  | 0 => (w, b, Done tt)
  | S n' =>
      match move_assign_at w b first d_first with
      | (w1, b1, Done _) => move_forward_n w1 b1 (S first) n' (S d_first)
      | r => r
      end
  end.

Definition std_move (w : W) (b : block) (first last d_first : nat)
  : W * block * outcome unit :=
  if bool_decide (first <= last) then move_forward_n w b first (last - first) d_first
  else (w, b, Fault).

(** [std::move_backward(b + first, b + first + n, b + d_last)]:
    move-assigns, back to front, each step decrementing both [last] and
    [d_last] before it assigns. *)
Fixpoint move_backward_n (w : W) (b : block) (first n d_last : nat)
  : W * block * outcome unit :=
  match n with
  | 0 => (w, b, Done tt)
  | S n' =>
      match d_last with
      | 0 => (w, b, Fault)
      | S d' =>
          match move_assign_at w b (first + n') d' with
          | (w1, b1, Done _) => move_backward_n w1 b1 first n' d'
          | r => r
          end
      end
  end.

Definition std_move_backward (w : W) (b : block) (first last d_last : nat)
  : W * block * outcome unit :=
  if bool_decide (first <= last) then move_backward_n w b first (last - first) d_last
  else (w, b, Fault).

(** ** [RawMemory<T>] *)

Record RawMemory : Type := { buffer_ : block; capacity_ : nat }.

(** [RawMemory() = default]. *)
Definition RawMemory_default : RawMemory := {| buffer_ := []; capacity_ := 0 |}.

(** The bytes [Allocate(n)] asks for: the product [n * sizeof(T)] is
    taken in [size_t] and wraps modulo 2^64. *)
Definition alloc_bytes (n : nat) : N := ((N.of_nat n * sizeof_T) mod 2 ^ 64)%N.

(** The slots of a block of that many bytes: fewer than [n] when the
    product has wrapped. *)
Definition alloc_slots (n : nat) : nat := N.to_nat (alloc_bytes n / sizeof_T).

(** [Allocate(n)]: [operator new] can throw [std::bad_alloc]; nothing is
    requested for [n = 0]. *)
Definition Allocate (n : nat) (w : W) : W * outcome block :=
  if bool_decide (n ≠ 0) then
    match operator_new (alloc_bytes n) w with
    | (w1, true) => (w1, Done (replicate (alloc_slots n) None))
    | (w1, false) => (w1, Thrown)
    end
  else (w, Done []).

(** [explicit RawMemory(size_t capacity)]: [capacity_] is the number
    asked for, whatever the block is. *)
Definition RawMemory_sized (capacity : nat) (w : W) : W * outcome RawMemory :=
  match Allocate capacity w with
  | (w1, Done b) => (w1, Done {| buffer_ := b; capacity_ := capacity |})
  | (w1, Thrown) => (w1, Thrown)
  | (w1, Fault) => (w1, Fault)
  end.

(** [operator+(offset)]: the pointer is the offset into the block. *)
Definition RawMemory_plus (m : RawMemory) (offset : nat) : outcome nat :=
  if bool_decide (offset <= capacity_ m) then Done offset else Fault.

(** [operator[](index)]: the reference is the index of the slot. *)
Definition RawMemory_index (m : RawMemory) (index : nat) : outcome nat :=
  if bool_decide (index < capacity_ m) then Done index else Fault.

(** [RawMemory::Swap]: of two values, each gets the other's members. *)
Definition RawMemory_Swap (m other : RawMemory) : RawMemory * RawMemory :=
  ({| buffer_ := buffer_ other; capacity_ := capacity_ other |},
   {| buffer_ := buffer_ m; capacity_ := capacity_ m |}).

(** ** [Vector<T>] *)

Record Vector : Type := { data_ : RawMemory; size_ : nat }.

(** [Vector() = default]. *)
Definition Vector_default : Vector := {| data_ := RawMemory_default; size_ := 0 |}.

Definition Capacity (v : Vector) : nat := capacity_ (data_ v).
Definition Size (v : Vector) : nat := size_ v.
Definition Empty (v : Vector) : bool := bool_decide (size_ v = 0).

(** The live objects of the vector, front to back (the slots
    [0 .. size_) of its block; a slot without an object is skipped). *)
Definition elements (v : Vector) : list T :=
  omap id (take (size_ v) (buffer_ (data_ v))).

Definition with_buffer (v : Vector) (b : block) : Vector :=
  {| data_ := {| buffer_ := b; capacity_ := capacity_ (data_ v) |}; size_ := size_ v |}.

Definition with_size (v : Vector) (n : nat) : Vector :=
  {| data_ := data_ v; size_ := n |}.

(** *** Methods run on the world and the object [*this]. *)

Definition Mv : Type -> Type := M (W * Vector).

Definition this : Mv Vector := fun s => (s, Done (snd s)).
Definition set_this (v : Vector) : Mv unit := fun s => ((fst s, v), Done tt).

Definition of_outcome {B} (o : outcome B) : Mv B := fun s => (s, o).

(** A call that only touches the world. *)
Definition in_world {B} (f : W -> W * outcome B) : Mv B :=
  fun s => let '(w1, o) := f (fst s) in ((w1, snd s), o).

Definition or_throw {B} (r : W * option B) : W * outcome B :=
  (fst r, match snd r with Some b => Done b | None => Thrown end).

(** An algorithm that runs on the block of [data_]. *)
Definition on_data (f : W -> block -> W * block * outcome unit) : Mv unit :=
  fun s =>
    let '(w1, b1, o) := f (fst s) (buffer_ (data_ (snd s))) in
    ((w1, with_buffer (snd s) b1), o).

(** [data_ + offset] and [data_[index]]. *)
Definition data_plus (offset : nat) : Mv nat :=
  v <- this;; of_outcome (RawMemory_plus (data_ v) offset).
Definition data_index (index : nat) : Mv nat :=
  v <- this;; of_outcome (RawMemory_index (data_ v) index).

(** Iterators are offsets from [data_.GetAddress()]. *)
Definition begin_ : Mv nat := ret 0.
Definition end_ : Mv nat := v <- this;; data_plus (size_ v).

(** The object a pointer into [data_] points to. *)
Definition object_at (i : nat) : Mv T :=
  v <- this;;
  match live (buffer_ (data_ v)) i with
  | Some x => ret x
  | None => fault
  end.

(** [new (data_ + i) T(...)] once the constructor has returned [x], and
    the state an operation leaves an existing object in. *)
Definition store_at (i : nat) (x : T) : Mv unit :=
  v <- this;;
  if in_block (buffer_ (data_ v)) i
  then set_this (with_buffer v (<[i := Some x]> (buffer_ (data_ v))))
  else fault.

(** *** Arguments *)

(** A [T] the caller passes by reference is outside the vector or is one
    of its elements. *)
Inductive ref : Type :=
| External (x : T)
| Element (j : nat).

(** What [Emplace] forwards to the constructor of [T]: an argument pack,
    a [const T&], or a [T&&]. *)
Inductive arg : Type :=
| Args (a : A)
| Lvalue (r : ref)
| Rvalue (r : ref).

(** [T(std::forward<Args>(args)...)]; moving from an element of the
    vector leaves that element moved-from. *)
Definition construct (a : arg) : Mv T :=
  match a with
  | Args a => in_world (fun w => or_throw (args_construct a w))
  | Lvalue (External x) => in_world (fun w => or_throw (copy_construct x w))
  | Lvalue (Element j) =>
      x <- object_at j;; in_world (fun w => or_throw (copy_construct x w))
  | Rvalue (External x) =>
      in_world (fun w => let '(w1, (_, r)) := move_construct x w in or_throw (w1, r))
  | Rvalue (Element j) =>
      x <- object_at j;;
      r <- in_world (fun w => let '(w1, r) := move_construct x w in (w1, Done r));;
      store_at j (fst r);;;
      match snd r with Some y => ret y | None => throw end
  end.

(** *** Moving the elements to another block *)

Definition std_uninitialized_copy (w : W) (src : block) (first last : nat)
    (dst : block) (result : nat) : W * block * outcome unit :=
  if bool_decide (first <= last)
  then uninitialized_copy_n w src first (last - first) dst result
  else (w, dst, Fault).

Definition std_uninitialized_move (w : W) (src : block) (first last : nat)
    (dst : block) (result : nat) : W * block * block * outcome unit :=
  if bool_decide (first <= last)
  then uninitialized_move_n w src first (last - first) dst result
  else (w, src, dst, Fault).

(** The condition of the two [if constexpr]. *)
Definition transfer_by_move : bool :=
  is_nothrow_move_constructible || negb is_copy_constructible.

Definition block_result (o : outcome unit) (b : block) : outcome block :=
  match o with Done _ => Done b | Thrown => Thrown | Fault => Fault end.

(** [ReinicializationDataIn(first, last, result)]: [first] and [last]
    point into [data_], [result] into the block [new_buffer] of the
    caller, which the call returns as it has filled it. *)
Definition ReinicializationDataIn_range (first last : nat) (new_buffer : block)
    (result : nat) : Mv block :=
  fun s =>
    if transfer_by_move then
      let '(w1, src1, dst1, o) :=
        std_uninitialized_move (fst s) (buffer_ (data_ (snd s))) first last new_buffer result in
      ((w1, with_buffer (snd s) src1), block_result o dst1)
    else
      let '(w1, dst1, o) :=
        std_uninitialized_copy (fst s) (buffer_ (data_ (snd s))) first last new_buffer result in
      ((w1, snd s), block_result o dst1).

(** [std::destroy_n(data_ + p, n)]. *)
Definition destroy_data (p n : nat) : Mv unit :=
  v <- this;;
  match destroy_n (buffer_ (data_ v)) p n with
  | Some b => set_this (with_buffer v b)
  | None => fault
  end.

(** [data_.Swap(new_data)], [new_data] a local of the caller that goes
    out of scope next. *)
Definition adopt (new_data : RawMemory) : Mv unit :=
  v <- this;;
  set_this {| data_ := fst (RawMemory_Swap (data_ v) new_data); size_ := size_ v |}.

(** [ReinicializationDataIn(RawMemory<T>& new_data)]. *)
Definition ReinicializationDataIn (new_data : RawMemory) : Mv unit :=
  v <- this;;
  filled <- (fun s =>
    if transfer_by_move then
      let '(w1, src1, dst1, o) :=
        uninitialized_move_n (fst s) (buffer_ (data_ (snd s))) 0 (size_ v)
          (buffer_ new_data) 0 in
      ((w1, with_buffer (snd s) src1), block_result o dst1)
    else
      let '(w1, dst1, o) :=
        uninitialized_copy_n (fst s) (buffer_ (data_ (snd s))) 0 (size_ v)
          (buffer_ new_data) 0 in
      ((w1, snd s), block_result o dst1));;
  destroy_data 0 (size_ v);;;
  adopt {| buffer_ := filled; capacity_ := capacity_ new_data |}.

(** *** The methods *)

(** [Reserve(new_capacity)]. *)
Definition Reserve (new_capacity : nat) : Mv unit :=
  v <- this;;
  if bool_decide (new_capacity <= Capacity v) then ret tt
  else
    new_data <- in_world (RawMemory_sized new_capacity);;
    ReinicializationDataIn new_data.

(** [++size_]. *)
Definition incr_size : Mv unit :=
  v <- this;; set_this (with_size v (size_ v + 1)).

(** [new (data_ + dst) T(std::forward<T>(data_[src]))]. *)
Definition move_construct_at (dst src : nat) : Mv unit :=
  x <- object_at src;;
  r <- in_world (fun w => let '(w1, r) := move_construct x w in (w1, Done r));;
  store_at src (fst r);;;
  match snd r with
  | Some y => store_at dst y
  | None => throw
  end.

(** [data_[dst] = std::move(temp_value)]. *)
Definition move_assign_from (dst : nat) (temp_value : T) : Mv unit :=
  y <- object_at dst;;
  r <- in_world (fun w => let '(w1, r) := move_assign y temp_value w in (w1, Done r));;
  store_at dst (fst (fst r));;;
  if snd r then ret tt else throw.

(** [Emplace(pos, args...)]; returns the iterator [data_ + range]. *)
Definition Emplace (pos : nat) (a : arg) : Mv nat :=
  b <- begin_;;
  e <- end_;;
  assert (bool_decide (b <= pos) && bool_decide (pos <= e));;;
  let range := pos - b in
  v <- this;;
  (if bool_decide (size_ v < Capacity v) then
     e <- end_;;
     if bool_decide (pos = e) then
       x <- construct a;;
       store_at e x
     else
       temp_value <- construct a;;
       v <- this;;
       last <- data_index (size_ v - 1);;
       e <- end_;;
       move_construct_at e last;;;
       on_data (fun w blk => std_move_backward w blk pos (e - 1) e);;;
       i <- data_index range;;
       move_assign_from i temp_value
   else
     new_data <- in_world (RawMemory_sized
                   (if bool_decide (size_ v = 0) then 1 else size_t_mul (size_ v) 2));;
     p <- of_outcome (RawMemory_plus new_data range);;
     x <- construct a;;
     assert (in_block (buffer_ new_data) p);;;
     let placed := <[p := Some x]> (buffer_ new_data) in
     b <- begin_;;
     front <- ReinicializationDataIn_range b pos placed 0;;
     e <- end_;;
     q <- of_outcome (RawMemory_plus new_data range);;
     filled <- ReinicializationDataIn_range pos e front (q + 1);;
     v <- this;;
     destroy_data 0 (size_ v);;;
     adopt {| buffer_ := filled; capacity_ := capacity_ new_data |});;;
  incr_size;;;
  data_plus range.

(** [EmplaceBack(args...)]; returns the reference [*Emplace(...)], the
    slot the iterator points to. *)
Definition EmplaceBack (a : arg) : Mv nat :=
  v <- this;;
  pos <- data_plus (size_ v);;
  Emplace pos a.

(** [PushBack(value)]; returns nothing. *)
Definition PushBack (a : arg) : Mv unit :=
  EmplaceBack a;;; ret tt.

(** [Insert(pos, const T& value)] and [Insert(pos, T&& value)]. *)
Definition Insert_copy (pos : nat) (value : ref) : Mv nat :=
  b <- begin_;;
  e <- end_;;
  assert (bool_decide (b <= pos) && bool_decide (pos <= e));;;
  Emplace pos (Lvalue value).

Definition Insert_move (pos : nat) (value : ref) : Mv nat :=
  b <- begin_;;
  e <- end_;;
  assert (bool_decide (b <= pos) && bool_decide (pos <= e));;;
  Emplace pos (Rvalue value).

(** [PopBack()]. *)
Definition PopBack : Mv unit :=
  v <- this;;
  assert (negb (Empty v));;;
  p <- data_plus (size_ v - 1);;
  destroy_data p 1;;;
  v <- this;;
  set_this (with_size v (size_ v - 1)).

(** [Erase(pos)]; returns the iterator [pos]. *)
Definition Erase (pos : nat) : Mv nat :=
  b <- begin_;;
  e <- end_;;
  assert (bool_decide (b <= pos) && bool_decide (pos < e));;;
  e <- end_;;
  on_data (fun w blk => std_move w blk (pos + 1) e pos);;;
  PopBack;;;
  ret pos.

(** [Resize(new_size)]. *)
Definition Resize (new_size : nat) : Mv unit :=
  v <- this;;
  (if bool_decide (new_size <= size_ v) then
     p <- data_plus new_size;;
     destroy_data p (size_ v - new_size)
   else
     Reserve new_size;;;
     v <- this;;
     p <- data_plus (size_ v);;
     on_data (fun w blk => uninitialized_value_construct_n w blk p (new_size - size_ v)));;;
  v <- this;;
  set_this (with_size v new_size).

(** [operator[](index)]: the reference [data_[index]], as the slot it
    refers to. *)
Definition Vector_index (index : nat) : Mv nat :=
  v <- this;;
  assert (bool_decide (index < size_ v));;;
  data_index index.

(** *** Constructors and destructor *)

(** [~Vector()], followed by the destructor of [data_]. *)
Definition Vector_destroy (v : Vector) : outcome unit :=
  match destroy_n (buffer_ (data_ v)) 0 (size_ v) with
  | Some _ => Done tt
  | None => Fault
  end.

(** [explicit Vector(size_t size)]. *)
Definition Vector_sized (size : nat) (w : W) : W * outcome Vector :=
  match RawMemory_sized size w with
  | (w1, Done m) =>
      let '(w2, b, o) := uninitialized_value_construct_n w1 (buffer_ m) 0 size in
      (w2, match o with
           | Done _ => Done {| data_ := {| buffer_ := b; capacity_ := capacity_ m |};
                               size_ := size |}
           | Thrown => Thrown
           | Fault => Fault
           end)
  | (w1, Thrown) => (w1, Thrown)
  | (w1, Fault) => (w1, Fault)
  end.

(** [Vector(const Vector& other)]. *)
Definition Vector_copy (other : Vector) (w : W) : W * outcome Vector :=
  match RawMemory_sized (size_ other) w with
  | (w1, Done m) =>
      let '(w2, b, o) :=
        uninitialized_copy_n w1 (buffer_ (data_ other)) 0 (size_ other) (buffer_ m) 0 in
      (w2, match o with
           | Done _ => Done {| data_ := {| buffer_ := b; capacity_ := capacity_ m |};
                               size_ := size_ other |}
           | Thrown => Thrown
           | Fault => Fault
           end)
  | (w1, Thrown) => (w1, Thrown)
  | (w1, Fault) => (w1, Fault)
  end.

(** [Swap(Vector& other)]: returns the state [other] is left in. *)
Definition Swap (other : Vector) : Mv Vector :=
  v <- this;;
  let '(d, od) := RawMemory_Swap (data_ v) (data_ other) in
  set_this {| data_ := d; size_ := size_ other |};;;
  ret {| data_ := od; size_ := size_ v |}.

(** [Vector(Vector&& other)]: the new object and the state of [other]. *)
Definition Vector_move (other : Vector) (w : W) : W * outcome (Vector * Vector) :=
  match Swap other (w, Vector_default) with
  | ((w1, v), Done other') => (w1, Done (v, other'))
  | ((w1, _), Thrown) => (w1, Thrown)
  | ((w1, _), Fault) => (w1, Fault)
  end.

(** The body of [operator=(const Vector& other)] under its guard
    [this != &other]. *)
Definition assign_from (other : Vector) : Mv unit :=
  v <- this;;
  if bool_decide (Capacity v < size_ other) then
    new_data <- in_world (Vector_copy other);;
    old <- Swap new_data;;
    of_outcome (Vector_destroy old)
  else
    on_data (fun w blk =>
      copy_n w (buffer_ (data_ other)) 0 (size_ other `min` size_ v) blk 0);;;
    (if bool_decide (size_ other < size_ v) then
       p <- data_plus (size_ other);;
       destroy_data p (size_ v - size_ other)
     else
       s <- of_outcome (RawMemory_plus (data_ other) (size_ v));;
       p <- data_plus (size_ v);;
       on_data (fun w blk =>
         uninitialized_copy_n w (buffer_ (data_ other)) s (size_ other - size_ v) blk p));;;
    v <- this;;
    set_this (with_size v (size_ other)).

(** ** Several vectors: objects at addresses

    The assignment operators compare [this] with [&other], so what they
    do depends on whether two references name one object.  A program
    state is the world and the vectors that exist, by address. *)

Definition Ms : Type -> Type := M (W * gmap nat Vector).

(** Runs a method on the object at address [a]. *)
Definition at_ {B} (a : nat) (m : Mv B) : Ms B :=
  fun s =>
    match snd s !! a with
    | Some v => let '((w1, v1), o) := m (fst s, v) in ((w1, <[a := v1]> (snd s)), o)
    | None => (s, Fault)
    end.

Definition load (a : nat) : Ms Vector :=
  fun s => match snd s !! a with Some v => (s, Done v) | None => (s, Fault) end.

Definition save (a : nat) (v : Vector) : Ms unit :=
  fun s => ((fst s, <[a := v]> (snd s)), Done tt).

(** A definition [Vector<T> x(...)] of a new object at address [a]. *)
Definition define (a : nat) (ctor : W -> W * outcome Vector) : Ms unit :=
  fun s =>
    match snd s !! a with
    | Some _ => (s, Fault)
    | None =>
        match ctor (fst s) with
        | (w1, Done v) => ((w1, <[a := v]> (snd s)), Done tt)
        | (w1, Thrown) => ((w1, snd s), Thrown)
        | (w1, Fault) => ((w1, snd s), Fault)
        end
    end.

(** [operator=(const Vector& other)]. *)
Definition assign_copy (this_ other : nat) : Ms unit :=
  if bool_decide (this_ ≠ other) then
    o <- load other;;
    at_ this_ (assign_from o)
  else ret tt.

(** [Swap] of the objects at two addresses. *)
Definition swap_objects (this_ other : nat) : Ms unit :=
  o <- load other;;
  o' <- at_ this_ (Swap o);;
  save other o'.

(** [operator=(Vector&& other)]. *)
Definition assign_move (this_ other : nat) : Ms unit :=
  if bool_decide (this_ ≠ other) then swap_objects this_ other else ret tt.

(** [Vector(Vector&& other)] into a new object at [a]. *)
Definition define_move (a other : nat) : Ms unit :=
  define a (fun w => (w, Done Vector_default));;;
  swap_objects a other.

(** What a call evaluates to: nothing, an iterator or a reference into
    the block (as offsets), or [*this]. *)
Inductive retval : Type :=
| Void
| Iterator (i : nat)
| Reference (i : nat)
| Self.

(** The public operations that construct or change a vector. *)
Inductive call : Type :=
| NewDefault (a : nat)
| NewSized (a size : nat)
| NewCopy (a other : nat)
| NewMove (a other : nat)
| AssignCopy (this_ other : nat)
| AssignMove (this_ other : nat)
| CallPushBack (this_ : nat) (value : arg)
| CallEmplaceBack (this_ : nat) (args : arg)
| CallEmplace (this_ pos : nat) (args : arg)
| CallInsertCopy (this_ pos : nat) (value : ref)
| CallInsertMove (this_ pos : nat) (value : ref)
| CallPopBack (this_ : nat)
| CallErase (this_ pos : nat)
| CallReserve (this_ new_capacity : nat)
| CallResize (this_ new_size : nat)
| CallSwap (this_ other : nat).

Definition exec (c : call) : Ms retval :=
  match c with
  | NewDefault a => define a (fun w => (w, Done Vector_default));;; ret Void
  | NewSized a size => define a (Vector_sized size);;; ret Void
  | NewCopy a other => o <- load other;; define a (Vector_copy o);;; ret Void
  | NewMove a other => define_move a other;;; ret Void
  | AssignCopy this_ other => assign_copy this_ other;;; ret Self
  | AssignMove this_ other => assign_move this_ other;;; ret Self
  | CallPushBack this_ value => at_ this_ (PushBack value);;; ret Void
  | CallEmplaceBack this_ args => i <- at_ this_ (EmplaceBack args);; ret (Reference i)
  | CallEmplace this_ pos args => i <- at_ this_ (Emplace pos args);; ret (Iterator i)
  | CallInsertCopy this_ pos value => i <- at_ this_ (Insert_copy pos value);; ret (Iterator i)
  | CallInsertMove this_ pos value => i <- at_ this_ (Insert_move pos value);; ret (Iterator i)
  | CallPopBack this_ => at_ this_ PopBack;;; ret Void
  | CallErase this_ pos => i <- at_ this_ (Erase pos);; ret (Iterator i)
  | CallReserve this_ new_capacity => at_ this_ (Reserve new_capacity);;; ret Void
  | CallResize this_ new_size => at_ this_ (Resize new_size);;; ret Void
  | CallSwap this_ other => swap_objects this_ other;;; ret Void
  end.

(** The states a program passes through, one after each call that
    returns or throws (the caller may catch and go on); nothing is
    defined from a failed assert on. *)
Fixpoint trace (cs : list call) (s : W * gmap nat Vector) : list (W * gmap nat Vector) :=
  match cs with
  | [] => []
  | c :: cs' =>
      match exec c s with
      | (_, Fault) => []
      | (s1, _) => s1 :: trace cs' s1
      end
  end.

(** [PushBack] of each argument in turn. *)
Fixpoint push_all (values : list arg) : Mv unit :=
  match values with
  | [] => ret tt
  | value :: rest => PushBack value;;; push_all rest
  end.

(** ** The class invariant and the policies, in the words of the
    specification *)

(** The block has [capacity_] slots, [size_ <= capacity_], and the slots
    [0 .. size_) hold live objects; the block is one that exists: its
    [capacity_ * sizeof(T)] bytes are at most [PTRDIFF_MAX]. *)
Definition valid (v : Vector) : Prop :=
  length (buffer_ (data_ v)) = capacity_ (data_ v) /\
  size_ v <= capacity_ (data_ v) /\
  Forall is_Some (take (size_ v) (buffer_ (data_ v))) /\
  (N.of_nat (capacity_ (data_ v)) * sizeof_T < 2 ^ 63)%N.

#[global] Instance valid_dec v : Decision (valid v).
Proof. unfold valid. apply _. Defined.

(** Every vector of the program state is valid. *)
Definition all_valid (st : gmap nat Vector) : Prop :=
  forall a v, st !! a = Some v -> valid v.

(** [0 <= length <= capacity]. *)
Definition in_bounds (v : Vector) : Prop := 0 <= size_ v <= Capacity v.

(** Every vector of the program state has its size within its
    capacity. *)
Definition all_in_bounds (st : gmap nat Vector) : Prop :=
  forall a v, st !! a = Some v -> in_bounds v.

(** Growth policy: [max(1, 2 * currentCapacity)]. *)
Definition grown (capacity : nat) : nat := 1 `max` (2 * capacity).

(** Transfer policy, copying: each element is copy-constructed, in
    order; the result is the copies, or nothing when a copy throws. *)
Fixpoint copy_each (xs : list T) (w : W) : W * option (list T) :=
  match xs with
  | [] => (w, Some [])
  | x :: xs' =>
      match copy_construct x w with
      | (w1, None) => (w1, None)
      | (w1, Some y) =>
          match copy_each xs' w1 with
          | (w2, Some ys) => (w2, Some (y :: ys))
          | (w2, None) => (w2, None)
          end
      end
  end.

(** Transfer policy, moving: each element is move-constructed, in
    order; the result is the state the originals are left in and the
    new objects, or nothing when a move throws. *)
Fixpoint move_each (xs : list T) (w : W) : W * (list T * option (list T)) :=
  match xs with
  | [] => (w, ([], Some []))
  | x :: xs' =>
      match move_construct x w with
      | (w1, (x', None)) => (w1, (x' :: xs', None))
      | (w1, (x', Some y)) =>
          match move_each xs' w1 with
          | (w2, (xs'', Some ys)) => (w2, (x' :: xs'', Some (y :: ys)))
          | (w2, (xs'', None)) => (w2, (x' :: xs'', None))
          end
      end
  end.

(** The block [b] with the objects [ys] in its slots from [d] on. *)
Definition write_at (b : block) (d : nat) (ys : list T) : block :=
  take d b ++ (Some <$> ys) ++ drop (d + length ys) b.

(** The slots of [b] from [s] on hold the objects [xs]. *)
Definition holds (b : block) (s : nat) (xs : list T) : Prop :=
  forall i x, xs !! i = Some x -> b !! (s + i) = Some (Some x).

(** [b'] has the slots of [b], and an object wherever [b] has one. *)
Definition block_extends (b b' : block) : Prop :=
  length b' = length b /\ forall i, is_Some (live b i) -> is_Some (live b' i).

(** [b'] is [b] in the slots below [d]. *)
Definition agree_below (d : nat) (b b' : block) : Prop :=
  length b' = length b /\ forall i, i < d -> b' !! i = b !! i.

(** [b'] is [b] with objects in the [n] slots from [d] on. *)
Definition filled (d n : nat) (b b' : block) : Prop :=
  length b' = length b /\
  (forall i, i < d \/ d + n <= i -> b' !! i = b !! i) /\
  (forall i, d <= i < d + n -> is_Some (live b' i)).

(** [v'] has the capacity and size of [v], and an object wherever [v]
    has one. *)
Definition extends (v v' : Vector) : Prop :=
  capacity_ (data_ v') = capacity_ (data_ v) /\ size_ v' = size_ v /\
  block_extends (buffer_ (data_ v)) (buffer_ (data_ v')).

(** A step after which the vector extends what it was, however the step
    ends. *)
Definition keeps {B} (m : Mv B) : Prop :=
  forall s s' o, m s = (s', o) -> extends (snd s) (snd s').

(** [passes v a x]: constructing from [a] reads the value [x] and does
    not write to [v]. *)
Inductive passes (v : Vector) : arg -> T -> Prop :=
| passes_lvalue x : passes v (Lvalue (External x)) x
| passes_rvalue x : passes v (Rvalue (External x)) x
| passes_element j x :
    live (buffer_ (data_ v)) j = Some x -> passes v (Lvalue (Element j)) x.

(** The capacity [Emplace] leaves a vector of size [n] and capacity [c]
    with. *)
Definition capacity_after (n c : nat) : nat :=
  if bool_decide (n < c) then c
  else if bool_decide (n = 0) then 1 else size_t_mul n 2.

(** The capacity after [k] more insertions. *)
Fixpoint capacity_after_pushes (n c k : nat) : nat :=
  match k with
  | 0 => c
  | S k' => capacity_after_pushes (S n) (capacity_after n c) k'
  end.

(** What a vector [v] is like after an insertion at [pos] that did not
    fail: valid; one longer when the call returned, and of the size and
    capacity of [v] when it threw. *)
Definition emplaced (v : Vector) (pos : nat) (v' : Vector) (o : outcome nat) : Prop :=
  valid v' /\
  match o with
  | Done it => it = pos /\ size_ v' = S (size_ v) /\
      Capacity v' = capacity_after (size_ v) (Capacity v)
  | _ => size_ v' = size_ v /\ Capacity v' = Capacity v
  end.

(** A step that leaves the vector as it was, unless it fails. *)
Definition steady {B} (m : Mv B) : Prop :=
  forall s s' o, m s = (s', o) -> o ≠ Fault -> snd s' = snd s.

(** A step out of which no exception comes. *)
Definition nothrow {B} (m : Mv B) : Prop :=
  forall s s', m s ≠ (s', Thrown).

(** A step that, when an exception comes out of it, has left the vector
    as it was. *)
Definition strong {B} (m : Mv B) : Prop :=
  forall s s', m s = (s', Thrown) -> snd s' = snd s.

(** The value a constructed, copied or moved object carries is the value
    of its source. *)
Class Lawful : Prop := {
  copy_construct_value x w w1 y : copy_construct x w = (w1, Some y) -> y = x;
  move_construct_value x w w1 x' y : move_construct x w = (w1, (x', Some y)) -> y = x;
  copy_assign_value y x w w1 y' : copy_assign y x w = (w1, (y', true)) -> y' = x;
  move_assign_value y x w w1 y' x' : move_assign y x w = (w1, (y', x', true)) -> y' = x
}.

(** Move construction never throws; move assignment never throws. *)
Definition nothrow_move_construct : Prop :=
  forall x w, is_Some (snd (snd (move_construct x w))).

Definition nothrow_move_assign : Prop :=
  forall y x w, snd (snd (move_assign y x w)) = true.

(** A transfer that cannot lose the originals: it copies, or it moves
    with a constructor that does not throw. *)
Definition safe_transfer : Prop :=
  transfer_by_move = true -> nothrow_move_construct.

(** A request for [n] elements whose byte count [size_t] can hold. *)
Definition representable (n : nat) : Prop :=
  (N.of_nat n * sizeof_T < 2 ^ 64)%N.

(** Move construction and move assignment never throw. *)
Class NothrowMove : Prop := {
  move_construct_nothrow x w : is_Some (snd (snd (move_construct x w)));
  move_assign_nothrow y x w : snd (snd (move_assign y x w)) = true
}.

End Containers.

Arguments RawMemory : clear implicits.
Arguments Vector : clear implicits.
Arguments ref : clear implicits.
Arguments arg : clear implicits.
Arguments call : clear implicits.
Arguments live : simpl never.
Arguments in_block : simpl never.

(** ** A test element type

    Objects are numbers.  The world is a countdown: construction from
    arguments, copy construction and value construction throw on the
    [k]-th invocation when the world is [k], and never when it is [0].
    Moves and assignments do not throw; a moved-from object is [0].  An
    object takes four bytes, and the allocator returns every block that
    can exist. *)
Module Counting.

Definition tick {B} (b : B) (w : nat) : nat * option B :=
  match w with
  | 0 => (0, Some b)
  | 1 => (0, None)
  | S w' => (w', Some b)
  end.

Definition element (nothrow_move copyable : bool) : ElementType nat nat nat := {|
  is_nothrow_move_constructible := nothrow_move;
  is_copy_constructible := copyable;
  sizeof_T := 4;
  operator_new := fun n w => (w, (n <? 2 ^ 63)%N);
  value_construct := tick 0;
  args_construct := fun a => tick a;
  copy_construct := fun x => tick x;
  move_construct := fun x w => (w, (0, Some x));
  copy_assign := fun _ x w => (w, (x, true));
  move_assign := fun _ x w => (w, (x, 0, true));
  sizeof_T_range := conj eq_refl eq_refl;
  operator_new_limit := fun n _ => proj1 (N.ltb_lt n (2 ^ 63))
|}.

(** Copyable, with a move constructor that is not [noexcept]: transfers
    copy. *)
Definition copying : ElementType nat nat nat := element false true.

(** An element type whose moves throw as the constructors do: the move
    constructor when [ctor], the move assignment when [assign].  A move
    constructor that throws has already emptied its source; a move
    assignment that throws has touched nothing. *)
Definition fragile (ctor assign copyable : bool) : ElementType nat nat nat := {|
  is_nothrow_move_constructible := negb ctor;
  is_copy_constructible := copyable;
  sizeof_T := 4;
  operator_new := fun n w => (w, (n <? 2 ^ 63)%N);
  value_construct := tick 0;
  args_construct := fun a => tick a;
  copy_construct := fun x => tick x;
  move_construct := fun x w =>
    if ctor then (fst (tick x w), (0, snd (tick x w))) else (w, (0, Some x));
  copy_assign := fun _ x w => (w, (x, true));
  move_assign := fun y x w =>
    if assign then
      match tick x w with
      | (w1, Some _) => (w1, (x, 0, true))
      | (w1, None) => (w1, (y, x, false))
      end
    else (w, (x, 0, true));
  sizeof_T_range := conj eq_refl eq_refl;
  operator_new_limit := fun n _ => proj1 (N.ltb_lt n (2 ^ 63))
|}.

(** [noexcept] move constructor: transfers move. *)
Definition moving : ElementType nat nat nat := element true true.

Definition vec (cap : nat) (xs : list nat) : Vector nat :=
  {| data_ := {| buffer_ := (Some <$> xs) ++ replicate (cap - length xs) None;
                 capacity_ := cap |};
     size_ := length xs |}.

(** A [const T&] to an object outside the vector. *)
Definition value (x : nat) : arg nat nat := Lvalue (External x).

End Counting.

(** * Proofs *)

Lemma size_t_mul_small a b :
  (N.of_nat a * N.of_nat b < 2 ^ 64)%N -> size_t_mul a b = a * b.
Proof.
  intros H. unfold size_t_mul. rewrite N.mod_small by exact H. lia.
Qed.

(** ** Allocation *)

Section Allocation.

Context {T W A : Type} `{E : ElementType T W A}.

Lemma alloc_bytes_le n : (alloc_bytes n <= N.of_nat n * sizeof_T)%N.
Proof. unfold alloc_bytes. apply N.Div0.mod_le. Qed.

Lemma alloc_slots_bytes n : (N.of_nat (alloc_slots n) * sizeof_T <= alloc_bytes n)%N.
Proof.
  pose proof sizeof_T_range as [Hpos _]. unfold alloc_slots. rewrite N2Nat.id.
  rewrite N.mul_comm. apply N.Div0.mul_div_le.
Qed.

Lemma alloc_slots_le n : alloc_slots n <= n.
Proof.
  pose proof sizeof_T_range as [Hpos _].
  pose proof (alloc_slots_bytes n) as Hs. pose proof (alloc_bytes_le n) as Hb.
  assert (N.of_nat (alloc_slots n) * sizeof_T <= N.of_nat n * sizeof_T)%N as Hle by lia.
  apply N.mul_le_mono_pos_r in Hle; [lia | done].
Qed.

Lemma alloc_bytes_representable n :
  representable n -> alloc_bytes n = (N.of_nat n * sizeof_T)%N.
Proof. intros Hn. unfold alloc_bytes. by apply N.mod_small. Qed.

Lemma alloc_slots_representable n : representable n -> alloc_slots n = n.
Proof.
  intros Hn. pose proof sizeof_T_range as [Hpos _].
  unfold alloc_slots. rewrite alloc_bytes_representable by done.
  rewrite N.div_mul by lia. lia.
Qed.

(** A request that has wrapped gets a block of fewer slots. *)
Lemma alloc_slots_wrapped n : ~ representable n -> alloc_slots n < n.
Proof.
  intros Hn. pose proof sizeof_T_range as [Hpos _]. unfold representable in Hn.
  pose proof (alloc_slots_bytes n) as Hs.
  assert (alloc_bytes n < 2 ^ 64)%N as Hb by (unfold alloc_bytes; apply N.mod_lt; lia).
  assert (N.of_nat (alloc_slots n) * sizeof_T < N.of_nat n * sizeof_T)%N as Hlt by lia.
  apply N.mul_lt_mono_pos_r in Hlt; [lia | done].
Qed.

Lemma Allocate_inv n w w1 (b : list (option T)) :
  Allocate n w = (w1, Done b) ->
  length b = alloc_slots n /\ (N.of_nat (alloc_slots n) * sizeof_T < 2 ^ 63)%N.
Proof.
  unfold Allocate. case_bool_decide as Hn.
  - pose proof (operator_new_limit (alloc_bytes n) w) as Hlimit.
    destruct (operator_new (alloc_bytes n) w) as [w2 [|]]; [|done].
    intros [= <- <-]. rewrite length_replicate. split; [done|].
    pose proof (alloc_slots_bytes n). specialize (Hlimit eq_refl). lia.
  - intros [= <- <-]. assert (n = 0) as -> by (destruct n; [done | by destruct Hn]).
    pose proof (alloc_slots_le 0). replace (alloc_slots 0) with 0 by lia. simpl.
    split; [done | lia].
Qed.

End Allocation.

(** ** The monad *)

Lemma bind_Done {S B C} (m : M S B) (k : B -> M S C) s s1 a :
  m s = (s1, Done a) -> bind m k s = k a s1.
Proof. intros H. unfold bind. by rewrite H. Qed.

Lemma ret_inv' {S B} (a : B) (s s' : S) o : ret a s = (s', o) -> s' = s /\ o = Done a.
Proof. unfold ret. by intros [= <- <-]. Qed.

Lemma bind_assoc {S B C D} (m : M S B) (k : B -> M S C) (h : C -> M S D) s :
  bind (bind m k) h s = bind m (fun a => bind (k a) h) s.
Proof. unfold bind. by destruct (m s) as [s1 [a| |]]. Qed.

Lemma bind_inv {S B C} (m : M S B) (k : B -> M S C) s s' o :
  bind m k s = (s', o) ->
  (exists s1 a, m s = (s1, Done a) /\ k a s1 = (s', o)) \/
  (m s = (s', Thrown) /\ o = Thrown) \/
  (m s = (s', Fault) /\ o = Fault).
Proof.
  unfold bind. destruct (m s) as [s1 [a| |]]; intros H.
  - left. eauto.
  - right. left. by inversion H.
  - right. right. by inversion H.
Qed.

Section Blocks.

Context {T W A : Type} `{E : ElementType T W A}.

Local Abbreviation block := (list (option T)).
Implicit Types (b src dst : block) (x y : T) (xs ys : list T).

(** ** Slots *)

Lemma live_Some b i x : live b i = Some x <-> b !! i = Some (Some x).
Proof.
  unfold live. destruct (b !! i) as [[?|]|]; simpl; split; congruence.
Qed.

Lemma live_lt b i x : live b i = Some x -> i < length b.
Proof. rewrite live_Some. apply lookup_lt_Some. Qed.

Lemma live_insert_eq b i o : i < length b -> live (<[i := o]> b) i = o.
Proof. intros H. unfold live. by rewrite list_lookup_insert_eq. Qed.

Lemma live_insert_ne b i j o : i ≠ j -> live (<[i := o]> b) j = live b j.
Proof. intros H. unfold live. by rewrite list_lookup_insert_ne. Qed.

Lemma in_block_true b i : in_block b i = true <-> i < length b.
Proof. unfold in_block. apply bool_decide_eq_true. Qed.

Lemma in_block_false b i : in_block b i = false <-> length b <= i.
Proof. unfold in_block. rewrite bool_decide_eq_false. lia. Qed.

(** ** Writing a run of objects *)

Lemma write_at_nil b d : write_at b d [] = b.
Proof. unfold write_at. simpl. rewrite Nat.add_0_r. apply take_drop. Qed.

Lemma length_write_at b d ys :
  d + length ys <= length b -> length (write_at b d ys) = length b.
Proof.
  intros H. unfold write_at.
  rewrite !length_app, length_take, length_fmap, length_drop. lia.
Qed.

Lemma write_at_cons b d y ys :
  d < length b ->
  write_at (<[d := Some y]> b) (S d) ys = write_at b d (y :: ys).
Proof.
  intros H. unfold write_at.
  rewrite (take_S_r _ _ (Some y)) by (by apply list_lookup_insert_eq).
  rewrite take_insert_ge by lia.
  rewrite drop_insert_lt by lia.
  rewrite <- app_assoc. simpl.
  by replace (d + S (length ys)) with (S (d + length ys)) by lia.
Qed.

Lemma lookup_write_at_lt b d ys i :
  d <= length b -> i < d -> write_at b d ys !! i = b !! i.
Proof.
  intros Hd Hi. unfold write_at.
  rewrite lookup_app_l by (rewrite length_take; lia).
  by rewrite lookup_take_lt.
Qed.

Lemma lookup_write_at_in b d ys i :
  d <= length b -> i < length ys -> write_at b d ys !! (d + i) = Some <$> ys !! i.
Proof.
  intros Hd Hi. unfold write_at.
  rewrite lookup_app_r by (rewrite length_take; lia).
  rewrite length_take, Nat.min_l by lia.
  replace (d + i - d) with i by lia.
  rewrite lookup_app_l by (rewrite length_fmap; lia).
  by rewrite list_lookup_fmap.
Qed.

Lemma lookup_write_at_ge b d ys i :
  d <= length b -> d + length ys <= i -> write_at b d ys !! i = b !! i.
Proof.
  intros Hd Hi. unfold write_at.
  rewrite lookup_app_r by (rewrite length_take; lia).
  rewrite length_take, Nat.min_l by lia.
  rewrite lookup_app_r by (rewrite length_fmap; lia).
  rewrite length_fmap, lookup_drop. f_equal. lia.
Qed.

(** ** Runs of objects *)

Lemma holds_nil b s : holds b s [].
Proof. intros i x H. by rewrite lookup_nil in H. Qed.

Lemma holds_cons b s x xs :
  holds b s (x :: xs) <-> b !! s = Some (Some x) /\ holds b (S s) xs.
Proof.
  split.
  - intros H. split.
    + specialize (H 0 x eq_refl). by rewrite Nat.add_0_r in H.
    + intros i z Hi. specialize (H (S i) z Hi). by rewrite Nat.add_succ_r in H.
  - intros [H0 H] [|i] z Hi; simpl in Hi.
    + rewrite Nat.add_0_r. congruence.
    + rewrite Nat.add_succ_r. by apply H.
Qed.

Lemma holds_insert_lt b s xs i o :
  i < s -> holds b s xs -> holds (<[i := o]> b) s xs.
Proof.
  intros Hi H j x Hj. rewrite list_lookup_insert_ne by lia. by apply H.
Qed.

Lemma holds_length b s xs : holds b s xs -> xs ≠ [] -> s + length xs <= length b.
Proof.
  intros H Hne.
  destruct (lookup_lt_is_Some_2 xs (length xs - 1)) as [x Hx].
  { destruct xs; [done | simpl; lia]. }
  apply H in Hx. apply lookup_lt_Some in Hx. lia.
Qed.

Lemma write_at_holds b s xs : holds b s xs -> write_at b s xs = b.
Proof.
  revert s. induction xs as [|x xs IH]; intros s H.
  - apply write_at_nil.
  - apply holds_cons in H as [H0 H].
    rewrite <- write_at_cons by (by eapply lookup_lt_Some).
    rewrite list_insert_id by done. by apply IH.
Qed.

Lemma holds_write_at b d ys : d + length ys <= length b -> holds (write_at b d ys) d ys.
Proof.
  intros Hd i y Hi. rewrite lookup_write_at_in.
  - by rewrite Hi.
  - lia.
  - by eapply lookup_lt_Some.
Qed.

(** ** The uninitialized algorithms construct each element in turn *)

Lemma uninitialized_copy_n_each xs w src s dst d :
  holds src s xs -> d + length xs <= length dst ->
  exists dst',
    uninitialized_copy_n w src s (length xs) dst d =
      (fst (copy_each xs w), dst',
       match snd (copy_each xs w) with Some _ => Done tt | None => Thrown end) /\
    length dst' = length dst /\
    forall ys, snd (copy_each xs w) = Some ys ->
      dst' = write_at dst d ys /\ length ys = length xs.
Proof.
  revert w s dst d. induction xs as [|x xs IH]; intros w s dst d Hs Hd; simpl.
  - exists dst. split_and!; [done..|]. intros ys [= <-]. by rewrite write_at_nil.
  - apply holds_cons in Hs as [H0 Hs]. simpl in Hd.
    rewrite (proj2 (live_Some src s x) H0).
    rewrite (proj2 (in_block_true dst d)) by lia.
    destruct (copy_construct x w) as [w1 [y|]] eqn:Hc; simpl.
    + destruct (IH w1 (S s) (<[d := Some y]> dst) (S d)) as (dst2 & Hrun & Hlen & Hys).
      { done. } { rewrite length_insert. lia. }
      rewrite Hrun. rewrite length_insert in Hlen.
      destruct (copy_each xs w1) as [w2 [ys|]]; simpl in *.
      * exists dst2. split_and!; [done..|]. intros ? [= <-].
        destruct (Hys ys eq_refl) as [-> Hl]. split; [|simpl; lia].
        apply write_at_cons. lia.
      * exists (<[d := None]> dst2). rewrite length_insert. by split_and!.
    + exists dst. by split_and!.
Qed.

Lemma uninitialized_move_n_each xs w src s dst d :
  holds src s xs -> d + length xs <= length dst ->
  exists dst',
    uninitialized_move_n w src s (length xs) dst d =
      (fst (move_each xs w), write_at src s (fst (snd (move_each xs w))), dst',
       match snd (snd (move_each xs w)) with Some _ => Done tt | None => Thrown end) /\
    length (fst (snd (move_each xs w))) = length xs /\
    length dst' = length dst /\
    forall ys, snd (snd (move_each xs w)) = Some ys ->
      dst' = write_at dst d ys /\ length ys = length xs.
Proof.
  revert w src s dst d. induction xs as [|x xs IH]; intros w src s dst d Hs Hd; simpl.
  - exists dst. rewrite write_at_nil. split_and!; [done..|].
    intros ys [= <-]. by rewrite write_at_nil.
  - apply holds_cons in Hs as [H0 Hs]. simpl in Hd.
    assert (s < length src) as Hlt by (by eapply lookup_lt_Some).
    rewrite (proj2 (live_Some src s x) H0).
    rewrite (proj2 (in_block_true dst d)) by lia.
    destruct (move_construct x w) as [w1 [x' [y|]]] eqn:Hc; simpl.
    + destruct (IH w1 (<[s := Some x']> src) (S s) (<[d := Some y]> dst) (S d))
        as (dst2 & Hrun & Hlen1 & Hlen & Hys).
      { apply holds_insert_lt; [lia | done]. } { rewrite length_insert. lia. }
      rewrite Hrun. rewrite length_insert in Hlen.
      rewrite write_at_cons by done.
      destruct (move_each xs w1) as [w2 [xs' [ys|]]]; simpl in *.
      * exists dst2. split_and!; [done | lia | done |]. intros ? [= <-].
        destruct (Hys ys eq_refl) as [-> Hl]. split; [|simpl; lia].
        apply write_at_cons. lia.
      * exists (<[d := None]> dst2). rewrite length_insert. split_and!; [done | lia | done..].
    + exists dst. split_and!; [|done..].
      rewrite <- write_at_cons by done.
      rewrite write_at_holds; [done|]. apply holds_insert_lt; [lia | done].
Qed.

(** Copies and moved objects of a lawful type carry the values of their
    sources. *)
Lemma copy_each_value `{!Lawful} xs w ys :
  snd (copy_each xs w) = Some ys -> ys = xs.
Proof.
  revert w ys. induction xs as [|x xs IH]; intros w ys; simpl.
  - by intros [= <-].
  - destruct (copy_construct x w) as [w1 [y|]] eqn:Hc; [|done].
    apply copy_construct_value in Hc as ->.
    specialize (IH w1). destruct (copy_each xs w1) as [w2 [ys'|]]; [|done].
    simpl in *. intros [= <-]. f_equal. by apply IH.
Qed.

Lemma move_each_value `{!Lawful} xs w ys :
  snd (snd (move_each xs w)) = Some ys -> ys = xs.
Proof.
  revert w ys. induction xs as [|x xs IH]; intros w ys; simpl.
  - by intros [= <-].
  - destruct (move_construct x w) as [w1 [x' [y|]]] eqn:Hc; [|done].
    apply move_construct_value in Hc as ->.
    specialize (IH w1). destruct (move_each xs w1) as [w2 [xs' [ys'|]]]; [|done].
    simpl in *. intros [= <-]. f_equal. by apply IH.
Qed.

Lemma move_each_nothrow `{!NothrowMove} xs w : is_Some (snd (snd (move_each xs w))).
Proof.
  revert w. induction xs as [|x xs IH]; intros w; simpl; [by eexists|].
  pose proof (move_construct_nothrow x w) as Hn.
  destruct (move_construct x w) as [w1 [x' [y|]]]; simpl in Hn.
  - specialize (IH w1). destruct (move_each xs w1) as [w2 [xs' [ys|]]]; simpl in *.
    + by eexists.
    + by destruct IH.
  - by destruct Hn.
Qed.

(** ** Valid vectors *)

Implicit Types (v : Vector T) (w : W).

Lemma all_Some_fmap (l : block) : Forall is_Some l -> l = Some <$> omap id l.
Proof.
  induction 1 as [|o l [x ->] _ IH]; simpl; [done|]. f_equal. exact IH.
Qed.

Lemma omap_id_fmap_Some xs : omap id (Some <$> xs) = xs.
Proof. induction xs as [|x xs IH]; simpl; [done|]. f_equal. exact IH. Qed.

Lemma valid_take v : valid v -> take (size_ v) (buffer_ (data_ v)) = Some <$> elements v.
Proof. intros (_ & _ & H & _). by apply all_Some_fmap. Qed.

Lemma length_elements v : valid v -> length (elements v) = size_ v.
Proof.
  intros Hv. pose proof (valid_take v Hv) as H.
  apply (f_equal length) in H. rewrite length_take, length_fmap in H.
  destruct Hv as (? & ? & _). lia.
Qed.

Lemma valid_holds v : valid v -> holds (buffer_ (data_ v)) 0 (elements v).
Proof.
  intros Hv i x Hi. simpl.
  assert (i < size_ v).
  { rewrite <- length_elements by done. by eapply lookup_lt_Some. }
  rewrite <- (lookup_take_lt _ (size_ v)) by done.
  rewrite valid_take by done. by rewrite list_lookup_fmap, Hi.
Qed.

Lemma holds_drop b xs first n :
  holds b 0 xs -> holds b first (take n (drop first xs)).
Proof.
  intros H i x Hi. apply lookup_take_Some in Hi as [Hi _].
  rewrite lookup_drop in Hi. by apply (H (first + i)).
Qed.

Lemma holds_drop_all b xs first : holds b 0 xs -> holds b first (drop first xs).
Proof.
  intros H i x Hi. rewrite lookup_drop in Hi. by apply (H (first + i)).
Qed.

Lemma holds_take b xs n : holds b 0 xs -> holds b 0 (take n xs).
Proof.
  intros H i x Hi. apply lookup_take_Some in Hi as [Hi _]. by apply H.
Qed.

Lemma holds_elements b n xs :
  holds b 0 xs -> length xs = n -> omap id (take n b) = xs.
Proof.
  intros H Hn. transitivity (omap id (Some <$> xs)); [|apply omap_id_fmap_Some].
  f_equal. apply list_eq. intros i. rewrite list_lookup_fmap.
  destruct (decide (i < n)) as [Hi|Hi].
  - rewrite lookup_take_lt by done.
    destruct (lookup_lt_is_Some_2 xs i) as [x Hx]; [lia|].
    rewrite Hx. by apply (H i x).
  - rewrite lookup_take_ge by lia. by rewrite lookup_ge_None_2 by lia.
Qed.

Lemma valid_intro b cap n xs :
  length b = cap -> n <= cap -> holds b 0 xs -> length xs = n ->
  (N.of_nat cap * sizeof_T < 2 ^ 63)%N ->
  valid {| data_ := {| buffer_ := b; capacity_ := cap |}; size_ := n |}.
Proof.
  intros Hb Hn H Hl Hfit. split_and!; simpl; [done | done | | done].
  apply Forall_lookup. intros i o Hi.
  apply lookup_take_Some in Hi as [Hi Hlt].
  destruct (lookup_lt_is_Some_2 xs i) as [x Hx]; [lia|].
  apply H in Hx. simpl in Hx. rewrite Hx in Hi. injection Hi as <-. by eexists.
Qed.

Lemma with_buffer_id v : with_buffer v (buffer_ (data_ v)) = v.
Proof. by destruct v as [[] ?]. Qed.

(** [std::destroy_n] on live objects. *)
Lemma destroy_n_holds b p xs :
  holds b p xs -> is_Some (destroy_n b p (length xs)).
Proof.
  revert b p. induction xs as [|x xs IH]; intros b p H; simpl; [by eexists|].
  apply holds_cons in H as [H0 H].
  rewrite (proj2 (live_Some b p x) H0).
  apply IH. apply holds_insert_lt; [lia | done].
Qed.

End Blocks.

Section Shifts.

Context {T W A : Type} `{E : ElementType T W A}.

Local Abbreviation block := (list (option T)).
Implicit Types (b pre suf : block) (x y : T) (xs ys mid : list T) (w : W).

Lemma insert_middle pre (o o' : option T) suf :
  <[length pre := o']> (pre ++ o :: suf) = pre ++ o' :: suf.
Proof.
  rewrite insert_app_r_alt by lia. by rewrite Nat.sub_diag.
Qed.

Lemma live_middle pre x suf : live (pre ++ Some x :: suf) (length pre) = Some x.
Proof. unfold live. by rewrite list_lookup_middle. Qed.

Lemma live_middle_S pre (o : option T) x suf :
  live (pre ++ o :: Some x :: suf) (S (length pre)) = Some x.
Proof.
  unfold live. rewrite lookup_app_r by lia.
  by replace (S (length pre) - length pre) with 1 by lia.
Qed.

(** A move-assignment between neighbours. *)
Lemma move_assign_at_up w pre x y suf :
  move_assign_at w (pre ++ Some x :: Some y :: suf) (length pre) (S (length pre)) =
    match move_assign y x w with
    | (w1, (y', x', ok)) =>
        (w1, pre ++ Some x' :: Some y' :: suf, if ok then Done tt else Thrown)
    end.
Proof.
  unfold move_assign_at. rewrite live_middle, live_middle_S.
  destruct (move_assign y x w) as [w1 [[y' x'] ok]].
  rewrite insert_middle.
  replace (pre ++ Some x' :: Some y :: suf) with ((pre ++ [Some x']) ++ Some y :: suf)
    by (by rewrite <- app_assoc).
  replace (S (length pre)) with (length (pre ++ [Some x']))
    by (rewrite length_app; simpl; lia).
  rewrite insert_middle. by rewrite <- app_assoc.
Qed.

Lemma move_assign_at_down w pre x y suf :
  move_assign_at w (pre ++ Some y :: Some x :: suf) (S (length pre)) (length pre) =
    match move_assign y x w with
    | (w1, (y', x', ok)) =>
        (w1, pre ++ Some y' :: Some x' :: suf, if ok then Done tt else Thrown)
    end.
Proof.
  unfold move_assign_at. rewrite live_middle, live_middle_S.
  destruct (move_assign y x w) as [w1 [[y' x'] ok]].
  replace (pre ++ Some y :: Some x :: suf) with ((pre ++ [Some y]) ++ Some x :: suf)
    by (by rewrite <- app_assoc).
  replace (S (length pre)) with (length (pre ++ [Some y]))
    by (rewrite length_app; simpl; lia).
  rewrite insert_middle. rewrite <- app_assoc. simpl.
  by rewrite insert_middle.
Qed.

(** [std::move_backward] of the run [mid] one slot up, over the object
    behind it. *)
Lemma move_backward_n_shift `{!Lawful} mid : forall pre r0 suf w w' b' o,
  move_backward_n w (pre ++ (Some <$> mid) ++ Some r0 :: suf)
    (length pre) (length mid) (length pre + length mid + 1) = (w', b', o) ->
  exists zs, b' = pre ++ (Some <$> zs) ++ suf /\ length zs = S (length mid) /\
    o ≠ Fault /\ (o = Done tt -> exists r, zs = r :: mid).
Proof.
  induction mid as [|x mid IH] using rev_ind; intros pre r0 suf w w' b' o.
  - simpl. intros [= <- <- <-]. exists [r0]. split_and!; [done..|]. by exists r0.
  - rewrite length_app. simpl.
    replace (length pre + (length mid + 1) + 1) with (S (length pre + length mid + 1)) by lia.
    replace (length mid + 1) with (S (length mid)) by lia. simpl.
    rewrite fmap_app. simpl. rewrite <- app_assoc. simpl.
    rewrite (app_assoc pre).
    replace (length pre + length mid) with (length (pre ++ (Some <$> mid)))
      by (by rewrite length_app, length_fmap).
    replace (length (pre ++ (Some <$> mid)) + 1) with (S (length (pre ++ (Some <$> mid))))
      by lia.
    rewrite move_assign_at_up.
    destruct (move_assign r0 x w) as [w1 [[y' x'] ok]] eqn:Hm.
    destruct ok.
    + apply move_assign_value in Hm as ->.
      rewrite <- app_assoc.
      replace (S (length (pre ++ (Some <$> mid)))) with (length pre + length mid + 1)
        by (rewrite length_app, length_fmap; lia).
      intros Hrun. apply IH in Hrun as (zs & -> & Hl & Hf & Hd).
      exists (zs ++ [x]). rewrite fmap_app, length_app. simpl.
      rewrite <- !app_assoc. simpl. split_and!; [done | lia | done |].
      intros Ho. destruct (Hd Ho) as [r ->]. by exists r.
    + intros [= <- <- <-]. exists (mid ++ [x'; y']).
      rewrite fmap_app, length_app, <- !app_assoc. simpl.
      split_and!; [done | lia | done | done].
Qed.

(** [std::move] of the run [mid] one slot down, over the object in
    front of it. *)
Lemma move_forward_n_shift `{!Lawful} mid : forall pre y0 suf w w' b' o,
  move_forward_n w (pre ++ Some y0 :: (Some <$> mid) ++ suf)
    (S (length pre)) (length mid) (length pre) = (w', b', o) ->
  exists zs, b' = pre ++ (Some <$> zs) ++ suf /\ length zs = S (length mid) /\
    o ≠ Fault /\ (o = Done tt -> exists r, zs = mid ++ [r]).
Proof.
  induction mid as [|x mid IH]; intros pre y0 suf w w' b' o.
  - simpl. intros [= <- <- <-]. exists [y0]. split_and!; [done..|]. by exists y0.
  - rewrite fmap_cons. cbn [length move_forward_n app]. rewrite move_assign_at_down.
    destruct (move_assign y0 x w) as [w1 [[y' x'] ok]] eqn:Hm.
    destruct ok.
    + apply move_assign_value in Hm as ->.
      replace (pre ++ Some x :: Some x' :: (Some <$> mid) ++ suf)
        with ((pre ++ [Some x]) ++ Some x' :: (Some <$> mid) ++ suf)
        by (by rewrite <- app_assoc).
      replace (S (length pre)) with (length (pre ++ [Some x]))
        by (rewrite length_app; simpl; lia).
      intros Hrun. apply IH in Hrun as (zs & -> & Hl & Hf & Hd).
      exists (x :: zs). rewrite <- app_assoc. simpl.
      split_and!; [done | lia | done |].
      intros Ho. destruct (Hd Ho) as [r ->]. by exists r.
    + intros [= <- <- <-]. exists (y' :: x' :: mid). simpl.
      split_and!; [done | lia | done | done].
Qed.

End Shifts.

(** One step of a method: the step returned and the rest ran, or the step
    threw or failed and that is the end. *)
Ltac minv H :=
  let s1 := fresh "s" in
  let a := fresh "a" in
  let H1 := fresh "Hstep" in
  let Ho := fresh "Hend" in
  apply bind_inv in H as [(s1 & a & H1 & H) | [[H Ho] | [H Ho]]];
  [ | try discriminate Ho; try (match type of Ho with ?o = _ => is_var o; subst o end)
    | try discriminate Ho; try (match type of Ho with ?o = _ => is_var o; subst o end) ].

Section Methods.

Context {T W A : Type} `{E : ElementType T W A}.

Local Abbreviation block := (list (option T)).
Implicit Types (b src dst : block) (x y : T) (xs ys : list T).
Implicit Types (v : Vector T) (w : W) (s : (W * Vector T)%type).

(** ** What the small steps of a method do *)

Lemma this_inv s s' (o : outcome (Vector T)) :
  this s = (s', o) -> s' = s /\ o = Done (snd s).
Proof. unfold this. by intros [= <- <-]. Qed.

Lemma bind_this {B} (k : Vector T -> Mv B) s : bind this k s = k (snd s) s.
Proof. done. Qed.

Lemma set_this_inv v s s' (o : outcome unit) :
  set_this v s = (s', o) -> s' = (fst s, v) /\ o = Done tt.
Proof. unfold set_this. by intros [= <- <-]. Qed.

Lemma ret_inv {B} (a : B) (s s' : W * Vector T) o :
  ret a s = (s', o) -> s' = s /\ o = Done a.
Proof. unfold ret. by intros [= <- <-]. Qed.

Lemma assert_inv (c : bool) (s s' : W * Vector T) o :
  assert c s = (s', o) ->
  s' = s /\ match o with Done _ => c = true | Thrown => False | Fault => c = false end.
Proof. unfold assert, ret, fault. destruct c; by intros [= <- <-]. Qed.

Lemma of_outcome_inv {B} (r : outcome B) (s s' : W * Vector T) o :
  of_outcome r s = (s', o) -> s' = s /\ o = r.
Proof. unfold of_outcome. by intros [= <- <-]. Qed.

Lemma data_plus_inv k s s' o :
  data_plus k s = (s', o) ->
  s' = s /\ match o with
            | Done a => a = k /\ k <= Capacity (snd s)
            | Thrown => False
            | Fault => Capacity (snd s) < k
            end.
Proof.
  unfold data_plus, bind, this, of_outcome, RawMemory_plus, Capacity. simpl.
  case_bool_decide; intros [= <- <-]; (split; [done|]); [done | lia].
Qed.

Lemma data_index_inv k s s' o :
  data_index k s = (s', o) ->
  s' = s /\ match o with
            | Done a => a = k /\ k < Capacity (snd s)
            | Thrown => False
            | Fault => Capacity (snd s) <= k
            end.
Proof.
  unfold data_index, bind, this, of_outcome, RawMemory_index, Capacity. simpl.
  case_bool_decide; intros [= <- <-]; (split; [done|]); [done | lia].
Qed.

Lemma begin_inv (s s' : W * Vector T) o : begin_ s = (s', o) -> s' = s /\ o = Done 0.
Proof. apply ret_inv. Qed.

Lemma end_inv s s' o :
  end_ s = (s', o) ->
  s' = s /\ match o with
            | Done a => a = size_ (snd s) /\ size_ (snd s) <= Capacity (snd s)
            | Thrown => False
            | Fault => Capacity (snd s) < size_ (snd s)
            end.
Proof. unfold end_, bind, this. simpl. apply data_plus_inv. Qed.

Lemma object_at_inv i s s' o :
  object_at i s = (s', o) ->
  s' = s /\ match o with
            | Done x => live (buffer_ (data_ (snd s))) i = Some x
            | Thrown => False
            | Fault => live (buffer_ (data_ (snd s))) i = None
            end.
Proof.
  unfold object_at, bind, this, ret, fault. simpl.
  destruct (live _ i) eqn:Hl; by intros [= <- <-].
Qed.

Lemma store_at_inv i x s s' o :
  store_at i x s = (s', o) ->
  match o with
  | Done _ => i < length (buffer_ (data_ (snd s))) /\
      s' = (fst s, with_buffer (snd s) (<[i := Some x]> (buffer_ (data_ (snd s)))))
  | Thrown => False
  | Fault => s' = s /\ length (buffer_ (data_ (snd s))) <= i
  end.
Proof.
  unfold store_at, bind, this, set_this, fault. simpl.
  destruct (in_block _ i) eqn:Hi; intros [= <- <-].
  - by apply in_block_true in Hi.
  - by apply in_block_false in Hi.
Qed.

Lemma in_world_inv {B} (f : W -> W * outcome B) s s' o :
  in_world f s = (s', o) -> exists w1, f (fst s) = (w1, o) /\ s' = (w1, snd s).
Proof.
  unfold in_world. destruct (f (fst s)) as [w1 o1]. intros [= <- <-]. by exists w1.
Qed.

Lemma on_data_inv f s s' o :
  on_data f s = (s', o) ->
  exists w1 b1, f (fst s) (buffer_ (data_ (snd s))) = (w1, b1, o) /\
    s' = (w1, with_buffer (snd s) b1).
Proof.
  unfold on_data. destruct (f _ _) as [[w1 b1] o1]. intros [= <- <-]. by exists w1, b1.
Qed.

Lemma destroy_data_inv p n s s' o :
  destroy_data p n s = (s', o) ->
  match o with
  | Done _ => exists b1, destroy_n (buffer_ (data_ (snd s))) p n = Some b1 /\
      s' = (fst s, with_buffer (snd s) b1)
  | Thrown => False
  | Fault => s' = s /\ destroy_n (buffer_ (data_ (snd s))) p n = None
  end.
Proof.
  unfold destroy_data, bind, this, set_this, fault. simpl.
  destruct (destroy_n _ p n) as [b1|] eqn:Hd; intros [= <- <-]; eauto.
Qed.

Lemma incr_size_inv s s' o :
  incr_size s = (s', o) ->
  s' = (fst s, with_size (snd s) (size_ (snd s) + 1)) /\ o = Done tt.
Proof. unfold incr_size, bind, this. simpl. apply set_this_inv. Qed.

Lemma adopt_inv new_data s s' o :
  adopt new_data s = (s', o) ->
  s' = (fst s, {| data_ := new_data; size_ := size_ (snd s) |}) /\ o = Done tt.
Proof.
  unfold adopt, bind, this. simpl. intros H%set_this_inv. by destruct new_data.
Qed.

(** ** Transfers *)

Lemma ReinicializationDataIn_range_each v w first last new_buffer result :
  valid v ->
  first <= last <= size_ v -> result + (last - first) <= length new_buffer ->
  ReinicializationDataIn_range first last new_buffer result (w, v) =
    if is_nothrow_move_constructible || negb is_copy_constructible then
      match move_each (take (last - first) (drop first (elements v))) w with
      | (w1, (olds, Some ys)) =>
          ((w1, with_buffer v (write_at (buffer_ (data_ v)) first olds)),
           Done (write_at new_buffer result ys))
      | (w1, (olds, None)) =>
          ((w1, with_buffer v (write_at (buffer_ (data_ v)) first olds)), Thrown)
      end
    else
      match copy_each (take (last - first) (drop first (elements v))) w with
      | (w1, Some ys) => ((w1, v), Done (write_at new_buffer result ys))
      | (w1, None) => ((w1, v), Thrown)
      end.
Proof.
  intros Hv Hr Hroom.
  set (xs := take (last - first) (drop first (elements v))).
  assert (length xs = last - first) as Hlen.
  { unfold xs. rewrite length_take, length_drop, length_elements by done. lia. }
  assert (holds (buffer_ (data_ v)) first xs) as Hxs.
  { apply holds_drop. by apply valid_holds. }
  unfold ReinicializationDataIn_range, transfer_by_move.
  unfold std_uninitialized_move, std_uninitialized_copy.
  rewrite bool_decide_eq_true_2 by lia. simpl. rewrite <- Hlen.
  destruct (is_nothrow_move_constructible || negb is_copy_constructible).
  - destruct (uninitialized_move_n_each xs w (buffer_ (data_ v)) first new_buffer result)
      as (dst' & -> & _ & _ & Hys); [done | lia |].
    destruct (move_each xs w) as [w1 [olds [ys|]]]; simpl in *; [|done].
    by destruct (Hys ys eq_refl) as [-> _].
  - destruct (uninitialized_copy_n_each xs w (buffer_ (data_ v)) first new_buffer result)
      as (dst' & -> & _ & Hys); [done | lia |].
    destruct (copy_each xs w) as [w1 [ys|]]; simpl in *; [|done].
    by destruct (Hys ys eq_refl) as [-> _].
Qed.

Lemma ReinicializationDataIn_each v w new_data :
  valid v -> size_ v <= length (buffer_ new_data) ->
  ReinicializationDataIn new_data (w, v) =
    if is_nothrow_move_constructible || negb is_copy_constructible then
      match move_each (elements v) w with
      | (w1, (olds, Some ys)) =>
          ((w1, {| data_ := {| buffer_ := write_at (buffer_ new_data) 0 ys;
                               capacity_ := capacity_ new_data |};
                   size_ := size_ v |}), Done tt)
      | (w1, (olds, None)) =>
          ((w1, with_buffer v (write_at (buffer_ (data_ v)) 0 olds)), Thrown)
      end
    else
      match copy_each (elements v) w with
      | (w1, Some ys) =>
          ((w1, {| data_ := {| buffer_ := write_at (buffer_ new_data) 0 ys;
                               capacity_ := capacity_ new_data |};
                   size_ := size_ v |}), Done tt)
      | (w1, None) => ((w1, v), Thrown)
      end.
Proof.
  intros Hv Hroom.
  pose proof (length_elements v Hv) as Hlen.
  pose proof (valid_holds v Hv) as Hxs.
  assert (size_ v <= length (buffer_ (data_ v))) as Hsz.
  { destruct Hv as (-> & ? & _). done. }
  unfold ReinicializationDataIn, transfer_by_move, bind, this. simpl.
  rewrite <- Hlen.
  destruct (is_nothrow_move_constructible || negb is_copy_constructible).
  - destruct (uninitialized_move_n_each (elements v) w (buffer_ (data_ v)) 0
                (buffer_ new_data) 0) as (dst' & -> & Hl & _ & Hys); [done | lia |].
    destruct (move_each (elements v) w) as [w1 [olds [ys|]]]; simpl in *; [|done].
    destruct (Hys ys eq_refl) as [-> _].
    unfold destroy_data, bind, this. simpl.
    destruct (destroy_n_holds (write_at (buffer_ (data_ v)) 0 olds) 0 olds) as [b' Hb'].
    { apply holds_write_at. lia. }
    rewrite Hl in Hb'. rewrite Hb'. unfold adopt, bind, this, set_this. simpl.
    by rewrite Hlen.
  - destruct (uninitialized_copy_n_each (elements v) w (buffer_ (data_ v)) 0
                (buffer_ new_data) 0) as (dst' & -> & _ & Hys); [done | lia |].
    destruct (copy_each (elements v) w) as [w1 [ys|]]; simpl in *; [|done].
    destruct (Hys ys eq_refl) as [-> _].
    unfold destroy_data, bind, this. simpl.
    destruct (destroy_n_holds (buffer_ (data_ v)) 0 (elements v)) as [b' Hb']; [done|].
    rewrite Hb'. unfold adopt, bind, this, set_this. simpl. by rewrite Hlen.
Qed.

(** C4.  A transfer to another block, whether of a range (the overload
    [Emplace] uses) or of the whole vector (the overload [Reserve] uses),
    moves each element when [T] is nothrow-move-constructible or not
    copy-constructible, and copy-constructs each element otherwise; the
    choice is made once for the transfer.  When it copies, the vector
    keeps its elements as they were until all copies are made, and also
    when a copy throws. *)
Theorem transfer_policy v w :
  valid v ->
  (forall first last new_buffer result,
     first <= last <= size_ v -> result + (last - first) <= length new_buffer ->
     ReinicializationDataIn_range first last new_buffer result (w, v) =
       if is_nothrow_move_constructible || negb is_copy_constructible then
         match move_each (take (last - first) (drop first (elements v))) w with
         | (w1, (olds, Some ys)) =>
             ((w1, with_buffer v (write_at (buffer_ (data_ v)) first olds)),
              Done (write_at new_buffer result ys))
         | (w1, (olds, None)) =>
             ((w1, with_buffer v (write_at (buffer_ (data_ v)) first olds)), Thrown)
         end
       else
         match copy_each (take (last - first) (drop first (elements v))) w with
         | (w1, Some ys) => ((w1, v), Done (write_at new_buffer result ys))
         | (w1, None) => ((w1, v), Thrown)
         end) /\
  (forall new_data, size_ v <= length (buffer_ new_data) ->
     ReinicializationDataIn new_data (w, v) =
       if is_nothrow_move_constructible || negb is_copy_constructible then
         match move_each (elements v) w with
         | (w1, (olds, Some ys)) =>
             ((w1, {| data_ := {| buffer_ := write_at (buffer_ new_data) 0 ys;
                                  capacity_ := capacity_ new_data |};
                      size_ := size_ v |}), Done tt)
         | (w1, (olds, None)) =>
             ((w1, with_buffer v (write_at (buffer_ (data_ v)) 0 olds)), Thrown)
         end
       else
         match copy_each (elements v) w with
         | (w1, Some ys) =>
             ((w1, {| data_ := {| buffer_ := write_at (buffer_ new_data) 0 ys;
                                  capacity_ := capacity_ new_data |};
                      size_ := size_ v |}), Done tt)
         | (w1, None) => ((w1, v), Thrown)
         end).
Proof.
  intros Hv. split.
  - intros. by apply ReinicializationDataIn_range_each.
  - intros. by apply ReinicializationDataIn_each.
Qed.

(** ** [Reserve] *)

Lemma Reserve_small v w n :
  n <= Capacity v -> Reserve n (w, v) = ((w, v), Done tt).
Proof.
  intros H. unfold Reserve, bind, this. simpl.
  by rewrite bool_decide_eq_true_2.
Qed.

Lemma Reserve_grow v w n s' o :
  Capacity v < n -> Reserve n (w, v) = (s', o) ->
  exists w1 ok, operator_new (alloc_bytes n) w = (w1, ok) /\
    if ok then
      ReinicializationDataIn
        {| buffer_ := replicate (alloc_slots n) None; capacity_ := n |} (w1, v) = (s', o)
    else s' = (w1, v) /\ o = Thrown.
Proof.
  intros Hn. unfold Reserve, bind, this. simpl.
  rewrite bool_decide_eq_false_2 by lia.
  unfold in_world, RawMemory_sized, Allocate. simpl.
  rewrite bool_decide_eq_true_2 by lia.
  destruct (operator_new (alloc_bytes n) w) as [w1 [|]]; simpl; intros H; exists w1.
  - by exists true.
  - exists false. by inversion H.
Qed.

Lemma elements_write_at b cap n ys :
  n <= length b -> length ys = n ->
  elements {| data_ := {| buffer_ := write_at b 0 ys; capacity_ := cap |}; size_ := n |} = ys.
Proof.
  intros Hn Hl. unfold elements. simpl. apply holds_elements; [|done].
  apply holds_write_at. lia.
Qed.

(** What [ReinicializationDataIn] leaves behind, for a lawful type. *)
Lemma ReinicializationDataIn_done `{!Lawful} v w new_data s' :
  valid v -> size_ v <= length (buffer_ new_data) ->
  ReinicializationDataIn new_data (w, v) = (s', Done tt) ->
  Capacity (snd s') = capacity_ new_data /\ size_ (snd s') = size_ v /\
  elements (snd s') = elements v /\
  length (buffer_ (data_ (snd s'))) = length (buffer_ new_data).
Proof.
  intros Hv Hroom. rewrite ReinicializationDataIn_each by done.
  pose proof (length_elements v Hv) as Hlen.
  destruct (is_nothrow_move_constructible || negb is_copy_constructible).
  - pose proof (move_each_value (elements v) w) as Hval.
    destruct (move_each (elements v) w) as [w1 [olds [ys|]]]; [|done].
    intros [= <-]. simpl in *. rewrite (Hval ys eq_refl).
    split_and!; [done..| |].
    + by apply elements_write_at.
    + apply length_write_at. simpl. lia.
  - pose proof (copy_each_value (elements v) w) as Hval.
    destruct (copy_each (elements v) w) as [w1 [ys|]]; [|done].
    intros [= <-]. simpl in *. rewrite (Hval ys eq_refl).
    split_and!; [done..| |].
    + by apply elements_write_at.
    + apply length_write_at. simpl. lia.
Qed.

Lemma ReinicializationDataIn_no_fault v w new_data s' :
  valid v -> size_ v <= length (buffer_ new_data) ->
  ReinicializationDataIn new_data (w, v) ≠ (s', Fault).
Proof.
  intros Hv Hroom. rewrite ReinicializationDataIn_each by done.
  destruct (is_nothrow_move_constructible || negb is_copy_constructible).
  - by destruct (move_each (elements v) w) as [w1 [olds [ys|]]].
  - by destruct (copy_each (elements v) w) as [w1 [ys|]].
Qed.

(** Steps that are known to return. *)
Lemma end_run v w : size_ v <= Capacity v -> end_ (w, v) = ((w, v), Done (size_ v)).
Proof.
  intros H. unfold end_, data_plus, bind, this, of_outcome, RawMemory_plus. simpl.
  by rewrite bool_decide_eq_true_2.
Qed.

Lemma data_plus_run k v w : k <= Capacity v -> data_plus k (w, v) = ((w, v), Done k).
Proof.
  intros H. unfold data_plus, bind, this, of_outcome, RawMemory_plus. simpl.
  by rewrite bool_decide_eq_true_2.
Qed.

Lemma data_index_run k v w : k < Capacity v -> data_index k (w, v) = ((w, v), Done k).
Proof.
  intros H. unfold data_index, bind, this, of_outcome, RawMemory_index. simpl.
  by rewrite bool_decide_eq_true_2.
Qed.

Lemma assert_run (c : bool) s : c = true -> assert c s = (s, Done tt).
Proof. by intros ->. Qed.

Lemma range_assert pos e :
  pos <= e -> bool_decide (0 <= pos) && bool_decide (pos <= e) = true.
Proof.
  intros H. rewrite andb_true_iff. split; apply bool_decide_eq_true_2; lia.
Qed.

(** ** [Emplace], branch by branch *)

Lemma Emplace_at_end v w a :
  size_ v < Capacity v ->
  Emplace (size_ v) a (w, v) =
    (x <- construct a;;
     store_at (size_ v) x;;;
     incr_size;;;
     data_plus (size_ v)) (w, v).
Proof.
  intros Hc. unfold Emplace.
  erewrite bind_Done by reflexivity.
  erewrite bind_Done by (apply end_run; lia).
  erewrite bind_Done by (by apply assert_run, range_assert).
  erewrite bind_Done by reflexivity. simpl.
  rewrite bool_decide_eq_true_2 by done.
  rewrite Nat.sub_0_r, bind_assoc.
  erewrite bind_Done by (apply end_run; lia).
  rewrite bool_decide_eq_true_2 by done.
  by rewrite bind_assoc.
Qed.

Lemma Emplace_inside v w pos a :
  size_ v < Capacity v -> pos < size_ v ->
  Emplace pos a (w, v) =
    (temp_value <- construct a;;
     v1 <- this;;
     last <- data_index (size_ v1 - 1);;
     e <- end_;;
     move_construct_at e last;;;
     on_data (fun w blk => std_move_backward w blk pos (e - 1) e);;;
     i <- data_index pos;;
     move_assign_from i temp_value;;;
     incr_size;;;
     data_plus pos) (w, v).
Proof.
  intros Hc Hpos. unfold Emplace.
  erewrite bind_Done by reflexivity.
  erewrite bind_Done by (apply end_run; lia).
  erewrite bind_Done by (apply assert_run, range_assert; lia).
  erewrite bind_Done by reflexivity. simpl.
  rewrite bool_decide_eq_true_2 by done.
  rewrite Nat.sub_0_r, bind_assoc.
  erewrite bind_Done by (apply end_run; lia).
  rewrite bool_decide_eq_false_2 by lia.
  unfold bind. repeat (case_match; simplify_eq; try done).
Qed.

Lemma Emplace_full v w pos a :
  size_ v = Capacity v -> pos <= size_ v ->
  Emplace pos a (w, v) =
    (new_data <- in_world (RawMemory_sized
                   (if bool_decide (size_ v = 0) then 1 else size_t_mul (size_ v) 2));;
     p <- of_outcome (RawMemory_plus new_data pos);;
     x <- construct a;;
     assert (in_block (buffer_ new_data) p);;;
     front <- ReinicializationDataIn_range 0 pos (<[p := Some x]> (buffer_ new_data)) 0;;
     e <- end_;;
     q <- of_outcome (RawMemory_plus new_data pos);;
     filled <- ReinicializationDataIn_range pos e front (q + 1);;
     v1 <- this;;
     destroy_data 0 (size_ v1);;;
     adopt {| buffer_ := filled; capacity_ := capacity_ new_data |};;;
     incr_size;;;
     data_plus pos) (w, v).
Proof.
  intros Hc Hpos. unfold Emplace.
  erewrite bind_Done by reflexivity.
  erewrite bind_Done by (apply end_run; lia).
  erewrite bind_Done by (apply assert_run, range_assert; lia).
  erewrite bind_Done by reflexivity. simpl.
  rewrite bool_decide_eq_false_2 by lia.
  rewrite Nat.sub_0_r.
  unfold bind, begin_, ret. repeat (case_match; simplify_eq; try done).
Qed.

(** ** More on runs of objects *)

Lemma holds_app b (s : nat) xs ys :
  holds b s (xs ++ ys) <-> holds b s xs /\ holds b (s + length xs) ys.
Proof.
  split.
  - intros H. split.
    + intros i x Hi. apply H. by apply lookup_app_l_Some.
    + intros i x Hi. rewrite <- Nat.add_assoc. apply H.
      rewrite lookup_app_r by lia. by replace (length xs + i - length xs) with i by lia.
  - intros [H1 H2] i x Hi. apply lookup_app_Some in Hi as [Hi|[Hl Hi]].
    + by apply H1.
    + apply H2 in Hi. by replace (s + length xs + (i - length xs)) with (s + i) in Hi by lia.
Qed.

Lemma holds_eq b b' (s : nat) xs : b = b' -> holds b' s xs -> holds b s xs.
Proof. by intros ->. Qed.

Lemma holds_fmap pre xs suf : holds (pre ++ (Some <$> xs) ++ suf) (length pre) xs.
Proof.
  intros i x Hi. rewrite lookup_app_r by lia.
  replace (length pre + i - length pre) with i by lia.
  apply lookup_app_l_Some. by rewrite list_lookup_fmap, Hi.
Qed.

Lemma holds_fmap_0 xs suf : holds ((Some <$> xs) ++ suf) 0 xs.
Proof. apply (holds_fmap [] xs suf). Qed.

Lemma holds_write_at_frame b (s : nat) xs d ys :
  d <= length b -> s + length xs <= d \/ d + length ys <= s ->
  holds b s xs -> holds (write_at b d ys) s xs.
Proof.
  intros Hd Hsep H i x Hi.
  assert (i < length xs) by (by eapply lookup_lt_Some).
  destruct Hsep.
  - rewrite lookup_write_at_lt by lia. by apply H.
  - rewrite lookup_write_at_ge by lia. by apply H.
Qed.

Lemma elements_of b cap n zs :
  holds b 0 zs -> length zs = n ->
  elements {| data_ := {| buffer_ := b; capacity_ := cap |}; size_ := n |} = zs.
Proof. intros H Hl. unfold elements. simpl. by apply holds_elements. Qed.

(** A valid vector's block is its elements followed by free slots. *)
Lemma valid_buffer v :
  valid v ->
  buffer_ (data_ v) = (Some <$> elements v) ++ drop (size_ v) (buffer_ (data_ v)).
Proof. intros Hv. rewrite <- valid_take by done. by rewrite take_drop. Qed.

Lemma buffer_with_buffer v b : buffer_ (data_ (with_buffer v b)) = b.
Proof. done. Qed.

Lemma with_buffer_twice v b b' : with_buffer (with_buffer v b) b' = with_buffer v b'.
Proof. done. Qed.

(** ** The element steps of [Emplace] on a block of known shape *)

Lemma move_construct_at_eq v w pre l (o : option T) suf :
  buffer_ (data_ v) = pre ++ Some l :: o :: suf ->
  move_construct_at (S (length pre)) (length pre) (w, v) =
    match move_construct l w with
    | (w1, (l', Some y)) => ((w1, with_buffer v (pre ++ Some l' :: Some y :: suf)), Done tt)
    | (w1, (l', None)) => ((w1, with_buffer v (pre ++ Some l' :: o :: suf)), Thrown)
    end.
Proof.
  destruct v as [[buf cap] n]. simpl. intros ->.
  unfold move_construct_at, object_at, store_at, this, in_world, set_this,
    ret, throw, with_buffer, bind. cbn.
  rewrite live_middle. cbn.
  destruct (move_construct l w) as [w1 [l' r]]. cbn.
  rewrite (proj2 (in_block_true _ _)) by (rewrite length_app; simpl; lia).
  rewrite insert_middle.
  destruct r as [y|]; [|done]. cbn.
  rewrite (proj2 (in_block_true _ _)) by (rewrite length_app; simpl; lia).
  replace (pre ++ Some l' :: o :: suf) with ((pre ++ [Some l']) ++ o :: suf)
    by (by rewrite <- app_assoc).
  replace (S (length pre)) with (length (pre ++ [Some l']))
    by (rewrite length_app; simpl; lia).
  rewrite insert_middle. cbn. by rewrite <- app_assoc.
Qed.

Lemma move_assign_from_eq v w pre r suf x :
  buffer_ (data_ v) = pre ++ Some r :: suf ->
  move_assign_from (length pre) x (w, v) =
    match move_assign r x w with
    | (w1, (y', x', ok)) =>
        ((w1, with_buffer v (pre ++ Some y' :: suf)), if ok then Done tt else Thrown)
    end.
Proof.
  destruct v as [[buf cap] n]. simpl. intros ->.
  unfold move_assign_from, object_at, store_at, this, in_world, set_this,
    ret, throw, with_buffer, bind. cbn.
  rewrite live_middle. cbn.
  destruct (move_assign r x w) as [w1 [[y' x'] ok]]. cbn.
  rewrite (proj2 (in_block_true _ _)) by (rewrite length_app; simpl; lia).
  rewrite insert_middle. by destruct ok.
Qed.

(** ** Arguments that leave the vector alone *)

Lemma construct_passes `{!Lawful} v a x w s' o :
  passes v a x -> construct a (w, v) = (s', o) ->
  snd s' = v /\ o ≠ Fault /\ forall y, o = Done y -> y = x.
Proof.
  intros [x0|x0|j x0 Hj]; simpl.
  - intros (w1 & Hc & ->)%in_world_inv. simpl in *. unfold or_throw in Hc.
    destruct (copy_construct x0 w) as [w2 [y|]] eqn:Hcc; simpl in Hc; injection Hc as <- <-.
    + apply copy_construct_value in Hcc as ->. split_and!; [done..|]. by intros ? [= <-].
    + by split_and!.
  - intros (w1 & Hc & ->)%in_world_inv. simpl in *.
    destruct (move_construct x0 w) as [w2 [x' [y|]]] eqn:Hcc; unfold or_throw in Hc;
      simpl in Hc; injection Hc as <- <-.
    + apply move_construct_value in Hcc as ->. split_and!; [done..|]. by intros ? [= <-].
    + by split_and!.
  - unfold object_at, this, bind. simpl. rewrite Hj. unfold ret.
    intros (w1 & Hc & ->)%in_world_inv. simpl in *. unfold or_throw in Hc.
    destruct (copy_construct x0 w) as [w2 [y|]] eqn:Hcc; simpl in Hc; injection Hc as <- <-.
    + apply copy_construct_value in Hcc as ->. split_and!; [done..|]. by intros ? [= <-].
    + by split_and!.
Qed.

Lemma store_at_run i x v w :
  i < length (buffer_ (data_ v)) ->
  store_at i x (w, v) = ((w, with_buffer v (<[i := Some x]> (buffer_ (data_ v)))), Done tt).
Proof.
  intros Hi. unfold store_at, this, set_this, bind. simpl.
  by rewrite (proj2 (in_block_true _ _)) by done.
Qed.

(** The three ways a construction from [a] can end, for an argument that
    leaves the vector alone. *)
Lemma construct_cases `{!Lawful} v a x w :
  passes v a x ->
  exists w1, construct a (w, v) = ((w1, v), Done x) \/ construct a (w, v) = ((w1, v), Thrown).
Proof.
  intros Hp. destruct (construct a (w, v)) as [[w1 v1] o] eqn:Hc.
  destruct (construct_passes v a x w _ _ Hp Hc) as (Hv & Hf & Hx). simpl in Hv. subst v1.
  exists w1. destruct o as [y| |]; [|by right|done].
  left. by rewrite (Hx y eq_refl).
Qed.

(** ** [Emplace] inserts *)

Lemma Emplace_at_end_correct `{!Lawful} v w a x s' o :
  valid v -> size_ v < Capacity v -> passes v a x ->
  Emplace (size_ v) a (w, v) = (s', o) -> o ≠ Thrown ->
  o = Done (size_ v) /\ size_ (snd s') = S (size_ v) /\
  Capacity (snd s') = Capacity v /\
  elements (snd s') = elements v ++ [x].
Proof.
  intros Hv Hc Hp. rewrite Emplace_at_end by done. intros Hrun Ho.
  pose proof Hv as (Hlen & _ & _).
  destruct (construct_cases v a x w Hp) as [w1 [Hr|Hr]].
  2:{ unfold bind in Hrun. rewrite Hr in Hrun. by injection Hrun as <- <-. }
  rewrite (bind_Done _ _ _ _ _ Hr) in Hrun.
  erewrite bind_Done in Hrun by (apply store_at_run; unfold Capacity in Hc; lia).
  erewrite bind_Done in Hrun by reflexivity.
  rewrite data_plus_run in Hrun by (unfold Capacity in *; simpl; lia).
  injection Hrun as <- <-. simpl. split_and!; [done | lia | done |].
  replace (size_ v + 1) with (length (elements v ++ [x]))
    by (rewrite length_app, length_elements by done; simpl; lia).
  apply holds_elements; [|done].
  rewrite (valid_buffer v Hv).
  destruct (drop (size_ v) (buffer_ (data_ v))) as [|r0 rest] eqn:Hd.
  { apply (f_equal length) in Hd. rewrite length_drop in Hd. simpl in Hd.
    unfold Capacity in Hc. lia. }
  rewrite <- (length_elements v Hv).
  replace (length (elements v)) with (length (Some <$> elements v))
    by apply length_fmap.
  rewrite insert_middle.
  replace ((Some <$> elements v) ++ Some x :: rest)
    with ((Some <$> (elements v ++ [x])) ++ rest)
    by (by rewrite fmap_app, <- app_assoc).
  apply holds_fmap_0.
Qed.

Lemma Emplace_inside_correct `{!Lawful} v w pos a x s' o :
  valid v -> size_ v < Capacity v -> pos < size_ v -> passes v a x ->
  Emplace pos a (w, v) = (s', o) -> o ≠ Thrown ->
  o = Done pos /\ size_ (snd s') = S (size_ v) /\
  Capacity (snd s') = Capacity v /\
  elements (snd s') = take pos (elements v) ++ x :: drop pos (elements v).
Proof.
  intros Hv Hc Hpos Hp. rewrite Emplace_inside by done. intros Hrun Ho.
  pose proof Hv as (Hlen & _ & _).
  pose proof (length_elements v Hv) as Hxs.
  pose proof (valid_buffer v Hv) as Hbuf.
  (* the shape of the block *)
  set (pre := take pos (elements v)) in *.
  assert (length pre = pos) as Hpre by (unfold pre; rewrite length_take; lia).
  destruct (drop pos (elements v)) as [|l mid _] eqn:Htail using rev_ind.
  { apply (f_equal length) in Htail. rewrite length_drop in Htail. simpl in Htail. lia. }
  assert (elements v = pre ++ mid ++ [l]) as Hsplit.
  { rewrite <- Htail. unfold pre. by rewrite take_drop. }
  assert (size_ v = pos + length mid + 1) as Hsize.
  { rewrite <- Hxs, Hsplit, !length_app. simpl. lia. }
  destruct (drop (size_ v) (buffer_ (data_ v))) as [|r0 rest] eqn:Hd.
  { apply (f_equal length) in Hd. rewrite length_drop in Hd. simpl in Hd.
    unfold Capacity in Hc. lia. }
  rewrite Hsplit in Hbuf.
  assert (buffer_ (data_ v) =
          ((Some <$> pre) ++ (Some <$> mid)) ++ Some l :: r0 :: rest) as Hshape.
  { rewrite Hbuf, !fmap_app, <- !app_assoc. done. }
  assert (length ((Some <$> pre) ++ (Some <$> mid)) = size_ v - 1) as Hl1.
  { rewrite length_app, !length_fmap. lia. }
  (* the new value is made first *)
  destruct (construct_cases v a x w Hp) as [w1 [Hr|Hr]].
  2:{ unfold bind in Hrun. rewrite Hr in Hrun. by injection Hrun as <- <-. }
  rewrite (bind_Done _ _ _ _ _ Hr) in Hrun.
  erewrite bind_Done in Hrun by reflexivity. simpl in Hrun.
  erewrite bind_Done in Hrun by (apply data_index_run; lia).
  erewrite bind_Done in Hrun by (apply end_run; lia).
  (* the last element moves into the free slot *)
  replace (size_ v) with (S (length ((Some <$> pre) ++ (Some <$> mid)))) in Hrun at 1
    by lia.
  rewrite <- Hl1 in Hrun at 1.
  unfold bind at 1 in Hrun.
  rewrite (move_construct_at_eq v w1 _ l r0 rest Hshape) in Hrun.
  destruct (move_construct l w1) as [w2 [l' [y|]]] eqn:Hmc;
    [|by injection Hrun as <- <-].
  apply move_construct_value in Hmc as ->.
  (* the elements from [pos] on shift up *)
  unfold bind at 1 in Hrun. unfold on_data in Hrun. simpl in Hrun.
  unfold std_move_backward in Hrun.
  rewrite bool_decide_eq_true_2 in Hrun by lia.
  replace (size_ v - 1 - pos) with (length mid) in Hrun by lia.
  rewrite <- app_assoc in Hrun.
  replace pos with (length (Some <$> pre)) in Hrun at 1 by (by rewrite length_fmap).
  replace (size_ v) with (length (Some <$> pre) + length mid + 1) in Hrun at 1
    by (rewrite length_fmap; lia).
  destruct (move_backward_n _ _ _ _ _) as [[w3 b3] o3] eqn:Hmb in Hrun.
  apply move_backward_n_shift in Hmb as (zs & -> & Hzs & Hf & Hdone).
  destruct o3 as [[]| |]; [|by injection Hrun as <- <-|done].
  destruct (Hdone eq_refl) as [r ->]. clear Hdone Hf.
  (* the new value is assigned to its slot *)
  erewrite bind_Done in Hrun by (apply data_index_run; unfold Capacity in *; simpl; lia).
  unfold bind at 1 in Hrun.
  replace pos with (length (Some <$> pre)) in Hrun at 1 by (by rewrite length_fmap).
  erewrite move_assign_from_eq in Hrun by (simpl; reflexivity).
  destruct (move_assign r x w3) as [w4 [[y' x'] [|]]] eqn:Hma;
    [|by injection Hrun as <- <-].
  apply move_assign_value in Hma as ->.
  erewrite bind_Done in Hrun by reflexivity.
  rewrite data_plus_run in Hrun by (unfold Capacity in *; simpl; lia).
  injection Hrun as <- <-. simpl. split_and!; [done | lia | done |].
  apply elements_of.
  - eapply holds_eq; [|apply (holds_fmap_0 (pre ++ x :: mid ++ [l]) rest)].
    rewrite fmap_app, fmap_cons, fmap_app, <- !app_assoc. simpl.
    by rewrite <- app_assoc.
  - rewrite length_app. simpl. rewrite length_app. simpl. lia.
Qed.

(** A transfer of the run [zs] of a lawful type: the originals stay live,
    the new block gets the values. *)
Lemma ReinicializationDataIn_range_lawful `{!Lawful} zs v w first last new_buffer result s' o :
  holds (buffer_ (data_ v)) first zs -> length zs = last - first -> first <= last ->
  result + length zs <= length new_buffer ->
  ReinicializationDataIn_range first last new_buffer result (w, v) = (s', o) ->
  exists w1 olds,
    s' = (w1, with_buffer v (write_at (buffer_ (data_ v)) first olds)) /\
    length olds = length zs /\
    (o = Done (write_at new_buffer result zs) \/ o = Thrown).
Proof.
  intros Hzs Hlen Hr Hroom.
  unfold ReinicializationDataIn_range, std_uninitialized_move, std_uninitialized_copy.
  rewrite bool_decide_eq_true_2 by lia. simpl. rewrite <- Hlen.
  destruct transfer_by_move.
  - destruct (uninitialized_move_n_each zs w (buffer_ (data_ v)) first new_buffer result)
      as (dst' & -> & Hl & _ & Hys); [done | lia |].
    pose proof (move_each_value zs w) as Hval.
    destruct (move_each zs w) as [w1 [olds [ys|]]]; simpl in *.
    + destruct (Hys ys eq_refl) as [-> _]. rewrite (Hval ys eq_refl).
      intros [= <- <-]. exists w1, olds. split_and!; [done..|by left].
    + intros [= <- <-]. exists w1, olds. split_and!; [done..|by right].
  - destruct (uninitialized_copy_n_each zs w (buffer_ (data_ v)) first new_buffer result)
      as (dst' & -> & _ & Hys); [done | lia |].
    pose proof (copy_each_value zs w) as Hval.
    destruct (copy_each zs w) as [w1 [ys|]]; simpl in *.
    + destruct (Hys ys eq_refl) as [-> _]. rewrite (Hval ys eq_refl).
      intros [= <- <-]. exists w1, zs. rewrite write_at_holds by done.
      rewrite with_buffer_id. split_and!; [done..|by left].
    + intros [= <- <-]. exists w1, zs. rewrite write_at_holds by done.
      rewrite with_buffer_id. split_and!; [done..|by right].
Qed.

Lemma destroy_data_run zs n v w :
  holds (buffer_ (data_ v)) 0 zs -> length zs = n ->
  exists b1, destroy_data 0 n (w, v) = ((w, with_buffer v b1), Done tt).
Proof.
  intros Hzs <-. destruct (destroy_n_holds _ _ _ Hzs) as [b1 Hb1].
  exists b1. unfold destroy_data, this, set_this, bind. simpl. by rewrite Hb1.
Qed.

Lemma grown_room n :
  (N.of_nat n * 2 < 2 ^ 64)%N ->
  (if bool_decide (n = 0) then 1 else size_t_mul n 2) = grown n /\ n + 1 <= grown n.
Proof.
  intros Hw. unfold grown. case_bool_decide.
  - subst. simpl. lia.
  - rewrite size_t_mul_small by (simpl; lia). lia.
Qed.

(** The block a full valid vector grows to is one [size_t] can count the
    bytes of. *)
Lemma grown_representable v :
  valid v -> size_ v = Capacity v -> representable (grown (size_ v)).
Proof.
  intros (_ & _ & _ & Hfit) Hc. pose proof sizeof_T_range as [Hpos Hmax].
  unfold representable, grown, Capacity in *. rewrite <- Hc in Hfit.
  destruct (size_ v) as [|n]; [simpl; lia|].
  replace (1 `max` (2 * S n)) with (2 * S n) by lia. lia.
Qed.

(** A valid vector has a capacity that can be doubled in [size_t]. *)
Lemma valid_twice v : valid v -> (N.of_nat (Capacity v) * 2 < 2 ^ 64)%N.
Proof.
  intros (_ & _ & _ & Hfit). pose proof sizeof_T_range as [Hpos _].
  unfold Capacity. nia.
Qed.

(** A request for no more elements than a valid vector has slots does
    not wrap. *)
Lemma valid_representable v n : valid v -> n <= Capacity v -> representable n.
Proof.
  intros (_ & _ & _ & Hfit) Hn. pose proof sizeof_T_range as [Hpos _].
  unfold representable, Capacity in *. nia.
Qed.

(** The block of such a request has its slots, and is one that
    exists. *)
Lemma RawMemory_sized_fit n w w1 (m : RawMemory T) :
  representable n -> RawMemory_sized n w = (w1, Done m) ->
  capacity_ m = n /\ length (buffer_ m) = n /\ (N.of_nat n * sizeof_T < 2 ^ 63)%N.
Proof.
  intros Hrep Hm. unfold RawMemory_sized in Hm.
  destruct (Allocate n w) as [w2 [b| |]] eqn:Hb; [|done..].
  injection Hm as <- <-. simpl. apply Allocate_inv in Hb as [Hlen Hfit].
  rewrite alloc_slots_representable in Hlen, Hfit by done. done.
Qed.

Lemma Emplace_full_correct `{!Lawful} v w pos a x s' o :
  valid v -> size_ v = Capacity v -> pos <= size_ v ->
  (N.of_nat (size_ v) * 2 < 2 ^ 64)%N -> passes v a x ->
  Emplace pos a (w, v) = (s', o) -> o ≠ Thrown ->
  o = Done pos /\ size_ (snd s') = S (size_ v) /\
  Capacity (snd s') = grown (Capacity v) /\
  elements (snd s') = take pos (elements v) ++ x :: drop pos (elements v).
Proof.
  intros Hv Hc Hpos Hw Hp. rewrite Emplace_full by done. intros Hrun Ho.
  pose proof Hv as (Hlen & _ & _).
  pose proof (length_elements v Hv) as Hxs.
  pose proof (valid_holds v Hv) as Hholds.
  destruct (grown_room _ Hw) as [Hg Hroom]. rewrite Hg in Hrun. clear Hg.
  rewrite <- Hc. set (cap := grown (size_ v)) in *. unfold Capacity in Hc.
  (* the new block *)
  unfold bind at 1 in Hrun. unfold in_world, RawMemory_sized, Allocate in Hrun.
  rewrite bool_decide_eq_true_2 in Hrun by lia.
  rewrite (alloc_slots_representable cap) in Hrun by (by apply grown_representable).
  simpl in Hrun.
  destruct (operator_new (alloc_bytes cap) w) as [w1 [|]]; [|by injection Hrun as <- <-].
  simpl in Hrun.
  unfold bind at 1 in Hrun. unfold of_outcome, RawMemory_plus in Hrun. simpl in Hrun.
  rewrite bool_decide_eq_true_2 in Hrun by lia.
  (* the new value is made first, in its final slot *)
  destruct (construct_cases v a x w1 Hp) as [w2 [Hr|Hr]].
  2:{ unfold bind in Hrun. rewrite Hr in Hrun. by injection Hrun as <- <-. }
  rewrite (bind_Done _ _ _ _ _ Hr) in Hrun.
  erewrite bind_Done in Hrun
    by (apply assert_run, in_block_true; rewrite length_replicate; lia).
  (* the elements in front of [pos] *)
  set (placed := <[pos := Some x]> (replicate cap None)) in *.
  assert (length placed = cap) as Hplaced
    by (unfold placed; by rewrite length_insert, length_replicate).
  set (pre := take pos (elements v)) in *. set (suf := drop pos (elements v)) in *.
  assert (length pre = pos) as Hpre by (unfold pre; rewrite length_take; lia).
  assert (length suf = size_ v - pos) as Hsuf by (unfold suf; rewrite length_drop; lia).
  unfold bind at 1 in Hrun.
  destruct (ReinicializationDataIn_range 0 pos placed 0 (w2, v)) as [s1 o1] eqn:Hfront.
  apply (ReinicializationDataIn_range_lawful pre) in Hfront
    as (w3 & olds1 & -> & Hl1 & Ho1); [| |lia..].
  2:{ by apply holds_take. }
  destruct Ho1 as [-> | ->]; [|by injection Hrun as <- <-].
  erewrite bind_Done in Hrun by (apply end_run; unfold Capacity in *; simpl; lia).
  unfold bind at 1 in Hrun. unfold of_outcome, RawMemory_plus in Hrun. simpl in Hrun.
  rewrite ?bool_decide_eq_true_2 in Hrun by lia.
  (* the elements from [pos] on *)
  unfold bind at 1 in Hrun.
  destruct (ReinicializationDataIn_range pos (size_ v) _ (pos + 1) _) as [s2 o2] eqn:Hback
    in Hrun.
  apply (ReinicializationDataIn_range_lawful suf) in Hback
    as (w4 & olds2 & -> & Hl2 & Ho2); [| |lia..|].
  2:{ simpl. apply holds_write_at_frame; [lia | right; lia |]. by apply holds_drop_all. }
  2:{ rewrite length_write_at by lia. lia. }
  destruct Ho2 as [-> | ->]; [|by injection Hrun as <- <-].
  simpl in Hrun.
  (* the originals are destroyed and the new block adopted *)
  erewrite bind_Done in Hrun by reflexivity. simpl in Hrun.
  destruct (destroy_data_run (olds1 ++ olds2) (size_ v)
              (with_buffer v (write_at (write_at (buffer_ (data_ v)) 0 olds1) pos olds2)) w4)
    as [b1 Hdestroy].
  { simpl. apply holds_app. split.
    - apply holds_write_at_frame; [rewrite length_write_at; lia | left; lia |].
      apply holds_write_at. lia.
    - simpl. rewrite Hl1, Hpre. apply holds_write_at.
      rewrite length_write_at by lia. lia. }
  { rewrite length_app. lia. }
  rewrite (bind_Done _ _ _ _ _ Hdestroy) in Hrun.
  erewrite bind_Done in Hrun by reflexivity.
  erewrite bind_Done in Hrun by reflexivity.
  rewrite data_plus_run in Hrun by (unfold Capacity; simpl; lia).
  injection Hrun as <- <-. simpl. split_and!; [done | lia | done |].
  apply elements_of.
  - apply holds_app. split.
    + apply holds_write_at_frame; [rewrite length_write_at; lia | left; lia |].
      apply holds_write_at. lia.
    + simpl. rewrite Hpre. apply holds_cons. split.
      * rewrite lookup_write_at_lt by (rewrite ?length_write_at; lia).
        rewrite lookup_write_at_ge by lia.
        unfold placed. apply list_lookup_insert_eq. rewrite length_replicate. lia.
      * replace (S pos) with (pos + 1) by lia. apply holds_write_at.
        rewrite length_write_at by lia. lia.
  - rewrite length_app. simpl. lia.
Qed.

Lemma Emplace_correct `{!Lawful} v w pos a x s' o :
  valid v -> pos <= size_ v -> (N.of_nat (size_ v) * 2 < 2 ^ 64)%N -> passes v a x ->
  Emplace pos a (w, v) = (s', o) -> o ≠ Thrown ->
  o = Done pos /\ size_ (snd s') = S (size_ v) /\
  elements (snd s') = take pos (elements v) ++ x :: drop pos (elements v).
Proof.
  intros Hv Hpos Hw Hp Hrun Ho.
  pose proof (length_elements v Hv) as Hxs.
  destruct (decide (size_ v < Capacity v)) as [Hc|Hc].
  - destruct (decide (pos = size_ v)) as [->|Hne].
    + destruct (Emplace_at_end_correct v w a x s' o) as (? & ? & _ & ?); [done..|].
      rewrite take_ge, drop_ge by lia. done.
    + destruct (Emplace_inside_correct v w pos a x s' o) as (? & ? & _ & ?);
        [done | done | lia | done..].
  - assert (size_ v = Capacity v) as Heq.
    { destruct Hv as (_ & ? & _). unfold Capacity in *. lia. }
    destruct (Emplace_full_correct v w pos a x s' o) as (? & ? & _ & ?); done.
Qed.

Lemma Insert_copy_Emplace v w pos value :
  size_ v <= Capacity v -> pos <= size_ v ->
  Insert_copy pos value (w, v) = Emplace pos (Lvalue value) (w, v).
Proof.
  intros Hc Hpos. unfold Insert_copy.
  erewrite bind_Done by reflexivity.
  erewrite bind_Done by (by apply end_run).
  by erewrite bind_Done by (by apply assert_run, range_assert).
Qed.

Lemma Insert_move_Emplace v w pos value :
  size_ v <= Capacity v -> pos <= size_ v ->
  Insert_move pos value (w, v) = Emplace pos (Rvalue value) (w, v).
Proof.
  intros Hc Hpos. unfold Insert_move.
  erewrite bind_Done by reflexivity.
  erewrite bind_Done by (by apply end_run).
  by erewrite bind_Done by (by apply assert_run, range_assert).
Qed.

Lemma valid_size_le v : valid v -> size_ v <= Capacity v.
Proof. by intros (_ & ? & _). Qed.

(** C2.  Inserting the value [x] at position [pos <= size] of a vector
    that holds [xs] leaves it holding [xs] with [x] put in at index
    [pos] and one element longer, and returns the iterator to index
    [pos]; this for both overloads of [Insert], and unless the call ends
    in an exception. *)
Theorem Insert_correct `{!Lawful} v w pos x s' o :
  valid v -> pos <= size_ v -> (N.of_nat (size_ v) * 2 < 2 ^ 64)%N ->
  Insert_copy pos (External x) (w, v) = (s', o) \/
  Insert_move pos (External x) (w, v) = (s', o) ->
  o ≠ Thrown ->
  o = Done pos /\ size_ (snd s') = S (size_ v) /\
  elements (snd s') = take pos (elements v) ++ x :: drop pos (elements v).
Proof.
  intros Hv Hpos Hw Hrun Ho. pose proof (valid_size_le v Hv) as Hc.
  destruct Hrun as [Hrun|Hrun].
  - rewrite Insert_copy_Emplace in Hrun by done.
    eapply Emplace_correct; [done..|constructor|done|done].
  - rewrite Insert_move_Emplace in Hrun by done.
    eapply Emplace_correct; [done..|constructor|done|done].
Qed.

Lemma elements_live v j x : valid v -> elements v !! j = Some x ->
  live (buffer_ (data_ v)) j = Some x.
Proof.
  intros Hv Hj. apply live_Some. by apply (valid_holds v Hv j x).
Qed.

(** C9.  With spare capacity and an interior position, [Insert] of a
    reference to the vector's own element [j] first copies that element
    into a temporary: when this copy throws, nothing else has run and
    the vector is as it was; otherwise, unless a later step throws, the
    vector holds its old sequence with the value element [j] had put in
    at [pos].  The same for [Emplace] called with that reference. *)
Theorem Insert_own_element `{!Lawful} v w pos j x s' o :
  valid v -> size_ v < Capacity v -> pos < size_ v -> elements v !! j = Some x ->
  Insert_copy pos (Element j) (w, v) = (s', o) \/
  Emplace pos (Lvalue (Element j)) (w, v) = (s', o) ->
  (forall w1, copy_construct x w = (w1, None) -> s' = (w1, v) /\ o = Thrown) /\
  (o ≠ Thrown ->
   o = Done pos /\ size_ (snd s') = S (size_ v) /\
   elements (snd s') = take pos (elements v) ++ x :: drop pos (elements v)).
Proof.
  intros Hv Hc Hpos Hj Hrun.
  assert (Emplace pos (Lvalue (Element j)) (w, v) = (s', o)) as Hem.
  { destruct Hrun as [Hrun|Hrun]; [|done].
    by rewrite Insert_copy_Emplace in Hrun by lia. }
  clear Hrun. pose proof (elements_live v j x Hv Hj) as Hlive. split.
  - intros w1 Hthrow. rewrite Emplace_inside in Hem by done.
    unfold bind at 1 in Hem. simpl in Hem.
    unfold object_at, this, bind in Hem. simpl in Hem. rewrite Hlive in Hem.
    unfold ret, in_world, or_throw in Hem. simpl in Hem. rewrite Hthrow in Hem.
    simpl in Hem. by injection Hem as <- <-.
  - intros Ho. destruct (Emplace_inside_correct v w pos (Lvalue (Element j)) x s' o)
      as (? & ? & _ & ?); [done..|by constructor|done|done|done].
Qed.

(** ** [PopBack] and [Erase] *)

Lemma PopBack_run v w r :
  0 < size_ v -> size_ v <= Capacity v ->
  live (buffer_ (data_ v)) (size_ v - 1) = Some r ->
  PopBack (w, v) =
    ((w, with_size (with_buffer v (<[size_ v - 1 := None]> (buffer_ (data_ v))))
           (size_ v - 1)), Done tt).
Proof.
  intros Hpos Hc Hr. unfold PopBack.
  erewrite bind_Done by reflexivity. simpl.
  erewrite bind_Done.
  2:{ apply assert_run. unfold Empty. rewrite bool_decide_eq_false_2 by lia. done. }
  erewrite bind_Done by (apply data_plus_run; lia).
  erewrite bind_Done.
  2:{ unfold destroy_data, this, set_this, bind. simpl. by rewrite Hr. }
  done.
Qed.

(** C5.  [Erase(pos)] with [pos < size], unless a move-assignment
    throws, returns the iterator [pos] and leaves the old sequence
    without the element that was at [pos]: one element fewer, the
    capacity unchanged, the slot that was last destroyed, and at [pos]
    the element that followed. *)
Theorem Erase_correct `{!Lawful} v w pos s' o :
  valid v -> pos < size_ v ->
  Erase pos (w, v) = (s', o) -> o ≠ Thrown ->
  o = Done pos /\ size_ (snd s') = size_ v - 1 /\
  Capacity (snd s') = Capacity v /\
  elements (snd s') = take pos (elements v) ++ drop (S pos) (elements v) /\
  elements (snd s') !! pos = elements v !! S pos /\
  live (buffer_ (data_ (snd s'))) (size_ v - 1) = None.
Proof.
  intros Hv Hpos Hrun Ho.
  pose proof Hv as (Hlen & Hc & _).
  pose proof (length_elements v Hv) as Hxs.
  pose proof (valid_buffer v Hv) as Hbuf.
  set (pre := take pos (elements v)) in *.
  assert (length pre = pos) as Hpre by (unfold pre; rewrite length_take; lia).
  destruct (drop pos (elements v)) as [|x0 mid] eqn:Htail.
  { apply (f_equal length) in Htail. rewrite length_drop in Htail. simpl in Htail. lia. }
  assert (elements v = pre ++ x0 :: mid) as Hsplit.
  { rewrite <- Htail. unfold pre. by rewrite take_drop. }
  assert (drop (S pos) (elements v) = mid) as Hmid.
  { rewrite Hsplit. replace (S pos) with (length pre + 1) by lia.
    by rewrite drop_app_add. }
  assert (size_ v = pos + length mid + 1) as Hsize.
  { rewrite <- Hxs, Hsplit, length_app. simpl. lia. }
  set (rest := drop (size_ v) (buffer_ (data_ v))) in *.
  assert (buffer_ (data_ v) = (Some <$> pre) ++ Some x0 :: (Some <$> mid) ++ rest) as Hshape.
  { rewrite Hbuf, Hsplit, fmap_app, fmap_cons, <- app_assoc. done. }
  unfold Erase in Hrun.
  erewrite bind_Done in Hrun by reflexivity.
  erewrite bind_Done in Hrun by (by apply end_run).
  erewrite bind_Done in Hrun.
  2:{ apply assert_run. rewrite andb_true_iff.
      split; apply bool_decide_eq_true_2; lia. }
  erewrite bind_Done in Hrun by (by apply end_run).
  (* the elements behind [pos] shift down *)
  unfold bind at 1 in Hrun. unfold on_data, std_move in Hrun. simpl in Hrun.
  rewrite bool_decide_eq_true_2 in Hrun by lia.
  rewrite Hshape in Hrun.
  replace (size_ v - (pos + 1)) with (length mid) in Hrun by lia.
  replace (pos + 1) with (S (length (Some <$> pre))) in Hrun
    by (rewrite length_fmap; lia).
  replace pos with (length (Some <$> pre)) in Hrun at 1 by (by rewrite length_fmap).
  destruct (move_forward_n _ _ _ _ _) as [[w1 b1] o1] eqn:Hmf in Hrun.
  apply move_forward_n_shift in Hmf as (zs & -> & Hzs & Hf & Hdone).
  destruct o1 as [[]| |]; [|by injection Hrun as <- <-|done].
  destruct (Hdone eq_refl) as [r ->]. clear Hdone Hf.
  (* the last slot is destroyed *)
  assert (((Some <$> pre) ++ (Some <$> mid ++ [r]) ++ rest) =
          ((Some <$> pre ++ mid) ++ Some r :: rest)) as Hb1.
  { rewrite !fmap_app, <- !app_assoc. done. }
  assert (length (Some <$> pre ++ mid) = size_ v - 1) as Hl1.
  { rewrite length_fmap, length_app. lia. }
  erewrite bind_Done in Hrun.
  2:{ apply (PopBack_run _ _ r); simpl; [lia | by unfold Capacity |].
      rewrite Hb1, <- Hl1. apply live_middle. }
  simpl in Hrun. unfold ret in Hrun. injection Hrun as <- <-. simpl.
  rewrite Hb1, <- Hl1, insert_middle, Hl1.
  assert (elements
            {| data_ := {| buffer_ := (Some <$> pre ++ mid) ++ None :: rest;
                           capacity_ := capacity_ (data_ v) |};
               size_ := size_ v - 1 |} = pre ++ mid) as Hel.
  { apply elements_of; [apply holds_fmap_0|]. rewrite length_app. lia. }
  unfold with_size, with_buffer. simpl. rewrite Hel, Hmid.
  split_and!; [done..| |].
  - rewrite lookup_app_r by lia. rewrite Hpre, Nat.sub_diag.
    rewrite Hsplit. rewrite lookup_app_r by lia.
    by replace (S pos - length pre) with 1 by lia.
  - unfold live. rewrite <- Hl1. by rewrite list_lookup_middle.
Qed.

End Methods.

(** ** How the algorithms change the shape of a block *)

Section Shapes.

Context {T W A : Type} `{E : ElementType T W A}.

Local Abbreviation block := (list (option T)).
Implicit Types (b src dst : block) (x y : T) (w : W).

Lemma block_extends_refl b : block_extends b b.
Proof. by split. Qed.

Lemma block_extends_trans b1 b2 b3 :
  block_extends b1 b2 -> block_extends b2 b3 -> block_extends b1 b3.
Proof. intros [Hl1 H1] [Hl2 H2]. split; [congruence | auto]. Qed.

Lemma insert_extends b i x : block_extends b (<[i := Some x]> b).
Proof.
  split; [apply length_insert|]. intros j Hj.
  destruct (decide (i = j)) as [->|Hne].
  - rewrite live_insert_eq; [by eexists|].
    destruct Hj as [z Hz]. by apply live_lt in Hz.
  - by rewrite live_insert_ne.
Qed.

Lemma agree_below_refl d b : agree_below d b b.
Proof. by split. Qed.

Lemma agree_below_trans d b1 b2 b3 :
  agree_below d b1 b2 -> agree_below d b2 b3 -> agree_below d b1 b3.
Proof.
  intros [Hl1 H1] [Hl2 H2]. split; [congruence|].
  intros i Hi. by rewrite H2, H1.
Qed.

Lemma agree_below_insert d b i (o : option T) : d <= i -> agree_below d b (<[i := o]> b).
Proof.
  intros Hi. split; [apply length_insert|].
  intros j Hj. apply list_lookup_insert_ne. lia.
Qed.

Lemma agree_below_weaken d d' b b' : d' <= d -> agree_below d b b' -> agree_below d' b b'.
Proof. intros Hd [Hl H]. split; [done|]. intros i Hi. apply H. lia. Qed.

Lemma filled_below d n b b' : filled d n b b' -> agree_below d b b'.
Proof. intros (Hl & Hout & _). split; [done|]. intros i Hi. apply Hout. lia. Qed.

Lemma filled_0 d b : filled d 0 b b.
Proof. split_and!; [done..|]. intros i Hi. lia. Qed.

Lemma filled_cons d n b b' y :
  d < length b -> filled (S d) n (<[d := Some y]> b) b' -> filled d (S n) b b'.
Proof.
  intros Hd (Hl & Hout & Hin). rewrite length_insert in Hl. split_and!; [done|..].
  - intros i Hi. rewrite Hout by lia. apply list_lookup_insert_ne. lia.
  - intros i Hi. destruct (decide (i = d)) as [->|Hne].
    + unfold live. rewrite Hout by lia. rewrite list_lookup_insert_eq by done. by eexists.
    + apply Hin. lia.
Qed.

Lemma destroy_n_below b p n b' : destroy_n b p n = Some b' -> agree_below p b b'.
Proof.
  revert b p. induction n as [|n IH]; intros b p; simpl.
  - intros [= <-]. apply agree_below_refl.
  - destruct (live b p); [|done]. intros Hd%IH.
    eapply agree_below_trans; [apply agree_below_insert; reflexivity|].
    eapply agree_below_weaken; [|done]. lia.
Qed.

Lemma uninitialized_copy_n_below w src s n dst d w' dst' o :
  uninitialized_copy_n w src s n dst d = (w', dst', o) -> agree_below d dst dst'.
Proof.
  revert w s dst d w' dst' o. induction n as [|n IH]; intros w s dst d w' dst' o; simpl.
  - intros [= <- <- <-]. apply agree_below_refl.
  - destruct (live src s) as [x|]; [|intros [= <- <- <-]; apply agree_below_refl].
    destruct (in_block dst d); [|intros [= <- <- <-]; apply agree_below_refl].
    destruct (copy_construct x w) as [w1 [y|]];
      [|intros [= <- <- <-]; apply agree_below_refl].
    destruct (uninitialized_copy_n w1 src (S s) n (<[d := Some y]> dst) (S d))
      as [[w2 dst2] o2] eqn:Hrec.
    apply IH in Hrec. apply (agree_below_weaken _ d) in Hrec; [|lia].
    assert (agree_below d dst dst2) as Hdst.
    { eapply agree_below_trans; [apply agree_below_insert; reflexivity | done]. }
    destruct o2; intros [= <- <- <-]; [done | | done].
    eapply agree_below_trans; [done | apply agree_below_insert; reflexivity].
Qed.

Lemma uninitialized_copy_n_filled w src s n dst d w' dst' :
  uninitialized_copy_n w src s n dst d = (w', dst', Done tt) -> filled d n dst dst'.
Proof.
  revert w s dst d w' dst'. induction n as [|n IH]; intros w s dst d w' dst'; simpl.
  - intros [= <- <-]. apply filled_0.
  - destruct (live src s) as [x|]; [|done].
    destruct (in_block dst d) eqn:Hd; [|done]. apply in_block_true in Hd.
    destruct (copy_construct x w) as [w1 [y|]]; [|done].
    destruct (uninitialized_copy_n w1 src (S s) n (<[d := Some y]> dst) (S d))
      as [[w2 dst2] o2] eqn:Hrec.
    destruct o2 as [[]| |]; intros [= <- <-].
    apply IH in Hrec. by apply (filled_cons _ _ _ _ y).
Qed.

Lemma uninitialized_value_construct_n_below w dst d n w' dst' o :
  uninitialized_value_construct_n w dst d n = (w', dst', o) -> agree_below d dst dst'.
Proof.
  revert w dst d w' dst' o. induction n as [|n IH]; intros w dst d w' dst' o; simpl.
  - intros [= <- <- <-]. apply agree_below_refl.
  - destruct (in_block dst d); [|intros [= <- <- <-]; apply agree_below_refl].
    destruct (value_construct w) as [w1 [y|]];
      [|intros [= <- <- <-]; apply agree_below_refl].
    destruct (uninitialized_value_construct_n w1 (<[d := Some y]> dst) (S d) n)
      as [[w2 dst2] o2] eqn:Hrec.
    apply IH in Hrec. apply (agree_below_weaken _ d) in Hrec; [|lia].
    assert (agree_below d dst dst2) as Hdst.
    { eapply agree_below_trans; [apply agree_below_insert; reflexivity | done]. }
    destruct o2; intros [= <- <- <-]; [done | | done].
    eapply agree_below_trans; [done | apply agree_below_insert; reflexivity].
Qed.

Lemma uninitialized_value_construct_n_filled w dst d n w' dst' :
  uninitialized_value_construct_n w dst d n = (w', dst', Done tt) -> filled d n dst dst'.
Proof.
  revert w dst d w' dst'. induction n as [|n IH]; intros w dst d w' dst'; simpl.
  - intros [= <- <-]. apply filled_0.
  - destruct (in_block dst d) eqn:Hd; [|done]. apply in_block_true in Hd.
    destruct (value_construct w) as [w1 [y|]]; [|done].
    destruct (uninitialized_value_construct_n w1 (<[d := Some y]> dst) (S d) n)
      as [[w2 dst2] o2] eqn:Hrec.
    destruct o2 as [[]| |]; intros [= <- <-].
    apply IH in Hrec. by apply (filled_cons _ _ _ _ y).
Qed.

Lemma uninitialized_move_n_extends w src s n dst d w' src' dst' o :
  uninitialized_move_n w src s n dst d = (w', src', dst', o) -> block_extends src src'.
Proof.
  revert w src s dst d w' src' dst' o.
  induction n as [|n IH]; intros w src s dst d w' src' dst' o; simpl.
  - intros [= <- <- <- <-]. apply block_extends_refl.
  - destruct (live src s) as [x|]; [|intros [= <- <- <- <-]; apply block_extends_refl].
    destruct (in_block dst d); [|intros [= <- <- <- <-]; apply block_extends_refl].
    destruct (move_construct x w) as [w1 [x' [y|]]].
    + destruct (uninitialized_move_n w1 (<[s := Some x']> src) (S s) n
                  (<[d := Some y]> dst) (S d)) as [[[w2 src2] dst2] o2] eqn:Hrec.
      apply IH in Hrec.
      assert (block_extends src src2) as Hsrc.
      { eapply block_extends_trans; [apply insert_extends | done]. }
      by destruct o2; intros [= <- <- <- <-].
    + intros [= <- <- <- <-]. apply insert_extends.
Qed.

Lemma uninitialized_move_n_filled w src s n dst d w' src' dst' :
  uninitialized_move_n w src s n dst d = (w', src', dst', Done tt) -> filled d n dst dst'.
Proof.
  revert w src s dst d w' src' dst'.
  induction n as [|n IH]; intros w src s dst d w' src' dst'; simpl.
  - intros [= <- <- <-]. apply filled_0.
  - destruct (live src s) as [x|]; [|done].
    destruct (in_block dst d) eqn:Hd; [|done]. apply in_block_true in Hd.
    destruct (move_construct x w) as [w1 [x' [y|]]]; [|done].
    destruct (uninitialized_move_n w1 (<[s := Some x']> src) (S s) n
                (<[d := Some y]> dst) (S d)) as [[[w2 src2] dst2] o2] eqn:Hrec.
    destruct o2 as [[]| |]; intros [= <- <- <-].
    apply IH in Hrec. by apply (filled_cons _ _ _ _ y).
Qed.

Lemma copy_n_extends w src s n dst d w' dst' o :
  copy_n w src s n dst d = (w', dst', o) -> block_extends dst dst'.
Proof.
  revert w s dst d w' dst' o. induction n as [|n IH]; intros w s dst d w' dst' o; simpl.
  - intros [= <- <- <-]. apply block_extends_refl.
  - destruct (live src s) as [x|]; [|intros [= <- <- <-]; apply block_extends_refl].
    destruct (live dst d) as [y|]; [|intros [= <- <- <-]; apply block_extends_refl].
    destruct (copy_assign y x w) as [w1 [y' [|]]].
    + intros Hrec%IH. eapply block_extends_trans; [apply insert_extends | done].
    + intros [= <- <- <-]. apply insert_extends.
Qed.

Lemma move_assign_at_extends w b s d w' b' o :
  move_assign_at w b s d = (w', b', o) -> block_extends b b'.
Proof.
  unfold move_assign_at.
  destruct (live b s) as [x|]; [|intros [= <- <- <-]; apply block_extends_refl].
  destruct (live b d) as [y|]; [|intros [= <- <- <-]; apply block_extends_refl].
  destruct (move_assign y x w) as [w1 [[y' x'] ok]]. intros [= <- <- <-].
  eapply block_extends_trans; apply insert_extends.
Qed.

Lemma move_forward_n_extends w b first n d_first w' b' o :
  move_forward_n w b first n d_first = (w', b', o) -> block_extends b b'.
Proof.
  revert w b first d_first w' b' o.
  induction n as [|n IH]; intros w b first d_first w' b' o; simpl.
  - intros [= <- <- <-]. apply block_extends_refl.
  - destruct (move_assign_at w b first d_first) as [[w1 b1] o1] eqn:Hm.
    apply move_assign_at_extends in Hm.
    destruct o1; [|by intros [= <- <- <-]..].
    intros Hrec%IH. by eapply block_extends_trans.
Qed.

Lemma move_backward_n_extends w b first n d_last w' b' o :
  move_backward_n w b first n d_last = (w', b', o) -> block_extends b b'.
Proof.
  revert w b d_last w' b' o.
  induction n as [|n IH]; intros w b d_last w' b' o; simpl.
  - intros [= <- <- <-]. apply block_extends_refl.
  - destruct d_last as [|d']; [intros [= <- <- <-]; apply block_extends_refl|].
    destruct (move_assign_at w b (first + n) d') as [[w1 b1] o1] eqn:Hm.
    apply move_assign_at_extends in Hm.
    destruct o1; [|by intros [= <- <- <-]..].
    intros Hrec%IH. by eapply block_extends_trans.
Qed.

End Shapes.

(** ** Validity is kept *)

Section Validity.

Context {T W A : Type} `{E : ElementType T W A}.

Local Abbreviation block := (list (option T)).
Implicit Types (b src dst : block) (x y : T) (w : W).
Implicit Types (v : Vector T) (s : (W * Vector T)%type).

Lemma valid_alt v :
  valid v <->
  length (buffer_ (data_ v)) = capacity_ (data_ v) /\
  size_ v <= capacity_ (data_ v) /\
  (forall i, i < size_ v -> is_Some (live (buffer_ (data_ v)) i)) /\
  (N.of_nat (capacity_ (data_ v)) * sizeof_T < 2 ^ 63)%N.
Proof.
  unfold valid. split; intros (Hl & Hc & H & Hfit); split_and!; try done.
  - intros i Hi. rewrite Forall_lookup in H.
    destruct (lookup_lt_is_Some_2 (buffer_ (data_ v)) i) as [o Ho]; [lia|].
    unfold live. rewrite Ho. simpl. apply (H i). by rewrite lookup_take_lt.
  - apply Forall_lookup. intros i o Ho. apply lookup_take_Some in Ho as [Ho Hi].
    specialize (H i Hi). unfold live in H. by rewrite Ho in H.
Qed.

Lemma extends_refl v : extends v v.
Proof. split_and!; [done..|apply block_extends_refl]. Qed.

Lemma extends_trans v1 v2 v3 : extends v1 v2 -> extends v2 v3 -> extends v1 v3.
Proof.
  intros (Hc1 & Hs1 & Hb1) (Hc2 & Hs2 & Hb2).
  split_and!; [congruence..|by eapply block_extends_trans].
Qed.

Lemma valid_extends v v' : valid v -> extends v v' -> valid v'.
Proof.
  rewrite !valid_alt. intros (Hl & Hc & H & Hfit) (Hc' & Hs' & Hl' & H').
  split_and!; [congruence | lia | | by rewrite Hc']. intros i Hi. apply H', H. lia.
Qed.

Lemma extends_with_buffer v b :
  block_extends (buffer_ (data_ v)) b -> extends v (with_buffer v b).
Proof. intros Hb. unfold extends. simpl. by split_and!. Qed.

(** *** Steps that keep the vector *)

Lemma keeps_bind {B C} (m : @Mv T W B) (k : B -> @Mv T W C) :
  keeps m -> (forall a, keeps (k a)) -> keeps (bind m k).
Proof.
  intros Hm Hk s s' o Hrun. minv Hrun.
  - eapply extends_trans; [by eapply Hm | by eapply Hk].
  - by eapply Hm.
  - by eapply Hm.
Qed.

Lemma keeps_same {B} (m : @Mv T W B) :
  (forall s s' o, m s = (s', o) -> s' = s) -> keeps m.
Proof. intros Hm s s' o ->%Hm. apply extends_refl. Qed.

Lemma keeps_ret {B} (a : B) : keeps (ret a : @Mv T W B).
Proof. apply keeps_same. by intros s s' o [= <- _]. Qed.

Lemma keeps_throw {B} : keeps (throw : @Mv T W B).
Proof. apply keeps_same. by intros s s' o [= <- _]. Qed.

Lemma keeps_fault {B} : keeps (fault : @Mv T W B).
Proof. apply keeps_same. by intros s s' o [= <- _]. Qed.

Lemma keeps_this : keeps (this : @Mv T W _).
Proof. apply keeps_same. by intros s s' o [= <- _]. Qed.

Lemma keeps_of_outcome {B} (r : outcome B) : keeps (of_outcome r : @Mv T W B).
Proof. apply keeps_same. by intros s s' o [= <- _]. Qed.

Lemma keeps_assert c : keeps (assert c : @Mv T W unit).
Proof. apply keeps_same. intros s s' o. by destruct c; intros [= <- _]. Qed.

Lemma keeps_data_plus k : keeps (data_plus k : @Mv T W nat).
Proof. apply keeps_bind; [apply keeps_this | intros; apply keeps_of_outcome]. Qed.

Lemma keeps_data_index k : keeps (data_index k : @Mv T W nat).
Proof. apply keeps_bind; [apply keeps_this | intros; apply keeps_of_outcome]. Qed.

Lemma keeps_end : keeps (end_ : @Mv T W nat).
Proof. apply keeps_bind; [apply keeps_this | intros; apply keeps_data_plus]. Qed.

Lemma keeps_object_at i : keeps (object_at i : @Mv T W T).
Proof.
  apply keeps_bind; [apply keeps_this|]. intros v.
  destruct (live _ i); [apply keeps_ret | apply keeps_fault].
Qed.

Lemma keeps_in_world {B} (f : W -> W * outcome B) : keeps (in_world f : @Mv T W B).
Proof. intros s s' o (w1 & _ & ->)%in_world_inv. apply extends_refl. Qed.

Lemma keeps_store_at i x : keeps (store_at i x : @Mv T W unit).
Proof.
  intros s s' o Hrun. apply store_at_inv in Hrun. destruct o as [[]| |].
  - destruct Hrun as [_ ->]. simpl. apply extends_with_buffer, insert_extends.
  - done.
  - destruct Hrun as [-> _]. apply extends_refl.
Qed.

Lemma keeps_on_data f :
  (forall w b w' b' o, f w b = (w', b', o) -> block_extends b b') -> keeps (on_data f).
Proof.
  intros Hf s s' o (w1 & b1 & Hrun & ->)%on_data_inv. simpl.
  apply extends_with_buffer. by eapply Hf.
Qed.

Lemma keeps_construct a : keeps (construct a).
Proof.
  destruct a as [a|[x|j]|[x|j]]; simpl; try apply keeps_in_world.
  - apply keeps_bind; [apply keeps_object_at | intros; apply keeps_in_world].
  - apply keeps_bind; [apply keeps_object_at | intros x].
    apply keeps_bind; [apply keeps_in_world | intros r].
    apply keeps_bind; [apply keeps_store_at | intros _].
    destruct (snd r); [apply keeps_ret | apply keeps_throw].
Qed.

Lemma keeps_move_construct_at (i j : nat) : keeps (move_construct_at i j).
Proof.
  apply keeps_bind; [apply keeps_object_at | intros x].
  apply keeps_bind; [apply keeps_in_world | intros r].
  apply keeps_bind; [apply keeps_store_at | intros _].
  destruct (snd r); [apply keeps_store_at | apply keeps_throw].
Qed.

Lemma keeps_move_assign_from (i : nat) x : keeps (move_assign_from i x).
Proof.
  apply keeps_bind; [apply keeps_object_at | intros y].
  apply keeps_bind; [apply keeps_in_world | intros r].
  apply keeps_bind; [apply keeps_store_at | intros _].
  destruct (snd r); [apply keeps_ret | apply keeps_throw].
Qed.

Lemma keeps_std_move_backward first last d_last :
  keeps (on_data (fun w blk => std_move_backward w blk first last d_last)).
Proof.
  apply keeps_on_data. intros w b w' b' o. unfold std_move_backward.
  case_bool_decide; [apply move_backward_n_extends|].
  intros [= <- <- <-]. apply block_extends_refl.
Qed.

Lemma keeps_std_move first last d_first :
  keeps (on_data (fun w blk => std_move w blk first last d_first)).
Proof.
  apply keeps_on_data. intros w b w' b' o. unfold std_move.
  case_bool_decide; [apply move_forward_n_extends|].
  intros [= <- <- <-]. apply block_extends_refl.
Qed.

(** A transfer keeps the vector and, when it returns, has filled the new
    block. *)
Lemma ReinicializationDataIn_range_shape first last new_buffer result s s' o :
  ReinicializationDataIn_range first last new_buffer result s = (s', o) ->
  extends (snd s) (snd s') /\
  forall b', o = Done b' -> filled result (last - first) new_buffer b'.
Proof.
  unfold ReinicializationDataIn_range, std_uninitialized_move, std_uninitialized_copy.
  destruct transfer_by_move.
  - case_bool_decide.
    + destruct (uninitialized_move_n _ _ _ _ _ _) as [[[w1 src1] dst1] o1] eqn:Hm.
      intros [= <- <-]. simpl. split.
      * apply extends_with_buffer. by eapply uninitialized_move_n_extends.
      * intros b'. destruct o1 as [[]| |]; [|done..]. intros [= <-].
        by eapply uninitialized_move_n_filled.
    + intros [= <- <-]. simpl. split; [|done].
      rewrite with_buffer_id. apply extends_refl.
  - case_bool_decide.
    + destruct (uninitialized_copy_n _ _ _ _ _ _) as [[w1 dst1] o1] eqn:Hm.
      intros [= <- <-]. simpl. split; [apply extends_refl|].
      intros b'. destruct o1 as [[]| |]; [|done..]. intros [= <-].
      by eapply uninitialized_copy_n_filled.
    + intros [= <- <-]. simpl. split; [apply extends_refl | done].
Qed.

Lemma keeps_ReinicializationDataIn_range first last new_buffer result :
  keeps (ReinicializationDataIn_range first last new_buffer result
           : @Mv T W (list (option T))).
Proof. intros s s' o Hrun. by apply ReinicializationDataIn_range_shape in Hrun as [? _]. Qed.

(** One step of a method that keeps the vector. *)
Lemma keeps_step {B C} (m : @Mv T W B) (k : B -> @Mv T W C) s s' o v0 :
  bind m k s = (s', o) -> keeps m -> extends v0 (snd s) ->
  (exists s1 a, m s = (s1, Done a) /\ extends v0 (snd s1) /\ k a s1 = (s', o)) \/
  (extends v0 (snd s') /\ (o = Thrown \/ o = Fault)).
Proof.
  intros Hrun Hm Hext. minv Hrun.
  - left. exists s0, a. split_and!; [done| |done].
    eapply extends_trans; [done | by eapply Hm].
  - right. split; [|by left]. eapply extends_trans; [done | by eapply Hm].
  - right. split; [|by right]. eapply extends_trans; [done | by eapply Hm].
Qed.

Lemma valid_incr v :
  valid v -> size_ v < capacity_ (data_ v) ->
  is_Some (live (buffer_ (data_ v)) (size_ v)) ->
  valid (with_size v (size_ v + 1)).
Proof.
  rewrite !valid_alt. intros (Hl & Hc & H & Hfit) Hlt Hlive. simpl.
  split_and!; [done | lia | | done]. intros i Hi.
  destruct (decide (i = size_ v)) as [->|Hne]; [done|]. apply H. lia.
Qed.

Lemma move_construct_at_live (i j : nat) s s' :
  move_construct_at i j s = (s', Done tt) ->
  is_Some (live (buffer_ (data_ (snd s'))) i).
Proof.
  unfold move_construct_at. intros Hrun.
  minv Hrun. minv Hrun. minv Hrun.
  destruct (snd a0) as [y|]; [|done].
  apply store_at_inv in Hrun as [Hlt ->]. simpl.
  rewrite live_insert_eq by done. by eexists.
Qed.

(** The block of [RawMemory(n)] has the slots of the bytes asked for,
    which are [n] when the product has not wrapped. *)
Lemma RawMemory_sized_inv n w w1 (m : RawMemory T) :
  RawMemory_sized n w = (w1, Done m) ->
  capacity_ m = n /\ length (buffer_ m) = alloc_slots n /\
  (N.of_nat (alloc_slots n) * sizeof_T < 2 ^ 63)%N.
Proof.
  unfold RawMemory_sized. destruct (Allocate n w) as [w2 [b| |]] eqn:Hb; [|done..].
  intros [= <- <-]. simpl. apply Allocate_inv in Hb. by destruct Hb.
Qed.

End Validity.

Create HintDb keeps.
#[global] Hint Resolve keeps_this keeps_end keeps_data_plus keeps_data_index keeps_assert
  keeps_of_outcome keeps_in_world keeps_object_at keeps_store_at keeps_construct
  keeps_move_construct_at keeps_move_assign_from keeps_std_move_backward keeps_std_move
  keeps_ReinicializationDataIn_range keeps_ret : keeps.

(** A step that keeps the vector, in a run whose state so far extends
    the vector [v0] ([Hext]). *)
Ltac kstep H Hext :=
  let s1 := fresh "s" in
  let a := fresh "a" in
  let Hs := fresh "Hstep" in
  let Hx := fresh "Hext" in
  let Ho := fresh "Hend" in
  let Hk := fresh "Hkeeps" in
  let Hnew := fresh "Hrun" in
  match type of H with
  | bind ?m _ _ = _ =>
      assert (keeps m) as Hk by (solve [eauto with keeps]);
      pose proof (keeps_step _ _ _ _ _ _ H Hk Hext)
        as [(s1 & a & Hs & Hx & Hnew) | [Hx Ho]];
      clear H Hk Hext; rename Hx into Hext; [rename Hnew into H|]
  end.

Section Preservation.

Context {T W A : Type} `{E : ElementType T W A}.

Local Abbreviation block := (list (option T)).
Implicit Types (b src dst : block) (x y : T) (w : W).
Implicit Types (v : Vector T) (s : (W * Vector T)%type).

Lemma emplaced_failed v pos v' (o : outcome nat) :
  valid v -> extends v v' -> o = Thrown \/ o = Fault -> o ≠ Fault -> emplaced v pos v' o.
Proof.
  intros Hv Hext [->| ->] Ho; [|done].
  split; [by eapply valid_extends|]. unfold Capacity. by destruct Hext as (-> & -> & _).
Qed.

Lemma Emplace_at_end_shape v w a s' o :
  valid v -> size_ v < Capacity v ->
  Emplace (size_ v) a (w, v) = (s', o) -> o ≠ Fault ->
  emplaced v (size_ v) (snd s') o.
Proof.
  intros Hv Hc. rewrite Emplace_at_end by done. intros Hrun Ho.
  pose proof (extends_refl v) as Hext.
  kstep Hrun Hext; [|by apply emplaced_failed].
  pose proof (valid_extends _ _ Hv Hext) as Hv1.
  destruct Hext as (Hc1 & Hs1 & Hb1).
  minv Hrun; [|by apply store_at_inv in Hrun|done].
  apply store_at_inv in Hstep0 as [Hlt ->].
  minv Hrun; [|by apply incr_size_inv in Hrun as [_ ?]..].
  apply incr_size_inv in Hstep0 as [-> _]. simpl in *.
  apply data_plus_inv in Hrun as [-> Hres]. simpl in *.
  destruct o as [it| |]; [|done..]. destruct Hres as [-> _].
  unfold emplaced. simpl. split.
  - apply (valid_incr (with_buffer (snd s) (<[size_ v := Some a0]> (buffer_ (data_ (snd s)))))).
    + eapply valid_extends; [done|]. apply extends_with_buffer, insert_extends.
    + simpl. unfold Capacity in Hc. lia.
    + simpl. rewrite Hs1, live_insert_eq by done. by eexists.
  - unfold capacity_after. rewrite bool_decide_eq_true_2 by done.
    unfold Capacity in *. simpl. split_and!; [done | lia | done].
Qed.

Lemma emplaced_extends v v1 pos v' o :
  extends v v1 -> emplaced v1 pos v' o -> emplaced v pos v' o.
Proof.
  intros (Hc & Hs & _). unfold emplaced, Capacity. by rewrite Hc, Hs.
Qed.

(** The end of an insertion into spare capacity: the vector already has
    an object in the slot behind its last element. *)
Lemma Emplace_inside_tail v w pos x (m : Mv unit) s' o :
  valid v -> size_ v < Capacity v -> is_Some (live (buffer_ (data_ v)) (size_ v)) ->
  keeps m ->
  (m;;; i <- data_index pos;; move_assign_from i x;;; incr_size;;; data_plus pos) (w, v)
    = (s', o) ->
  o ≠ Fault -> emplaced v pos (snd s') o.
Proof.
  intros Hv Hc Hlive Hm Hrun Ho.
  pose proof (extends_refl v) as Hext.
  kstep Hrun Hext; [|by apply emplaced_failed].
  kstep Hrun Hext; [|by apply emplaced_failed].
  apply data_index_inv in Hstep0 as [-> [-> Hin]].
  kstep Hrun Hext; [|by apply emplaced_failed].
  minv Hrun; [|by apply incr_size_inv in Hrun as [_ ?]..].
  apply incr_size_inv in Hstep1 as [-> _].
  apply data_plus_inv in Hrun as [-> Hres]. simpl in *.
  destruct o as [it| |]; [|done..]. destruct Hres as [-> _].
  pose proof (valid_extends _ _ Hv Hext) as Hv1.
  destruct Hext as (Hc1 & Hs1 & _ & Hb1).
  unfold emplaced. simpl. split.
  - apply valid_incr; [done | unfold Capacity in Hc; lia |].
    rewrite Hs1. by apply Hb1.
  - unfold capacity_after. rewrite bool_decide_eq_true_2 by done.
    unfold Capacity in *. simpl. split_and!; [done | lia | done].
Qed.

Lemma Emplace_inside_shape v w pos a s' o :
  valid v -> size_ v < Capacity v -> pos < size_ v ->
  Emplace pos a (w, v) = (s', o) -> o ≠ Fault ->
  emplaced v pos (snd s') o.
Proof.
  intros Hv Hc Hpos. rewrite Emplace_inside by done. intros Hrun Ho.
  pose proof (extends_refl v) as Hext.
  kstep Hrun Hext; [|by apply emplaced_failed]. clear Hstep.
  kstep Hrun Hext; [|by apply emplaced_failed]. clear Hstep.
  kstep Hrun Hext; [|by apply emplaced_failed]. clear Hstep.
  kstep Hrun Hext; [|by apply emplaced_failed].
  apply end_inv in Hstep as [-> [-> _]].
  assert (size_ (snd s1) = size_ v) as Hs1 by (by destruct Hext as (_ & ? & _)).
  rewrite Hs1 in Hrun.
  kstep Hrun Hext; [|by apply emplaced_failed].
  destruct a3. apply move_construct_at_live in Hstep.
  pose proof (valid_extends _ _ Hv Hext) as Hv2.
  eapply emplaced_extends; [exact Hext|].
  destruct s2 as [w2 v2]. simpl in *.
  assert (size_ v2 = size_ v) as Hs2 by (by destruct Hext as (_ & ? & _)).
  rewrite <- Hs2 in *.
  eapply (Emplace_inside_tail v2 w2 pos a0); [done | | done | | done | done].
  - unfold Capacity in *. by destruct Hext as (-> & _ & _).
  - apply keeps_std_move_backward.
Qed.

Lemma Emplace_full_shape v w pos a s' o :
  valid v -> size_ v = Capacity v -> pos <= size_ v ->
  Emplace pos a (w, v) = (s', o) -> o ≠ Fault ->
  emplaced v pos (snd s') o.
Proof.
  intros Hv Hc Hpos. rewrite Emplace_full by done. intros Hrun Ho.
  pose proof (valid_twice v Hv) as Hw. rewrite <- Hc in Hw.
  destruct (grown_room _ Hw) as [Hg _]. rewrite Hg in Hrun.
  pose proof (grown_representable v Hv Hc) as Hrep.
  set (n := grown (size_ v)) in *.
  pose proof (extends_refl v) as Hext.
  kstep Hrun Hext; [|by apply emplaced_failed].
  apply in_world_inv in Hstep as (w1 & Hnew & ->).
  apply RawMemory_sized_inv in Hnew as (Hcap & Hlen & Hfit).
  rewrite alloc_slots_representable in Hlen, Hfit by done.
  kstep Hrun Hext; [|by apply emplaced_failed].
  apply of_outcome_inv in Hstep as [-> Hplus]. unfold RawMemory_plus in Hplus.
  case_bool_decide as Hle; [|done]. injection Hplus as ->.
  kstep Hrun Hext; [|by apply emplaced_failed]. clear Hstep.
  kstep Hrun Hext; [|by apply emplaced_failed].
  apply assert_inv in Hstep as [-> Hin]. apply in_block_true in Hin.
  kstep Hrun Hext; [|by apply emplaced_failed].
  apply ReinicializationDataIn_range_shape in Hstep as [_ Hfront].
  specialize (Hfront _ eq_refl). rewrite Nat.sub_0_r in Hfront.
  kstep Hrun Hext; [|by apply emplaced_failed].
  apply end_inv in Hstep as [-> [-> _]].
  pose proof Hext as (_ & Hsize & _). rewrite Hsize in Hrun. clear Hsize.
  kstep Hrun Hext; [|by apply emplaced_failed].
  apply of_outcome_inv in Hstep as [-> Hplus]. unfold RawMemory_plus in Hplus.
  rewrite bool_decide_eq_true_2 in Hplus by done. injection Hplus as ->.
  kstep Hrun Hext; [|by apply emplaced_failed].
  apply ReinicializationDataIn_range_shape in Hstep as [_ Hback].
  specialize (Hback _ eq_refl).
  kstep Hrun Hext; [|by apply emplaced_failed].
  apply this_inv in Hstep as [-> [= ->]].
  pose proof Hext as (_ & Hsize & _).
  minv Hrun; [|by apply destroy_data_inv in Hrun|done].
  apply destroy_data_inv in Hstep as (b1 & _ & ->).
  minv Hrun; [|by apply adopt_inv in Hrun as [_ ?]..].
  apply adopt_inv in Hstep as [-> _].
  minv Hrun; [|by apply incr_size_inv in Hrun as [_ ?]..].
  apply incr_size_inv in Hstep as [-> _].
  apply data_plus_inv in Hrun as [-> Hres]. simpl in *.
  destruct o as [it| |]; [|done..]. destruct Hres as [-> _].
  rewrite Hsize. clear Hext Hsize.
  destruct Hfront as (Hl1 & Hout1 & Hin1). destruct Hback as (Hl2 & Hout2 & Hin2).
  rewrite length_insert in Hl1.
  match goal with |- emplaced _ _ (with_size {| data_ := {| buffer_ := ?b |} |} _) _ =>
    set (new_block := b) in * end.
  assert (forall i, i < size_ v + 1 -> is_Some (live new_block i)) as Hlive.
  { intros i Hi. destruct (decide (i < pos)) as [Hlt|Hge].
    - unfold live. rewrite Hout2 by lia. apply Hin1. lia.
    - destruct (decide (i = pos)) as [->|Hne].
      + unfold live. rewrite Hout2, Hout1 by lia.
        rewrite list_lookup_insert_eq by done. by eexists.
      + apply Hin2. lia. }
  unfold emplaced. simpl. split.
  - apply valid_alt. simpl. split_and!; [congruence| |done|by rewrite Hcap].
    destruct (Hlive (size_ v)) as [z Hz]; [lia|]. apply live_lt in Hz. lia.
  - unfold capacity_after. rewrite bool_decide_eq_false_2 by lia.
    unfold Capacity. simpl. split_and!; [done | lia | by rewrite Hg].
Qed.

(** Whatever the position and the argument, an insertion that did not
    fail has left a valid vector. *)
Lemma Emplace_shape v w pos a s' o :
  valid v -> Emplace pos a (w, v) = (s', o) -> o ≠ Fault -> emplaced v pos (snd s') o.
Proof.
  intros Hv Hrun Ho. pose proof (valid_size_le v Hv) as Hc.
  destruct (decide (pos <= size_ v)) as [Hpos|Hpos].
  - destruct (decide (size_ v < Capacity v)) as [Hlt|Hge].
    + destruct (decide (pos = size_ v)) as [->|Hne].
      * by eapply Emplace_at_end_shape.
      * eapply Emplace_inside_shape; [done | done | lia | done | done].
    + eapply Emplace_full_shape; [done | lia | done..].
  - exfalso. unfold Emplace in Hrun.
    erewrite bind_Done in Hrun by reflexivity.
    erewrite bind_Done in Hrun by (by apply end_run).
    unfold bind at 1 in Hrun.
    rewrite (proj2 (andb_false_iff _ _)) in Hrun.
    + simpl in Hrun. by injection Hrun as <- <-.
    + right. apply bool_decide_eq_false_2. lia.
Qed.

(** ** Appending *)

Lemma EmplaceBack_Emplace v w a :
  size_ v <= Capacity v -> EmplaceBack a (w, v) = Emplace (size_ v) a (w, v).
Proof.
  intros Hc. unfold EmplaceBack.
  erewrite bind_Done by reflexivity.
  by erewrite bind_Done by (by apply data_plus_run).
Qed.

Lemma PushBack_EmplaceBack a s :
  PushBack a s =
    (fst (EmplaceBack a s),
     match snd (EmplaceBack a s) with
     | Done _ => Done tt
     | Thrown => Thrown
     | Fault => Fault
     end).
Proof.
  unfold PushBack, bind, ret. by destruct (EmplaceBack a s) as [s1 [i| |]].
Qed.

Lemma PushBack_shape v w a s' o :
  valid v -> PushBack a (w, v) = (s', o) -> o ≠ Fault ->
  valid (snd s') /\
  (o = Done tt -> size_ (snd s') = S (size_ v) /\
                  Capacity (snd s') = capacity_after (size_ v) (Capacity v)).
Proof.
  intros Hv. rewrite PushBack_EmplaceBack, EmplaceBack_Emplace by (by apply valid_size_le).
  destruct (Emplace (size_ v) a (w, v)) as [s1 o1] eqn:Hrun. simpl.
  intros [= <- <-] Ho.
  destruct (Emplace_shape v w _ a s1 o1 Hv Hrun) as [Hv' Hres].
  { by destruct o1. }
  split; [done|]. destruct o1; [|done..]. intros _. by destruct Hres as (_ & ? & ?).
Qed.

Lemma push_all_shape values : forall v w s',
  valid v -> push_all values (w, v) = (s', Done tt) ->
  size_ (snd s') = size_ v + length values /\
  Capacity (snd s') = capacity_after_pushes (size_ v) (Capacity v) (length values).
Proof.
  induction values as [|a values IH]; intros v w s' Hv; simpl.
  - intros [= <-]. simpl. split; [lia | done].
  - intros Hrun. minv Hrun. destruct s as [w1 v1]. destruct a0.
    destruct (PushBack_shape v w a _ _ Hv Hstep) as (Hv1 & Hres); [done|].
    destruct (Hres eq_refl) as [Hs1 Hc1]. simpl in *.
    destruct (IH v1 w1 s' Hv1 Hrun) as [Hs Hc].
    rewrite Hs, Hc, Hs1, Hc1. split; [lia | done].
Qed.

(** The capacities doubling from nothing are the powers of two. *)
Lemma capacity_after_pow2 n c :
  (N.of_nat n < 2 ^ 63)%N ->
  (n = 0 /\ c = 0) \/ (0 < n /\ c = 2 ^ Nat.log2_up n) ->
  capacity_after n c = 2 ^ Nat.log2_up (S n).
Proof.
  intros Hn [[-> ->] | [Hpos ->]]; [done|].
  unfold capacity_after.
  destruct (decide (n = 1)) as [->|Hne]; [done|].
  pose proof (Nat.log2_up_spec n ltac:(lia)) as [Hlo Hhi].
  assert (0 < Nat.log2_up n) as Hk by (apply Nat.log2_up_pos; lia).
  case_bool_decide as Hlt.
  - symmetry. f_equal. apply Nat.log2_up_unique; [done|]. lia.
  - rewrite bool_decide_eq_false_2 by lia.
    rewrite size_t_mul_small by lia.
    assert (n = 2 ^ Nat.log2_up n) as Heq by lia.
    replace (n * 2) with (2 ^ S (Nat.log2_up n)) by (rewrite Nat.pow_succ_r'; lia).
    symmetry. f_equal. apply Nat.log2_up_unique; [lia|]. simpl Nat.pred.
    rewrite Nat.pow_succ_r'. lia.
Qed.

Lemma capacity_after_pushes_pow2 k : forall n c,
  (N.of_nat (n + k) <= 2 ^ 63)%N ->
  (n = 0 /\ c = 0) \/ (0 < n /\ c = 2 ^ Nat.log2_up n) ->
  capacity_after_pushes n c k =
    if bool_decide (n + k = 0) then 0 else 2 ^ Nat.log2_up (n + k).
Proof.
  induction k as [|k IH]; intros n c Hn Hc; simpl.
  - rewrite Nat.add_0_r. destruct Hc as [[-> ->] | [Hpos ->]]; [done|].
    by rewrite bool_decide_eq_false_2 by lia.
  - rewrite IH.
    + replace (S n + k) with (n + S k) by lia. done.
    + lia.
    + right. split; [lia|]. apply capacity_after_pow2; [lia | done].
Qed.

Lemma valid_default : valid (Vector_default : Vector T).
Proof. split_and!; simpl; [done | lia | constructor | reflexivity]. Qed.

Lemma Insert_copy_inv pos value s s' o :
  Insert_copy pos value s = (s', o) -> o ≠ Fault -> Emplace pos (Lvalue value) s = (s', o).
Proof.
  unfold Insert_copy. intros Hrun Ho.
  minv Hrun; [|by apply begin_inv in Hrun as [_ ?]|done]. apply begin_inv in Hstep as [-> _].
  minv Hrun; [|by apply end_inv in Hrun as [_ ?]|done]. apply end_inv in Hstep as [-> _].
  minv Hrun; [|by apply assert_inv in Hrun as [_ ?]|done]. by apply assert_inv in Hstep as [-> _].
Qed.

Lemma Insert_move_inv pos value s s' o :
  Insert_move pos value s = (s', o) -> o ≠ Fault -> Emplace pos (Rvalue value) s = (s', o).
Proof.
  unfold Insert_move. intros Hrun Ho.
  minv Hrun; [|by apply begin_inv in Hrun as [_ ?]|done]. apply begin_inv in Hstep as [-> _].
  minv Hrun; [|by apply end_inv in Hrun as [_ ?]|done]. apply end_inv in Hstep as [-> _].
  minv Hrun; [|by apply assert_inv in Hrun as [_ ?]|done]. by apply assert_inv in Hstep as [-> _].
Qed.

Lemma capacity_after_full n :
  (N.of_nat n * 2 < 2 ^ 64)%N -> capacity_after n n = grown n.
Proof.
  intros Hw. unfold capacity_after. rewrite bool_decide_eq_false_2 by lia.
  by apply grown_room.
Qed.

(** C3.  An insertion (by [Emplace], [EmplaceBack], [PushBack] or
    [Insert]) into a valid vector without spare capacity that returns
    leaves it with capacity [max(1, 2 * capacity)]; and [N] appends to an
    empty vector, when they all return, leave the capacity at [0] for
    [N = 0] and at the least power of two that is at least [N]
    otherwise: 0, 1, 2, 4, 4, 8, 8, 8, 8, 16, ...  Sizes stay where
    [2 * size] does not overflow [size_t]. *)
Theorem growth_policy w :
  (forall v pos a value s',
     valid v -> size_ v = Capacity v -> (N.of_nat (size_ v) * 2 < 2 ^ 64)%N ->
     (exists i, Emplace pos a (w, v) = (s', Done i)) \/
     (exists i, EmplaceBack a (w, v) = (s', Done i)) \/
     PushBack a (w, v) = (s', Done tt) \/
     (exists i, Insert_copy pos value (w, v) = (s', Done i)) \/
     (exists i, Insert_move pos value (w, v) = (s', Done i)) ->
     Capacity (snd s') = grown (Capacity v)) /\
  (forall values s',
     (N.of_nat (length values) <= 2 ^ 63)%N ->
     push_all values (w, Vector_default) = (s', Done tt) ->
     size_ (snd s') = length values /\
     Capacity (snd s') =
       if bool_decide (length values = 0) then 0 else 2 ^ Nat.log2_up (length values)).
Proof.
  split.
  - intros v pos a value s' Hv Hfull Hw Hrun.
    assert (forall pos a i, Emplace pos a (w, v) = (s', Done i) ->
            Capacity (snd s') = grown (Capacity v)) as Hem.
    { intros pos' a' i Hi.
      destruct (Emplace_shape v w pos' a' s' (Done i) Hv Hi) as (_ & _ & _ & ->); [done|].
      rewrite <- Hfull. by apply capacity_after_full. }
    pose proof (valid_size_le v Hv) as Hc.
    destruct Hrun as [[i Hi] | [[i Hi] | [Hi | [[i Hi] | [i Hi]]]]].
    + by eapply Hem.
    + rewrite EmplaceBack_Emplace in Hi by done. by eapply Hem.
    + rewrite PushBack_EmplaceBack, EmplaceBack_Emplace in Hi by done.
      destruct (Emplace (size_ v) a (w, v)) as [s1 [i| |]] eqn:Hrun; [|done..].
      simpl in Hi. injection Hi as <-. by eapply Hem.
    + apply Insert_copy_inv in Hi; [|done]. by eapply Hem.
    + apply Insert_move_inv in Hi; [|done]. by eapply Hem.
  - intros values s' Hn Hrun.
    destruct (push_all_shape values _ w s' valid_default Hrun) as [Hs Hc].
    simpl in *. split; [done|]. rewrite Hc.
    rewrite capacity_after_pushes_pow2; [done | simpl; lia | by left].
Qed.

(** C6, as amended.  On a valid vector [EmplaceBack] is [Emplace] at the
    end position and [PushBack] is the same call with its result
    dropped.  When [EmplaceBack] returns, its reference is to the slot
    of the old size, now the last element; as a call it returns that
    reference, and [PushBack] returns nothing. *)
Theorem back_insertion v w a :
  valid v ->
  EmplaceBack a (w, v) = Emplace (size_ v) a (w, v) /\
  PushBack a (w, v) =
    (fst (Emplace (size_ v) a (w, v)),
     match snd (Emplace (size_ v) a (w, v)) with
     | Done _ => Done tt
     | Thrown => Thrown
     | Fault => Fault
     end) /\
  (forall s' i, EmplaceBack a (w, v) = (s', Done i) ->
     i = size_ v /\ size_ (snd s') = S i /\
     is_Some (live (buffer_ (data_ (snd s'))) i)) /\
  (forall st this_ (after : W * gmap nat (Vector T)) r, st !! this_ = Some v ->
     (exec (CallEmplaceBack this_ a) (w, st) = (after, Done r) ->
      r = Reference (size_ v)) /\
     (exec (CallPushBack this_ a) (w, st) = (after, Done r) -> r = Void)).
Proof.
  intros Hv. pose proof (valid_size_le v Hv) as Hc.
  assert (forall s' i, EmplaceBack a (w, v) = (s', Done i) ->
          i = size_ v /\ size_ (snd s') = S i /\
          is_Some (live (buffer_ (data_ (snd s'))) i)) as Href.
  { intros s' i Hrun. rewrite EmplaceBack_Emplace in Hrun by done.
    destruct (Emplace_shape v w _ a s' (Done i) Hv Hrun) as (Hv' & -> & Hs & _); [done|].
    split_and!; [done..|]. apply valid_alt in Hv' as (_ & _ & Hlive & _). apply Hlive. lia. }
  split_and!.
  - by apply EmplaceBack_Emplace.
  - by rewrite PushBack_EmplaceBack, EmplaceBack_Emplace.
  - done.
  - intros st this_ after r Hthis. simpl. split.
    + intros Hrun. minv Hrun. apply ret_inv' in Hrun as [_ [= ->]].
      unfold at_ in Hstep. simpl in Hstep. rewrite Hthis in Hstep.
      destruct (EmplaceBack a (w, v)) as [[w1 v1] o1] eqn:Hback in Hstep.
      injection Hstep as <- ->. by destruct (Href _ _ Hback) as [-> _].
    + intros Hrun. minv Hrun. by apply ret_inv' in Hrun as [_ [= ->]].
Qed.

(** ** The other methods keep a vector valid *)

Lemma valid_shrink v b' n :
  valid v -> agree_below n (buffer_ (data_ v)) b' -> n <= size_ v ->
  valid (with_size (with_buffer v b') n).
Proof.
  rewrite !valid_alt. intros (Hl & Hc & H & Hfit) [Hl' Hsame] Hn. simpl.
  split_and!; [congruence | lia | | done]. intros i Hi.
  unfold live. rewrite Hsame by done. apply H. lia.
Qed.

Lemma valid_grow v b' k :
  valid v -> filled (size_ v) k (buffer_ (data_ v)) b' -> size_ v + k <= capacity_ (data_ v) ->
  valid (with_size (with_buffer v b') (size_ v + k)).
Proof.
  rewrite !valid_alt. intros (Hl & Hc & H & Hfit) (Hl' & Hout & Hin) Hk. simpl.
  split_and!; [congruence | done | | done]. intros i Hi.
  destruct (decide (i < size_ v)) as [Hlt|Hge].
  - unfold live. rewrite Hout by lia. by apply H.
  - apply Hin. lia.
Qed.

Lemma valid_agree v b' :
  valid v -> agree_below (size_ v) (buffer_ (data_ v)) b' -> valid (with_buffer v b').
Proof.
  intros Hv Hb. pose proof (valid_shrink v b' (size_ v) Hv Hb (Nat.le_refl _)) as H.
  by destruct v.
Qed.

Lemma PopBack_shape v w s' o :
  valid v -> PopBack (w, v) = (s', o) -> o ≠ Fault ->
  valid (snd s') /\ Capacity (snd s') = Capacity v /\ size_ (snd s') = size_ v - 1.
Proof.
  intros Hv Hrun Ho. unfold PopBack in Hrun.
  rewrite bind_this in Hrun. simpl in Hrun.
  minv Hrun; [|by apply assert_inv in Hrun as [_ ?]|done].
  apply assert_inv in Hstep as [-> Hne].
  minv Hrun; [|by apply data_plus_inv in Hrun as [_ ?]|done].
  apply data_plus_inv in Hstep as [-> [-> _]].
  minv Hrun; [|by apply destroy_data_inv in Hrun|done].
  apply destroy_data_inv in Hstep as (b1 & Hd & ->).
  apply destroy_n_below in Hd.
  rewrite bind_this in Hrun.
  apply set_this_inv in Hrun as [-> _]. simpl in *.
  split_and!; [|done..].
  apply (valid_shrink v b1 (size_ v - 1)); [done..|lia].
Qed.

Lemma Erase_shape v w pos s' o :
  valid v -> Erase pos (w, v) = (s', o) -> o ≠ Fault -> valid (snd s').
Proof.
  intros Hv Hrun Ho. unfold Erase in Hrun.
  pose proof (extends_refl v) as Hext.
  assert (forall v' (o' : outcome nat), extends v v' -> o' = Thrown \/ o' = Fault -> o' ≠ Fault ->
          valid v') as Hfail.
  { intros v' o' Hx _ _. by eapply valid_extends. }
  kstep Hrun Hext; [|by eapply Hfail]. clear Hstep.
  kstep Hrun Hext; [|by eapply Hfail]. clear Hstep.
  kstep Hrun Hext; [|by eapply Hfail]. clear Hstep.
  kstep Hrun Hext; [|by eapply Hfail]. clear Hstep.
  kstep Hrun Hext; [|by eapply Hfail]. clear Hstep.
  pose proof (valid_extends _ _ Hv Hext) as Hv1. destruct s3 as [w3 v3].
  minv Hrun.
  - apply ret_inv in Hrun as [-> _].
    by eapply PopBack_shape in Hstep as [? _].
  - by eapply PopBack_shape in Hrun as [? _].
  - done.
Qed.

Lemma copy_each_length xs w ys : snd (copy_each xs w) = Some ys -> length ys = length xs.
Proof.
  revert w ys. induction xs as [|x xs IH]; intros w ys; simpl.
  - by intros [= <-].
  - destruct (copy_construct x w) as [w1 [y|]]; [|done].
    specialize (IH w1). destruct (copy_each xs w1) as [w2 [ys'|]]; [|done].
    simpl in *. intros [= <-]. simpl. f_equal. by apply IH.
Qed.

Lemma move_each_length xs w :
  length (fst (snd (move_each xs w))) = length xs /\
  forall ys, snd (snd (move_each xs w)) = Some ys -> length ys = length xs.
Proof.
  revert w. induction xs as [|x xs IH]; intros w; simpl.
  - split; [done|]. by intros ys [= <-].
  - destruct (move_construct x w) as [w1 [x' [y|]]]; [|done].
    specialize (IH w1). destruct (move_each xs w1) as [w2 [olds [ys'|]]]; simpl in *.
    + destruct IH as [Hl Hys]. split; [lia|]. intros ys [= <-]. simpl. f_equal. by apply Hys.
    + destruct IH as [Hl _]. split; [lia | done].
Qed.

Lemma ReinicializationDataIn_shape v w new_data s' o :
  valid v -> size_ v <= length (buffer_ new_data) ->
  length (buffer_ new_data) = capacity_ new_data ->
  (N.of_nat (capacity_ new_data) * sizeof_T < 2 ^ 63)%N ->
  ReinicializationDataIn new_data (w, v) = (s', o) ->
  o ≠ Fault /\ valid (snd s') /\ size_ (snd s') = size_ v /\
  (o = Done tt -> Capacity (snd s') = capacity_ new_data) /\
  (o ≠ Done tt -> Capacity (snd s') = Capacity v).
Proof.
  intros Hv Hroom Hcap Hfit. rewrite ReinicializationDataIn_each by done.
  pose proof (length_elements v Hv) as Hlen.
  pose proof Hv as (Hl & Hc & _ & Hfit0).
  assert (forall ys, length ys = size_ v ->
    valid {| data_ := {| buffer_ := write_at (buffer_ new_data) 0 ys;
                         capacity_ := capacity_ new_data |}; size_ := size_ v |}) as Hnew.
  { intros ys Hys. apply (valid_intro _ _ _ ys); [|lia| |done|done].
    - rewrite length_write_at; [done | simpl; lia].
    - apply holds_write_at. simpl. lia. }
  destruct (is_nothrow_move_constructible || negb is_copy_constructible).
  - pose proof (move_each_length (elements v) w) as [Holds Hys].
    destruct (move_each (elements v) w) as [w1 [olds [ys|]]]; simpl in *;
      intros [= <- <-]; simpl.
    + split_and!; [done | apply Hnew; rewrite <- Hlen; by apply Hys | done..].
    + split_and!; [done | | done..].
      apply (valid_intro _ _ _ olds); [|done| |lia|done].
      * rewrite length_write_at; [done | simpl; lia].
      * apply holds_write_at. simpl. lia.
  - pose proof (copy_each_length (elements v) w) as Hys.
    destruct (copy_each (elements v) w) as [w1 [ys|]]; simpl in *;
      intros [= <- <-]; simpl.
    + split_and!; [done | apply Hnew; rewrite <- Hlen; by apply Hys | done..].
    + by split_and!.
Qed.

Lemma Reserve_shape v w n s' o :
  valid v -> representable n -> Reserve n (w, v) = (s', o) ->
  o ≠ Fault /\ valid (snd s') /\ size_ (snd s') = size_ v /\
  (o = Done tt -> n <= Capacity (snd s')).
Proof.
  intros Hv Hn Hrun. pose proof Hv as (Hl & Hc & _).
  destruct (decide (n <= Capacity v)) as [Hle|Hgt].
  - rewrite Reserve_small in Hrun by done. injection Hrun as <- <-. by split_and!.
  - apply Reserve_grow in Hrun as (w1 & ok & Hnew & Hrun); [|lia].
    rewrite alloc_slots_representable in Hrun by done.
    destruct ok.
    + pose proof (operator_new_limit _ _ (f_equal snd Hnew)) as Hfit.
      rewrite alloc_bytes_representable in Hfit by done.
      apply ReinicializationDataIn_shape in Hrun as (? & ? & ? & Hd & _);
        [|done|simpl; rewrite length_replicate; unfold Capacity in *; lia
         |simpl; by rewrite length_replicate|done].
      split_and!; [done..|]. intros Ho. rewrite (Hd Ho). simpl. lia.
    + destruct Hrun as [-> ->]. by split_and!.
Qed.

Lemma Resize_shape v w n s' o :
  valid v -> representable n -> Resize n (w, v) = (s', o) -> o ≠ Fault -> valid (snd s').
Proof.
  intros Hv Hrep Hrun Ho. pose proof Hv as (Hl & Hc & _). unfold Resize in Hrun.
  rewrite bind_this in Hrun. simpl in Hrun.
  case_bool_decide as Hn.
  - (* shrinking *)
    rewrite bind_assoc in Hrun.
    minv Hrun; [|by apply data_plus_inv in Hrun as [_ ?]|done].
    apply data_plus_inv in Hstep as [-> [-> _]].
    minv Hrun; [|by apply destroy_data_inv in Hrun|done].
    apply destroy_data_inv in Hstep as (b1 & Hd & ->).
    apply destroy_n_below in Hd.
    rewrite bind_this in Hrun.
    apply set_this_inv in Hrun as [-> _]. simpl.
    by apply (valid_shrink v b1 n).
  - (* growing *)
    rewrite bind_assoc in Hrun.
    minv Hrun; [| by destruct (Reserve_shape v w n _ _ Hv Hrep Hrun) as (_ & ? & _) | done].
    destruct (Reserve_shape v w n _ _ Hv Hrep Hstep) as (_ & Hv1 & Hs1 & Hc1).
    destruct a. specialize (Hc1 eq_refl). destruct s as [w1 v1]. simpl in *.
    rewrite bind_assoc, bind_this in Hrun. simpl in Hrun.
    rewrite bind_assoc in Hrun.
    minv Hrun; [|by apply data_plus_inv in Hrun as [_ ?]|done].
    apply data_plus_inv in Hstep0 as [-> [-> _]].
    minv Hrun.
    + apply on_data_inv in Hstep0 as (w2 & b2 & Hfill & ->). destruct a.
      apply uninitialized_value_construct_n_filled in Hfill.
      rewrite bind_this in Hrun.
      apply set_this_inv in Hrun as [-> _]. simpl.
      simpl in Hfill.
      assert (size_ v1 + (n - size_ v1) <= capacity_ (data_ v1)) as Hk
        by (unfold Capacity in Hc1; lia).
      pose proof (valid_grow v1 b2 (n - size_ v1) Hv1 Hfill Hk) as Hg.
      by replace (size_ v1 + (n - size_ v1)) with n in Hg by lia.
    + apply on_data_inv in Hrun as (w2 & b2 & Hfill & ->). simpl.
      apply uninitialized_value_construct_n_below in Hfill.
      by apply valid_agree.
    + done.
Qed.

Lemma valid_filled b0 b cap n :
  filled 0 n b0 b -> length b0 = cap -> n <= cap ->
  (N.of_nat cap * sizeof_T < 2 ^ 63)%N ->
  valid {| data_ := {| buffer_ := b; capacity_ := cap |}; size_ := n |}.
Proof.
  intros (Hl & _ & Hin) Hcap Hn Hfit. apply valid_alt. simpl.
  split_and!; [congruence | done | | done]. intros i Hi. apply Hin. lia.
Qed.

(** Objects were put in [n] slots from [d] on: the block has them. *)
Lemma filled_room d n b b' : filled d n b b' -> 0 < n -> d + n <= length b.
Proof.
  intros (Hl & _ & Hin) Hn. destruct (Hin (d + n - 1)) as [x Hx]; [lia|].
  apply live_lt in Hx. lia.
Qed.

(** A block of [RawMemory(n)] in which [n] objects were made has [n]
    slots: the byte count had not wrapped. *)
Lemma RawMemory_sized_filled n w w1 (m : RawMemory T) b :
  RawMemory_sized n w = (w1, Done m) -> filled 0 n (buffer_ m) b ->
  capacity_ m = n /\ length (buffer_ m) = n /\ (N.of_nat n * sizeof_T < 2 ^ 63)%N.
Proof.
  intros Hm Hfill. apply RawMemory_sized_inv in Hm as (Hcap & Hlen & Hfit).
  pose proof (alloc_slots_le n) as Hle.
  assert (alloc_slots n = n) as Hn.
  { destruct (decide (n = 0)) as [->|Hpos]; [lia|].
    apply filled_room in Hfill; lia. }
  rewrite Hn in Hlen, Hfit. done.
Qed.

Lemma Vector_sized_valid n w w1 (v : Vector T) :
  Vector_sized n w = (w1, Done v) -> valid v.
Proof.
  unfold Vector_sized.
  destruct (RawMemory_sized n w) as [w2 [m| |]] eqn:Hm; [|done..].
  destruct (uninitialized_value_construct_n _ _ _ _) as [[w3 b] [[]| |]] eqn:Hfill;
    [|done..].
  intros [= <- <-]. apply uninitialized_value_construct_n_filled in Hfill.
  destruct (RawMemory_sized_filled _ _ _ _ _ Hm Hfill) as (Hcap & Hlen & Hfit).
  apply (valid_filled (buffer_ m)); [done | congruence | lia | by rewrite Hcap].
Qed.

Lemma Vector_copy_valid (other : Vector T) w w1 (v : Vector T) :
  Vector_copy other w = (w1, Done v) -> valid v.
Proof.
  unfold Vector_copy.
  destruct (RawMemory_sized (size_ other) w) as [w2 [m| |]] eqn:Hm; [|done..].
  destruct (uninitialized_copy_n _ _ _ _ _ _) as [[w3 b] [[]| |]] eqn:Hfill; [|done..].
  intros [= <- <-]. apply uninitialized_copy_n_filled in Hfill.
  destruct (RawMemory_sized_filled _ _ _ _ _ Hm Hfill) as (Hcap & Hlen & Hfit).
  apply (valid_filled (buffer_ m)); [done | congruence | lia | by rewrite Hcap].
Qed.

Lemma Swap_run v (other : Vector T) w : Swap other (w, v) = ((w, other), Done v).
Proof. by destruct v as [[] ?], other as [[] ?]. Qed.

Lemma assign_from_shape v (other : Vector T) w s' o :
  valid v -> assign_from other (w, v) = (s', o) -> o ≠ Fault -> valid (snd s').
Proof.
  intros Hv Hrun Ho. pose proof Hv as (Hl & Hc & _). unfold assign_from in Hrun.
  rewrite bind_this in Hrun. simpl in Hrun.
  case_bool_decide as Hbig.
  - (* a copy is made and swapped in *)
    minv Hrun.
    + apply in_world_inv in Hstep as (w1 & Hcopy & ->).
      apply Vector_copy_valid in Hcopy.
      rewrite (bind_Done _ _ _ _ _ (Swap_run _ _ _)) in Hrun.
      by apply of_outcome_inv in Hrun as [-> _].
    + by apply in_world_inv in Hrun as (w1 & _ & ->).
    + done.
  - (* the elements are assigned in place *)
    pose proof (extends_refl v) as Hext.
    assert (keeps (on_data (fun w blk =>
      copy_n w (buffer_ (data_ other)) 0 (size_ other `min` size_ v) blk 0))
      : Prop) as Hcopy.
    { apply keeps_on_data. intros. by eapply copy_n_extends. }
    pose proof (keeps_step _ _ _ _ _ _ Hrun Hcopy Hext)
      as [(s1 & [] & _ & Hext1 & Hrun1) | [Hext1 _]];
      [|by eapply valid_extends].
    clear Hrun Hcopy Hext. rename Hrun1 into Hrun.
    pose proof (valid_extends _ _ Hv Hext1) as Hv1.
    destruct Hext1 as (Hc1 & Hs1 & _). destruct s1 as [w1 v1]. simpl in *.
    case_bool_decide as Hless.
    + (* the tail is destroyed *)
      rewrite bind_assoc in Hrun.
      minv Hrun; [|by apply data_plus_inv in Hrun as [_ ?]|done].
      apply data_plus_inv in Hstep as [-> [-> _]].
      minv Hrun; [|by apply destroy_data_inv in Hrun|done].
      apply destroy_data_inv in Hstep as (b1 & Hd & ->).
      apply destroy_n_below in Hd.
      rewrite bind_this in Hrun.
      apply set_this_inv in Hrun as [-> _]. simpl.
      apply (valid_shrink v1 b1 (size_ other)); [done..|lia].
    + (* the tail is copy-constructed *)
      rewrite bind_assoc in Hrun.
      minv Hrun; [|by apply of_outcome_inv in Hrun as [-> _]|done].
      apply of_outcome_inv in Hstep as [-> _].
      rewrite bind_assoc in Hrun.
      minv Hrun; [|by apply data_plus_inv in Hrun as [_ ?]|done].
      apply data_plus_inv in Hstep as [-> [-> _]].
      minv Hrun.
      * apply on_data_inv in Hstep as (w2 & b2 & Hfill & ->). destruct a0.
        apply uninitialized_copy_n_filled in Hfill.
        rewrite bind_this in Hrun.
        apply set_this_inv in Hrun as [-> _]. simpl in *.
        rewrite <- Hs1 in Hfill.
        assert (size_ v1 + (size_ other - size_ v1) <= capacity_ (data_ v1)) as Hk
          by (unfold Capacity in Hbig; lia).
        pose proof (valid_grow v1 b2 _ Hv1 Hfill Hk) as Hg.
        by replace (size_ v1 + (size_ other - size_ v1)) with (size_ other) in Hg by lia.
      * apply on_data_inv in Hrun as (w2 & b2 & Hfill & ->). simpl in *.
        apply uninitialized_copy_n_below in Hfill.
        apply valid_agree; [done|]. by rewrite Hs1.
      * done.
Qed.

End Preservation.

(** ** The bounds of the size

    What the methods do to [size_] and [capacity_] does not depend on
    the block: these facts hold of every vector, also of one whose
    block is shorter than its [capacity_]. *)

(** A step that keeps the vector and whose result is not looked at. *)
Ltac kskip H Hext :=
  let s1 := fresh "s" in
  let a := fresh "a" in
  let Hs := fresh "Hstep" in
  let Hx := fresh "Hext" in
  let Ho := fresh "Hend" in
  let Hk := fresh "Hkeeps" in
  let Hnew := fresh "Hrun" in
  match type of H with
  | bind ?m _ _ = _ =>
      assert (keeps m) as Hk by (solve [eauto with keeps]);
      pose proof (keeps_step _ _ _ _ _ _ H Hk Hext)
        as [(s1 & a & Hs & Hx & Hnew) | [Hx Ho]];
      clear H Hk Hext; rename Hx into Hext; [rename Hnew into H; clear Hs|]
  end.

Section Bounds.

Context {T W A : Type} `{E : ElementType T W A}.

Local Abbreviation block := (list (option T)).
Implicit Types (b src dst : block) (x y : T) (w : W).
Implicit Types (v : Vector T) (s : (W * Vector T)%type).

Lemma valid_in_bounds v : valid v -> in_bounds v.
Proof. intros (_ & ? & _). unfold in_bounds, Capacity. lia. Qed.

Lemma extends_in_bounds v v' : extends v v' -> in_bounds v -> in_bounds v'.
Proof. intros (Hc & Hs & _). unfold in_bounds, Capacity. by rewrite Hc, Hs. Qed.

Lemma destroy_data_numbers p n s s' o :
  destroy_data p n s = (s', o) ->
  size_ (snd s') = size_ (snd s) /\ Capacity (snd s') = Capacity (snd s).
Proof.
  intros Hrun. apply destroy_data_inv in Hrun. destruct o as [[]| |]; [|done|].
  - by destruct Hrun as (b1 & _ & ->).
  - by destruct Hrun as [-> _].
Qed.

Lemma numbers_in_bounds v v' :
  size_ v' = size_ v /\ Capacity v' = Capacity v -> in_bounds v -> in_bounds v'.
Proof. intros [Hs Hc]. unfold in_bounds. by rewrite Hs, Hc. Qed.

Lemma incr_size_data_plus k s s' (o : outcome nat) :
  (incr_size;;; data_plus k) s = (s', o) ->
  snd s' = with_size (snd s) (size_ (snd s) + 1).
Proof.
  intros Hrun. minv Hrun; [|by apply incr_size_inv in Hrun as [_ ?]..].
  apply incr_size_inv in Hstep as [-> _]. by apply data_plus_inv in Hrun as [-> _].
Qed.

Lemma Emplace_at_end_bounds v w a s' o :
  size_ v < Capacity v -> Emplace (size_ v) a (w, v) = (s', o) -> in_bounds (snd s').
Proof.
  intros Hc. rewrite Emplace_at_end by done. intros Hrun.
  assert (in_bounds v) as Hb by (unfold in_bounds; lia).
  pose proof (extends_refl v) as Hext.
  kskip Hrun Hext; [|by eapply extends_in_bounds].
  kskip Hrun Hext; [|by eapply extends_in_bounds].
  apply incr_size_data_plus in Hrun as ->. destruct Hext as (Hc1 & Hs1 & _).
  unfold in_bounds, Capacity in *. simpl. lia.
Qed.

Lemma Emplace_inside_bounds v w pos a s' o :
  size_ v < Capacity v -> pos < size_ v ->
  Emplace pos a (w, v) = (s', o) -> in_bounds (snd s').
Proof.
  intros Hc Hpos. rewrite Emplace_inside by done. intros Hrun.
  assert (in_bounds v) as Hb by (unfold in_bounds; lia).
  pose proof (extends_refl v) as Hext.
  do 8 (kskip Hrun Hext; [|by eapply extends_in_bounds]).
  apply incr_size_data_plus in Hrun as ->. destruct Hext as (Hc1 & Hs1 & _).
  unfold in_bounds, Capacity in *. simpl. lia.
Qed.

(** The reallocating branch returns only when the element and the old
    ones have found their slots in the new block, which has at most
    [capacity_] of them. *)
Lemma Emplace_full_bounds v w pos a s' o :
  size_ v = Capacity v -> pos <= size_ v ->
  Emplace pos a (w, v) = (s', o) -> in_bounds (snd s').
Proof.
  intros Hc Hpos. rewrite Emplace_full by done. intros Hrun.
  set (n := if bool_decide (size_ v = 0) then 1 else size_t_mul (size_ v) 2) in *.
  assert (in_bounds v) as Hb by (unfold in_bounds; lia).
  pose proof (extends_refl v) as Hext.
  kstep Hrun Hext; [|by eapply extends_in_bounds].
  apply in_world_inv in Hstep as (w1 & Hnew & ->).
  apply RawMemory_sized_inv in Hnew as (Hcap & Hlen & _).
  pose proof (alloc_slots_le n) as Hslots.
  kstep Hrun Hext; [|by eapply extends_in_bounds].
  apply of_outcome_inv in Hstep as [-> Hplus]. unfold RawMemory_plus in Hplus.
  case_bool_decide as Hle; [|done]. injection Hplus as ->.
  kskip Hrun Hext; [|by eapply extends_in_bounds].
  kstep Hrun Hext; [|by eapply extends_in_bounds].
  apply assert_inv in Hstep as [-> Hin]. apply in_block_true in Hin.
  kstep Hrun Hext; [|by eapply extends_in_bounds].
  apply ReinicializationDataIn_range_shape in Hstep as [_ Hfront].
  destruct (Hfront _ eq_refl) as (Hl1 & _). rewrite length_insert in Hl1. clear Hfront.
  kstep Hrun Hext; [|by eapply extends_in_bounds].
  apply end_inv in Hstep as [-> [-> _]].
  pose proof Hext as (_ & Hsize & _). rewrite Hsize in Hrun.
  kstep Hrun Hext; [|by eapply extends_in_bounds].
  apply of_outcome_inv in Hstep as [-> Hplus]. unfold RawMemory_plus in Hplus.
  rewrite bool_decide_eq_true_2 in Hplus by done. injection Hplus as ->.
  kstep Hrun Hext; [|by eapply extends_in_bounds].
  apply ReinicializationDataIn_range_shape in Hstep as [_ Hback].
  specialize (Hback _ eq_refl).
  kskip Hrun Hext; [|by eapply extends_in_bounds].
  minv Hrun;
    [|apply destroy_data_numbers in Hrun;
      by eapply numbers_in_bounds, extends_in_bounds..].
  apply destroy_data_inv in Hstep as (b1 & _ & ->).
  minv Hrun; [|by apply adopt_inv in Hrun as [_ ?]..].
  apply adopt_inv in Hstep as [-> _].
  apply incr_size_data_plus in Hrun as ->. simpl.
  destruct Hext as (_ & Hs1 & _). rewrite Hs1.
  unfold in_bounds, Capacity. simpl. split; [lia|].
  destruct (decide (pos = size_ v)) as [->|Hne]; [lia|].
  apply filled_room in Hback; lia.
Qed.

Lemma Emplace_bounds v w pos a s' o :
  in_bounds v -> Emplace pos a (w, v) = (s', o) -> in_bounds (snd s').
Proof.
  intros Hb Hrun. pose proof Hb as [_ Hc].
  destruct (decide (pos <= size_ v)) as [Hpos|Hpos].
  - destruct (decide (size_ v < Capacity v)) as [Hlt|Hge].
    + destruct (decide (pos = size_ v)) as [->|Hne].
      * by eapply (Emplace_at_end_bounds v w a).
      * eapply (Emplace_inside_bounds v w pos a); [done | lia | done].
    + eapply (Emplace_full_bounds v w pos a); [lia | done..].
  - unfold Emplace in Hrun.
    erewrite bind_Done in Hrun by reflexivity.
    erewrite bind_Done in Hrun by (by apply end_run).
    unfold bind at 1 in Hrun.
    rewrite (proj2 (andb_false_iff _ _)) in Hrun.
    + simpl in Hrun. by injection Hrun as <- <-.
    + right. apply bool_decide_eq_false_2. lia.
Qed.

Lemma EmplaceBack_bounds v w a s' o :
  in_bounds v -> EmplaceBack a (w, v) = (s', o) -> in_bounds (snd s').
Proof.
  intros Hb. rewrite EmplaceBack_Emplace by apply Hb. by apply Emplace_bounds.
Qed.

Lemma PushBack_bounds v w a s' o :
  in_bounds v -> PushBack a (w, v) = (s', o) -> in_bounds (snd s').
Proof.
  intros Hb. rewrite PushBack_EmplaceBack.
  destruct (EmplaceBack a (w, v)) as [s1 o1] eqn:Hrun. simpl. intros [= <- <-].
  by eapply EmplaceBack_bounds.
Qed.

Lemma PopBack_numbers v w s' o :
  PopBack (w, v) = (s', o) ->
  Capacity (snd s') = Capacity v /\
  (size_ (snd s') = size_ v \/ size_ (snd s') = size_ v - 1).
Proof.
  unfold PopBack. rewrite bind_this. simpl. intros Hrun.
  minv Hrun; [|by apply assert_inv in Hrun as [-> _]; split; [|left]..].
  apply assert_inv in Hstep as [-> _].
  minv Hrun; [|by apply data_plus_inv in Hrun as [-> _]; split; [|left]..].
  apply data_plus_inv in Hstep as [-> _].
  minv Hrun; [|apply destroy_data_numbers in Hrun as [? ?]; split; [|left]; done..].
  apply destroy_data_inv in Hstep as (b1 & _ & ->).
  rewrite bind_this in Hrun. apply set_this_inv in Hrun as [-> _]. simpl.
  split; [done | by right].
Qed.

Lemma PopBack_bounds v w s' o :
  in_bounds v -> PopBack (w, v) = (s', o) -> in_bounds (snd s').
Proof.
  intros Hb Hrun. apply PopBack_numbers in Hrun as [Hc Hs].
  unfold in_bounds in *. lia.
Qed.

Lemma Erase_bounds v w pos s' o :
  in_bounds v -> Erase pos (w, v) = (s', o) -> in_bounds (snd s').
Proof.
  intros Hb Hrun. unfold Erase in Hrun.
  pose proof (extends_refl v) as Hext.
  do 5 (kskip Hrun Hext; [|by eapply extends_in_bounds]).
  pose proof (extends_in_bounds _ _ Hext Hb) as Hb1. destruct s3 as [w3 v3].
  minv Hrun.
  - apply ret_inv in Hrun as [-> _]. by eapply PopBack_bounds.
  - by eapply PopBack_bounds.
  - by eapply PopBack_bounds.
Qed.

(** [ReinicializationDataIn] changes the capacity when it returns, and
    only then; it never changes the size. *)
Lemma ReinicializationDataIn_numbers new_data s s' o :
  ReinicializationDataIn new_data s = (s', o) ->
  size_ (snd s') = size_ (snd s) /\
  (o = Done tt -> Capacity (snd s') = capacity_ new_data) /\
  (o ≠ Done tt -> Capacity (snd s') = Capacity (snd s)).
Proof.
  unfold ReinicializationDataIn. rewrite bind_this. intros Hrun.
  assert (forall s1 (o1 : outcome block),
    (fun s0 : W * Vector T =>
       if transfer_by_move then
         let '(w1, src1, dst1, o0) :=
           uninitialized_move_n (fst s0) (buffer_ (data_ (snd s0))) 0 (size_ (snd s))
             (buffer_ new_data) 0 in
         ((w1, with_buffer (snd s0) src1), block_result o0 dst1)
       else
         let '(w1, dst1, o0) :=
           uninitialized_copy_n (fst s0) (buffer_ (data_ (snd s0))) 0 (size_ (snd s))
             (buffer_ new_data) 0 in
         ((w1, snd s0), block_result o0 dst1)) s = (s1, o1) ->
    size_ (snd s1) = size_ (snd s) /\ Capacity (snd s1) = Capacity (snd s)) as Hmove.
  { intros s1 o1. simpl. destruct transfer_by_move.
    - destruct (uninitialized_move_n _ _ _ _ _ _) as [[[w1 src1] dst1] o0].
      by intros [= <- <-].
    - destruct (uninitialized_copy_n _ _ _ _ _ _) as [[w1 dst1] o0].
      by intros [= <- <-]. }
  minv Hrun; [|apply Hmove in Hrun as [? ?]; by split_and!..].
  apply Hmove in Hstep as [Hs Hc].
  minv Hrun; [|apply destroy_data_numbers in Hrun as [? ?]; split_and!; congruence..].
  apply destroy_data_inv in Hstep as (b1 & _ & ->).
  apply adopt_inv in Hrun as [-> ->]. simpl. by split_and!.
Qed.

(** [Reserve] never changes the size; it leaves the capacity
    [max(n, capacity)] when it returns, and as it was otherwise. *)
Lemma Reserve_numbers v w n s' o :
  Reserve n (w, v) = (s', o) ->
  size_ (snd s') = size_ v /\
  (o = Done tt -> Capacity (snd s') = n `max` Capacity v) /\
  (o ≠ Done tt -> Capacity (snd s') = Capacity v).
Proof.
  intros Hrun. destruct (decide (n <= Capacity v)) as [Hle|Hgt].
  - rewrite Reserve_small in Hrun by done. injection Hrun as <- <-. simpl.
    split_and!; [done | lia | done].
  - apply Reserve_grow in Hrun as (w1 & ok & _ & Hrun); [|lia]. destruct ok.
    + apply ReinicializationDataIn_numbers in Hrun as (Hs & Hd & Hn). simpl in *.
      split_and!; [done | | done]. intros Ho. rewrite (Hd Ho). lia.
    + destruct Hrun as [-> ->]. by split_and!.
Qed.

Lemma Reserve_bounds v w n s' o :
  in_bounds v -> Reserve n (w, v) = (s', o) -> in_bounds (snd s').
Proof.
  intros Hb Hrun. apply Reserve_numbers in Hrun as (Hs & Hd & Hn).
  unfold in_bounds in *. rewrite Hs.
  destruct o as [[]| |]; [rewrite Hd by done; lia | rewrite Hn by done; lia..].
Qed.

(** [Resize] leaves the size within a capacity that is at least the old
    one. *)
Lemma Resize_numbers v w n s' o :
  in_bounds v -> Resize n (w, v) = (s', o) ->
  in_bounds (snd s') /\ Capacity v <= Capacity (snd s').
Proof.
  intros Hb Hrun. unfold Resize in Hrun. rewrite bind_this in Hrun. simpl in Hrun.
  case_bool_decide as Hn.
  - rewrite bind_assoc in Hrun.
    minv Hrun; [|by apply data_plus_inv in Hrun as [-> _]..].
    apply data_plus_inv in Hstep as [-> _].
    minv Hrun; [|apply destroy_data_numbers in Hrun as [Hs Hc]; simpl in *;
                 unfold in_bounds in *; lia..].
    apply destroy_data_inv in Hstep as (b1 & _ & ->).
    rewrite bind_this in Hrun. apply set_this_inv in Hrun as [-> _].
    unfold in_bounds, Capacity in *. simpl. lia.
  - rewrite bind_assoc in Hrun.
    assert (forall s1 (o1 : outcome unit), Reserve n (w, v) = (s1, o1) -> o1 ≠ Done tt ->
            in_bounds (snd s1) /\ Capacity v <= Capacity (snd s1)) as Hfail.
    { intros s1 o1 Hres Ho. pose proof (Reserve_bounds _ _ _ _ _ Hb Hres).
      apply Reserve_numbers in Hres as (_ & _ & Hc). by rewrite Hc. }
    minv Hrun; [|by eapply Hfail..].
    apply Reserve_numbers in Hstep as (Hs1 & Hc1 & _). destruct a.
    specialize (Hc1 eq_refl). destruct s as [w1 v1]. simpl in *.
    assert (in_bounds v1 /\ Capacity v <= Capacity v1) as Hb1
      by (unfold in_bounds in *; lia).
    rewrite bind_assoc, bind_this in Hrun. simpl in Hrun.
    rewrite bind_assoc in Hrun.
    minv Hrun; [|by apply data_plus_inv in Hrun as [-> _]..].
    apply data_plus_inv in Hstep as [-> _].
    minv Hrun.
    + apply on_data_inv in Hstep as (w2 & b2 & _ & ->).
      rewrite bind_this in Hrun. apply set_this_inv in Hrun as [-> _].
      unfold in_bounds, Capacity in *. simpl. lia.
    + by apply on_data_inv in Hrun as (w2 & b2 & _ & ->).
    + by apply on_data_inv in Hrun as (w2 & b2 & _ & ->).
Qed.

Lemma Vector_sized_numbers n w w1 (v : Vector T) :
  Vector_sized n w = (w1, Done v) -> size_ v = n /\ Capacity v = n.
Proof.
  unfold Vector_sized.
  destruct (RawMemory_sized n w) as [w2 [m| |]] eqn:Hm; [|done..].
  apply RawMemory_sized_inv in Hm as (Hcap & _).
  destruct (uninitialized_value_construct_n _ _ _ _) as [[w3 b] [[]| |]]; [|done..].
  by intros [= <- <-].
Qed.

Lemma Vector_copy_numbers (other : Vector T) w w1 (v : Vector T) :
  Vector_copy other w = (w1, Done v) -> size_ v = size_ other /\ Capacity v = size_ other.
Proof.
  unfold Vector_copy.
  destruct (RawMemory_sized (size_ other) w) as [w2 [m| |]] eqn:Hm; [|done..].
  apply RawMemory_sized_inv in Hm as (Hcap & _).
  destruct (uninitialized_copy_n _ _ _ _ _ _) as [[w3 b] [[]| |]]; [|done..].
  by intros [= <- <-].
Qed.

(** Copy assignment leaves the size within a capacity that is at least
    the old one. *)
Lemma assign_from_numbers v (other : Vector T) w s' o :
  in_bounds v -> assign_from other (w, v) = (s', o) ->
  in_bounds (snd s') /\ Capacity v <= Capacity (snd s').
Proof.
  intros Hb Hrun. unfold assign_from in Hrun.
  rewrite bind_this in Hrun. simpl in Hrun.
  case_bool_decide as Hbig.
  - minv Hrun; [|by apply in_world_inv in Hrun as (w1 & _ & ->)..].
    apply in_world_inv in Hstep as (w1 & Hcopy & ->).
    apply Vector_copy_numbers in Hcopy as [Hs Hc].
    rewrite (bind_Done _ _ _ _ _ (Swap_run _ _ _)) in Hrun.
    apply of_outcome_inv in Hrun as [-> _]. simpl.
    unfold in_bounds in *. lia.
  - assert (forall (m : Mv unit) s1 (o1 : outcome unit),
      (forall s2 s3 o3, m s2 = (s3, o3) ->
         size_ (snd s3) = size_ (snd s2) /\ Capacity (snd s3) = Capacity (snd s2)) ->
      (m;;; v1 <- this;; set_this (with_size v1 (size_ other))) (w, v) = (s1, o1) ->
      in_bounds (snd s1) /\ Capacity v <= Capacity (snd s1)) as Hend.
    { intros m s1 o1 Hm Hr.
      minv Hr; [|apply Hm in Hr as [Hs Hc]; simpl in *; unfold in_bounds in *; lia..].
      apply Hm in Hstep as [Hs Hc]. rewrite bind_this in Hr.
      apply set_this_inv in Hr as [-> _]. simpl in *.
      unfold in_bounds, Capacity in *. simpl. lia. }
    rewrite <- bind_assoc in Hrun. eapply Hend; [|exact Hrun].
    intros s2 s3 o3 Hm.
    minv Hm; [|by apply on_data_inv in Hm as (w2 & b2 & _ & ->)..].
    apply on_data_inv in Hstep as (w2 & b2 & _ & ->).
    case_bool_decide.
    + minv Hm; [|by apply data_plus_inv in Hm as [-> _]..].
      apply data_plus_inv in Hstep as [-> _].
      by apply destroy_data_numbers in Hm.
    + minv Hm; [|by apply of_outcome_inv in Hm as [-> _]..].
      apply of_outcome_inv in Hstep as [-> _].
      minv Hm; [|by apply data_plus_inv in Hm as [-> _]..].
      apply data_plus_inv in Hstep as [-> _].
      by apply on_data_inv in Hm as (w3 & b3 & _ & ->).
Qed.

(** Appending into spare capacity: the capacity stays, and the size is
    one more when the call returns. *)
Lemma Emplace_at_end_numbers v w a s' o :
  size_ v < Capacity v -> Emplace (size_ v) a (w, v) = (s', o) ->
  Capacity (snd s') = Capacity v /\
  (forall it, o = Done it -> size_ (snd s') = size_ v + 1).
Proof.
  intros Hc. rewrite Emplace_at_end by done. intros Hrun.
  pose proof (extends_refl v) as Hext.
  assert (forall v', extends v v' -> Capacity v' = Capacity v) as Hcap.
  { intros v' (Hc1 & _). done. }
  kskip Hrun Hext; [|split; [by apply Hcap | by destruct Hend as [-> | ->]]].
  kskip Hrun Hext; [|split; [by apply Hcap | by destruct Hend as [-> | ->]]].
  apply incr_size_data_plus in Hrun as ->. destruct Hext as (Hc1 & Hs1 & _).
  unfold Capacity. simpl. split; [done|]. intros _ _. lia.
Qed.

Lemma PushBack_numbers v w a s' o :
  size_ v < Capacity v -> PushBack a (w, v) = (s', o) ->
  Capacity (snd s') = Capacity v /\ (o = Done tt -> size_ (snd s') = size_ v + 1).
Proof.
  intros Hc. rewrite PushBack_EmplaceBack, EmplaceBack_Emplace by lia.
  destruct (Emplace (size_ v) a (w, v)) as [s1 o1] eqn:Hrun. simpl. intros [= <- <-].
  apply Emplace_at_end_numbers in Hrun as [Hcap Hs]; [|done].
  split; [done|]. destruct o1 as [it| |]; [|done..]. intros _. by eapply Hs.
Qed.

Lemma push_all_numbers values : forall v w s',
  size_ v + length values <= Capacity v ->
  push_all values (w, v) = (s', Done tt) ->
  Capacity (snd s') = Capacity v /\ size_ (snd s') = size_ v + length values.
Proof.
  induction values as [|a values IH]; intros v w s' Hroom Hrun.
  - simpl in Hrun. injection Hrun as <-. simpl. split; [done | lia].
  - cbn [push_all] in Hrun. simpl in Hroom.
    apply bind_inv in Hrun as [(s1 & [] & Hpush & Hrun) | [[_ ?] | [_ ?]]]; [|done..].
    apply PushBack_numbers in Hpush as [Hc1 Hs1]; [|lia]. specialize (Hs1 eq_refl).
    destruct s1 as [w1 v1]. simpl in *.
    destruct (IH v1 w1 s' ltac:(lia) Hrun) as [Hc' Hs'].
    split; [congruence | lia].
Qed.

End Bounds.

(** ** Programs *)

Section Programs.

Context {T W A : Type} `{E : ElementType T W A}.

Implicit Types (v : Vector T) (w : W) (st : gmap nat (Vector T)).
Implicit Types (t : (W * gmap nat (Vector T))%type).

Lemma all_in_bounds_insert st a v :
  all_in_bounds st -> in_bounds v -> all_in_bounds (<[a := v]> st).
Proof.
  intros Hst Hv a' v'. destruct (decide (a = a')) as [->|Hne].
  - rewrite lookup_insert_eq. by intros [= <-].
  - rewrite lookup_insert_ne by done. apply Hst.
Qed.

Lemma all_valid_in_bounds st : all_valid st -> all_in_bounds st.
Proof. intros Hst a v Ha. by eapply valid_in_bounds, Hst. Qed.

Lemma at_in_bounds {B} (m : @Mv T W B) a t t' o :
  (forall v w s' o', in_bounds v -> m (w, v) = (s', o') -> o' ≠ Fault -> in_bounds (snd s')) ->
  all_in_bounds (snd t) -> at_ a m t = (t', o) -> o ≠ Fault -> all_in_bounds (snd t').
Proof.
  intros Hm Hst. unfold at_. destruct (snd t !! a) as [v|] eqn:Ha.
  - destruct (m (fst t, v)) as [[w1 v1] o1] eqn:Hrun. intros [= <- <-] Ho. simpl.
    apply all_in_bounds_insert; [done|].
    apply (Hm v (fst t) (w1, v1) o1); [by eapply Hst | done..].
  - by intros [= <- <-].
Qed.

Lemma load_inv a t t' o :
  load a t = (t', o) ->
  t' = t /\ match o with
            | Done v => snd t !! a = Some v
            | Thrown => False
            | Fault => True
            end.
Proof. unfold load. by destruct (snd t !! a) as [v|] eqn:Ha; intros [= <- <-]. Qed.

Lemma define_in_bounds a (ctor : W -> W * outcome (Vector T)) t t' o :
  (forall w w1 v, ctor w = (w1, Done v) -> in_bounds v) ->
  all_in_bounds (snd t) -> define a ctor t = (t', o) -> all_in_bounds (snd t').
Proof.
  intros Hctor Hst. unfold define. destruct (snd t !! a); [by intros [= <- <-]|].
  destruct (ctor (fst t)) as [w1 [v| |]] eqn:Hc; intros [= <- <-]; simpl; [|done..].
  apply all_in_bounds_insert; [done|]. by eapply Hctor.
Qed.

Lemma swap_objects_in_bounds a other t t' o :
  all_in_bounds (snd t) -> swap_objects a other t = (t', o) -> all_in_bounds (snd t').
Proof.
  intros Hst Hrun. unfold swap_objects in Hrun.
  minv Hrun; [|by apply load_inv in Hrun as [-> _]..].
  apply load_inv in Hstep as [-> Ho].
  unfold bind, at_ in Hrun. destruct (snd t !! a) as [v|] eqn:Ha.
  - rewrite Swap_run in Hrun. unfold save in Hrun. simpl in Hrun.
    injection Hrun as <- <-. simpl.
    apply all_in_bounds_insert; [apply all_in_bounds_insert|]; eauto.
  - by injection Hrun as <- <-.
Qed.

Lemma in_bounds_default : in_bounds (Vector_default : Vector T).
Proof. unfold in_bounds, Capacity. simpl. lia. Qed.

(** A call that returns or throws leaves every vector with its size
    within its capacity. *)
Lemma exec_in_bounds c t t' o :
  all_in_bounds (snd t) -> exec c t = (t', o) -> o ≠ Fault -> all_in_bounds (snd t').
Proof.
  intros Hst Hrun Ho.
  assert (forall {B} (m : M _ B) (r : retval) t1 o1,
    (forall t2 o2, m t = (t2, o2) -> o2 ≠ Fault -> all_in_bounds (snd t2)) ->
    (m;;; ret r) t = (t1, o1) -> o1 ≠ Fault -> all_in_bounds (snd t1)) as Hdrop.
  { intros B m r t1 o1 Hm Hr Ho1. minv Hr; [|by eapply Hm..].
    apply ret_inv' in Hr as [-> _]. by eapply Hm. }
  assert (forall {B} (m : M _ B) (r : B -> retval) t1 o1,
    (forall t2 o2, m t = (t2, o2) -> o2 ≠ Fault -> all_in_bounds (snd t2)) ->
    (i <- m;; ret (r i)) t = (t1, o1) -> o1 ≠ Fault -> all_in_bounds (snd t1)) as Hmap.
  { intros B m r t1 o1 Hm Hr Ho1. minv Hr; [|by eapply Hm..].
    apply ret_inv' in Hr as [-> _]. by eapply Hm. }
  destruct c; simpl in Hrun.
  - eapply Hdrop; [|done..]. intros t2 o2 Hd _. eapply define_in_bounds; [|done..].
    intros ? ? ? [= <- <-]. apply in_bounds_default.
  - eapply Hdrop; [|done..]. intros t2 o2 Hd _. eapply define_in_bounds; [|done..].
    intros ? ? v Hv. apply Vector_sized_numbers in Hv as [Hs Hc].
    unfold in_bounds. lia.
  - minv Hrun; [|by apply load_inv in Hrun as [-> _]|done].
    apply load_inv in Hstep as [-> _].
    eapply Hdrop; [|done..]. intros t2 o2 Hd _. eapply define_in_bounds; [|done..].
    intros ? ? v Hv. apply Vector_copy_numbers in Hv as [Hs Hc].
    unfold in_bounds. lia.
  - eapply Hdrop; [|done..]. intros t2 o2 Hd _. unfold define_move in Hd.
    minv Hd.
    + eapply swap_objects_in_bounds; [|done]. eapply define_in_bounds; [|done..].
      intros ? ? ? [= <- <-]. apply in_bounds_default.
    + eapply define_in_bounds; [|done..]. intros ? ? ? [= <- <-]. apply in_bounds_default.
    + eapply define_in_bounds; [|done..]. intros ? ? ? [= <- <-]. apply in_bounds_default.
  - eapply Hdrop; [|done..]. intros t2 o2 Hd Ho2. unfold assign_copy in Hd.
    case_bool_decide; [|by apply ret_inv' in Hd as [-> _]].
    minv Hd; [|by apply load_inv in Hd as [-> _]|done].
    apply load_inv in Hstep as [-> _].
    eapply at_in_bounds; [|done..]. intros v w s' o' Hv Hp _.
    by eapply assign_from_numbers in Hp as [? _].
  - eapply Hdrop; [|done..]. intros t2 o2 Hd _. unfold assign_move in Hd.
    case_bool_decide; [|by apply ret_inv' in Hd as [-> _]].
    by eapply swap_objects_in_bounds.
  - eapply Hdrop; [|done..]. intros t2 o2 Hd Ho2.
    eapply at_in_bounds; [|done..]. intros v w s' o' Hv Hp Ho'.
    by eapply PushBack_bounds.
  - eapply Hmap; [|done..]. intros t2 o2 Hd Ho2.
    eapply at_in_bounds; [|done..]. intros v w s' o' Hv Hp Ho'.
    by eapply EmplaceBack_bounds.
  - eapply Hmap; [|done..]. intros t2 o2 Hd Ho2.
    eapply at_in_bounds; [|done..]. intros v w s' o' Hv Hp Ho'.
    by eapply Emplace_bounds.
  - eapply Hmap; [|done..]. intros t2 o2 Hd Ho2.
    eapply at_in_bounds; [|done..]. intros v w s' o' Hv Hp Ho'.
    apply Insert_copy_inv in Hp; [|done]. by eapply Emplace_bounds.
  - eapply Hmap; [|done..]. intros t2 o2 Hd Ho2.
    eapply at_in_bounds; [|done..]. intros v w s' o' Hv Hp Ho'.
    apply Insert_move_inv in Hp; [|done]. by eapply Emplace_bounds.
  - eapply Hdrop; [|done..]. intros t2 o2 Hd Ho2.
    eapply at_in_bounds; [|done..]. intros v w s' o' Hv Hp Ho'.
    by eapply PopBack_bounds.
  - eapply Hmap; [|done..]. intros t2 o2 Hd Ho2.
    eapply at_in_bounds; [|done..]. intros v w s' o' Hv Hp Ho'.
    by eapply Erase_bounds.
  - eapply Hdrop; [|done..]. intros t2 o2 Hd Ho2.
    eapply at_in_bounds; [|done..]. intros v w s' o' Hv Hp Ho'.
    by eapply Reserve_bounds.
  - eapply Hdrop; [|done..]. intros t2 o2 Hd Ho2.
    eapply at_in_bounds; [|done..]. intros v w s' o' Hv Hp Ho'.
    by eapply Resize_numbers in Hp as [? _].
  - eapply Hdrop; [|done..]. intros t2 o2 Hd _. by eapply swap_objects_in_bounds.
Qed.

Lemma trace_in_bounds cs t :
  all_in_bounds (snd t) -> Forall (fun t' => all_in_bounds (snd t')) (trace cs t).
Proof.
  revert t. induction cs as [|c cs IH]; intros t Hst; simpl; [constructor|].
  destruct (exec c t) as [t1 o] eqn:Hrun.
  assert (o ≠ Fault -> Forall (fun t' => all_in_bounds (snd t')) (t1 :: trace cs t1)) as Hgo.
  { intros Ho. pose proof (exec_in_bounds c t t1 o Hst Hrun Ho) as Hst1.
    constructor; [done | by apply IH]. }
  destruct o; [by apply Hgo..|constructor].
Qed.

(** C8.  From a state in which every vector is valid, after each call
    of a program (constructions, [PushBack], [EmplaceBack], [Insert],
    [Emplace], [PopBack], [Erase], [Reserve], [Resize], the assignments
    and [Swap]), whether it returned or threw, every vector has
    [0 <= size <= capacity]. *)
Theorem invariant_kept cs t :
  all_valid (snd t) ->
  Forall (fun t' => forall a v, snd t' !! a = Some v -> 0 <= size_ v <= Capacity v)
         (trace cs t).
Proof.
  intros Hst. apply all_valid_in_bounds in Hst.
  by apply trace_in_bounds.
Qed.

(** C10.  Assigning a vector to itself, by copy or by move, changes
    nothing in the program state and returns [*this]. *)
Theorem self_assignment a t :
  exec (AssignCopy a a) t = (t, Done Self) /\
  exec (AssignMove a a) t = (t, Done Self).
Proof.
  split; simpl; unfold assign_copy, assign_move;
    by rewrite bool_decide_eq_false_2 by (by intros []).
Qed.

End Programs.

(** ** The strong exception guarantee *)

Section Guarantee.

Context {T W A : Type} `{E : ElementType T W A}.

Local Abbreviation block := (list (option T)).
Implicit Types (b src dst : block) (x y : T) (w : W).
Implicit Types (v : Vector T) (s : (W * Vector T)%type).

Lemma strong_bind {B C} (m : @Mv T W B) (k : B -> @Mv T W C) :
  steady m -> (forall a, strong (k a)) -> strong (bind m k).
Proof.
  intros Hm Hk s s' Hrun. minv Hrun.
  - rewrite (Hk _ _ _ Hrun). by eapply Hm.
  - by eapply Hm.
Qed.

Lemma nothrow_bind {B C} (m : @Mv T W B) (k : B -> @Mv T W C) :
  nothrow m -> (forall a, nothrow (k a)) -> nothrow (bind m k).
Proof.
  intros Hm Hk s s' Hrun. minv Hrun.
  - by eapply Hk.
  - by eapply Hm.
Qed.

Lemma nothrow_strong {B} (m : @Mv T W B) : nothrow m -> strong m.
Proof. intros Hm s s' Hrun. by destruct (Hm s s'). Qed.

Lemma steady_strong {B} (m : @Mv T W B) : steady m -> strong m.
Proof. intros Hm s s' Hrun. by eapply Hm. Qed.

(** *** Steps that cannot throw *)

Lemma nothrow_ret {B} (a : B) : nothrow (ret a : @Mv T W B).
Proof. by intros s s'. Qed.

Lemma nothrow_fault {B} : nothrow (fault : @Mv T W B).
Proof. by intros s s'. Qed.

Lemma nothrow_this : nothrow (this : @Mv T W _).
Proof. by intros s s'. Qed.

Lemma nothrow_set_this v : nothrow (set_this v : @Mv T W unit).
Proof. by intros s s'. Qed.

Lemma nothrow_assert c : nothrow (assert c : @Mv T W unit).
Proof. intros s s'. by destruct c. Qed.

Lemma nothrow_data_plus k : nothrow (data_plus k : @Mv T W nat).
Proof. intros s s' H. by apply data_plus_inv in H as [_ ?]. Qed.

Lemma nothrow_data_index k : nothrow (data_index k : @Mv T W nat).
Proof. intros s s' H. by apply data_index_inv in H as [_ ?]. Qed.

Lemma nothrow_end : nothrow (end_ : @Mv T W nat).
Proof. intros s s' H. by apply end_inv in H as [_ ?]. Qed.

Lemma nothrow_object_at i : nothrow (object_at i : @Mv T W T).
Proof. intros s s' H. by apply object_at_inv in H as [_ ?]. Qed.

Lemma nothrow_store_at i x : nothrow (store_at i x : @Mv T W unit).
Proof. intros s s' H. by apply store_at_inv in H. Qed.

Lemma nothrow_destroy_data p n : nothrow (destroy_data p n : @Mv T W unit).
Proof. intros s s' H. by apply destroy_data_inv in H. Qed.

Lemma nothrow_incr_size : nothrow (incr_size : @Mv T W unit).
Proof. intros s s' H. by apply incr_size_inv in H as [_ ?]. Qed.

Lemma nothrow_adopt new_data : nothrow (adopt new_data : @Mv T W unit).
Proof. intros s s' H. by apply adopt_inv in H as [_ ?]. Qed.

Lemma nothrow_plus (m : RawMemory T) k : nothrow (of_outcome (RawMemory_plus m k) : @Mv T W nat).
Proof.
  intros s s' H. apply of_outcome_inv in H as [_ H]. unfold RawMemory_plus in H.
  by case_bool_decide.
Qed.

Lemma nothrow_move_construct_at `{!NothrowMove} (i j : nat) : nothrow (move_construct_at i j).
Proof.
  apply nothrow_bind; [apply nothrow_object_at | intros x].
  intros s s' Hrun. minv Hrun.
  - apply in_world_inv in Hstep as (w1 & Hmc & ->).
    pose proof (move_construct_nothrow x (fst s)) as Hn.
    destruct (move_construct x (fst s)) as [w2 [x' r]]. injection Hmc as <- <-.
    simpl in Hn. destruct Hn as [y ->]. simpl in Hrun.
    minv Hrun; [by apply nothrow_store_at in Hrun | by apply nothrow_store_at in Hrun].
  - apply in_world_inv in Hrun as (w1 & Hmc & ->).
    by destruct (move_construct x (fst s)) as [w2 r].
Qed.

Lemma nothrow_move_assign_from `{!NothrowMove} (i : nat) x : nothrow (move_assign_from i x).
Proof.
  apply nothrow_bind; [apply nothrow_object_at | intros y].
  intros s s' Hrun. minv Hrun.
  - apply in_world_inv in Hstep as (w1 & Hma & ->).
    pose proof (move_assign_nothrow y x (fst s)) as Hn.
    destruct (move_assign y x (fst s)) as [w2 [[y' x'] ok]]. injection Hma as <- <-.
    simpl in Hn. subst ok. simpl in Hrun.
    minv Hrun; [done | by apply nothrow_store_at in Hrun].
  - apply in_world_inv in Hrun as (w1 & Hma & ->).
    by destruct (move_assign y x (fst s)) as [w2 r].
Qed.

Lemma move_assign_at_nothrow `{!NothrowMove} w b (i j : nat) w' b' :
  move_assign_at w b i j ≠ (w', b', Thrown).
Proof.
  unfold move_assign_at. destruct (live b i) as [x|]; [|done].
  destruct (live b j) as [y|]; [|done].
  pose proof (move_assign_nothrow y x w) as Hn.
  destruct (move_assign y x w) as [w1 [[y' x'] ok]]. simpl in Hn. by subst ok.
Qed.

Lemma move_backward_n_nothrow `{!NothrowMove} n : forall w b (first d_last : nat) w' b',
  move_backward_n w b first n d_last ≠ (w', b', Thrown).
Proof.
  induction n as [|n IH]; intros w b first d_last w' b'; simpl; [done|].
  destruct d_last as [|d]; [done|].
  destruct (move_assign_at w b (first + n) d) as [[w1 b1] [[]| |]] eqn:Hm.
  - apply IH.
  - by apply move_assign_at_nothrow in Hm.
  - done.
Qed.

Lemma nothrow_std_move_backward `{!NothrowMove} (first last d_last : nat) :
  nothrow (on_data (fun w blk => std_move_backward w blk first last d_last)).
Proof.
  intros s s' (w1 & b1 & Hrun & _)%on_data_inv. unfold std_move_backward in Hrun.
  case_bool_decide; [|done]. by apply move_backward_n_nothrow in Hrun.
Qed.

Lemma uninitialized_move_n_nothrow `{!NothrowMove} n : forall w src (i : nat) dst (d : nat) w' src' dst',
  uninitialized_move_n w src i n dst d ≠ (w', src', dst', Thrown).
Proof.
  induction n as [|n IH]; intros w src i dst d w' src' dst'; simpl; [done|].
  destruct (live src i) as [x|]; [|done]. destruct (in_block dst d); [|done].
  pose proof (move_construct_nothrow x w) as Hn.
  destruct (move_construct x w) as [w1 [x' [y|]]]; simpl in Hn; [|by destruct Hn].
  destruct (uninitialized_move_n w1 _ (S i) n _ (S d)) as [[[w2 src2] dst2] [[]| |]] eqn:Hm;
    [done| |done].
  by apply IH in Hm.
Qed.

(** A transfer of a type with non-throwing moves: it moves and cannot
    throw, or it copies and leaves the vector alone. *)
Lemma ReinicializationDataIn_range_guarantee `{!NothrowMove} :
  (forall first last new_buffer result,
     nothrow (ReinicializationDataIn_range first last new_buffer result)) \/
  (forall first last new_buffer result,
     steady (ReinicializationDataIn_range first last new_buffer result)).
Proof.
  unfold nothrow, steady, ReinicializationDataIn_range, std_uninitialized_move.
  destruct transfer_by_move.
  - left. intros first last new_buffer result s s'. case_bool_decide; [|done].
    destruct (uninitialized_move_n _ _ _ _ _ _) as [[[w1 src1] dst1] [[]| |]] eqn:Hm;
      [done| |done].
    by apply uninitialized_move_n_nothrow in Hm.
  - right. intros first last new_buffer result s s' o.
    destruct (std_uninitialized_copy _ _ _ _ _ _) as [[w1 dst1] o1].
    by intros [= <- <-].
Qed.

(** *** Steps that leave the vector alone *)

Lemma steady_same {B} (m : @Mv T W B) :
  (forall s s' o, m s = (s', o) -> s' = s) -> steady m.
Proof. intros Hm s s' o Hrun _. by rewrite (Hm _ _ _ Hrun). Qed.

Lemma steady_ret {B} (a : B) : steady (ret a : @Mv T W B).
Proof. apply steady_same. by intros s s' o [= <- _]. Qed.

Lemma steady_this : steady (this : @Mv T W _).
Proof. apply steady_same. by intros s s' o [= <- _]. Qed.

Lemma steady_assert c : steady (assert c : @Mv T W unit).
Proof. apply steady_same. intros s s' o. by destruct c; intros [= <- _]. Qed.

Lemma steady_of_outcome {B} (r : outcome B) : steady (of_outcome r : @Mv T W B).
Proof. apply steady_same. by intros s s' o [= <- _]. Qed.

Lemma steady_data_plus k : steady (data_plus k : @Mv T W nat).
Proof. apply steady_same. by intros s s' o [-> _]%data_plus_inv. Qed.

Lemma steady_data_index k : steady (data_index k : @Mv T W nat).
Proof. apply steady_same. by intros s s' o [-> _]%data_index_inv. Qed.

Lemma steady_end : steady (end_ : @Mv T W nat).
Proof. apply steady_same. by intros s s' o [-> _]%end_inv. Qed.

Lemma steady_object_at i : steady (object_at i : @Mv T W T).
Proof. apply steady_same. by intros s s' o [-> _]%object_at_inv. Qed.

Lemma steady_in_world {B} (f : W -> W * outcome B) : steady (in_world f : @Mv T W B).
Proof. by intros s s' o (w1 & _ & ->)%in_world_inv _. Qed.

Lemma steady_bind {B C} (m : @Mv T W B) (k : B -> @Mv T W C) :
  steady m -> (forall a, steady (k a)) -> steady (bind m k).
Proof.
  intros Hm Hk s s' o Hrun Ho. minv Hrun.
  - rewrite (Hk _ _ _ _ Hrun Ho). by eapply Hm.
  - by eapply Hm.
  - done.
Qed.

(** Constructing from anything but an rvalue of the vector's own
    element. *)
Lemma steady_construct a :
  (forall j, a ≠ Rvalue (Element j)) -> steady (construct a).
Proof.
  intros Ha. destruct a as [a|[x|j]|[x|j]]; simpl; try apply steady_in_world.
  - apply steady_bind; [apply steady_object_at | intros; apply steady_in_world].
  - by destruct (Ha j).
Qed.

Lemma strong_then {B C} (m : @Mv T W B) (k : B -> @Mv T W C) :
  strong m -> (forall a, nothrow (k a)) -> strong (bind m k).
Proof.
  intros Hm Hk s s' Hrun. minv Hrun.
  - by apply Hk in Hrun.
  - by apply Hm.
Qed.

End Guarantee.

Create HintDb guarantee.
#[global] Hint Resolve nothrow_ret nothrow_fault nothrow_this nothrow_set_this nothrow_assert
  nothrow_data_plus nothrow_data_index nothrow_end nothrow_object_at nothrow_store_at
  nothrow_destroy_data nothrow_incr_size nothrow_adopt nothrow_plus
  nothrow_move_construct_at nothrow_move_assign_from nothrow_std_move_backward
  steady_ret steady_this steady_assert steady_of_outcome steady_data_plus steady_data_index
  steady_end steady_object_at steady_in_world : guarantee.

(** A chain of steps: each one that leaves the vector alone is passed,
    and what follows the last of them cannot throw. *)
Ltac guarantee :=
  repeat first
    [ solve [eauto with guarantee]
    | match goal with
      | |- strong (bind _ _) =>
          apply strong_bind; [solve [eauto with guarantee] | intros ?]
      | |- strong _ => apply nothrow_strong
      | |- nothrow (bind _ _) =>
          apply nothrow_bind; [solve [eauto with guarantee] | intros ?]
      | |- nothrow (if ?c then _ else _) => destruct c
      | |- nothrow (match ?c with _ => _ end) => destruct c
      end ].

Section Strong.

Context {T W A : Type} `{E : ElementType T W A} `{!NothrowMove}.

Implicit Types (x y : T) (w : W) (v : Vector T) (s : (W * Vector T)%type).

Lemma strong_Emplace pos a :
  (forall j, a ≠ Rvalue (Element j)) -> strong (Emplace pos a).
Proof.
  intros Ha. pose proof (steady_construct a Ha) as Hconstruct.
  unfold Emplace.
  apply strong_bind; [apply steady_ret | intros b0].
  apply strong_bind; [apply steady_end | intros e0].
  apply strong_bind; [apply steady_assert | intros _].
  apply strong_bind; [apply steady_this | intros v].
  apply strong_then; [|intros; guarantee].
  case_bool_decide.
  - apply strong_bind; [apply steady_end | intros e].
    case_bool_decide.
    + apply strong_bind; [done | intros x]. guarantee.
    + apply strong_bind; [done | intros x]. guarantee.
  - apply strong_bind; [apply steady_in_world | intros new_data].
    apply strong_bind; [apply steady_of_outcome | intros p].
    apply strong_bind; [done | intros x].
    apply strong_bind; [apply steady_assert | intros _].
    apply strong_bind; [apply steady_ret | intros b1].
    destruct ReinicializationDataIn_range_guarantee as [Hmove|Hcopy].
    + apply nothrow_strong.
      apply nothrow_bind; [apply Hmove | intros front].
      apply nothrow_bind; [apply nothrow_end | intros e].
      apply nothrow_bind; [apply nothrow_plus | intros q].
      apply nothrow_bind; [apply Hmove | intros filled]. guarantee.
    + apply strong_bind; [apply Hcopy | intros front].
      apply strong_bind; [apply steady_end | intros e].
      apply strong_bind; [apply steady_of_outcome | intros q].
      apply strong_bind; [apply Hcopy | intros filled]. guarantee.
Qed.

Lemma strong_ReinicializationDataIn new_data : strong (ReinicializationDataIn new_data).
Proof.
  unfold ReinicializationDataIn.
  apply strong_bind; [apply steady_this | intros v].
  destruct (transfer_by_move (T:=T)) eqn:Hmode.
  - apply nothrow_strong. apply nothrow_bind; [|intros; guarantee].
    intros s s'.
    destruct (uninitialized_move_n _ _ _ _ _ _) as [[[w1 src1] dst1] [[]| |]] eqn:Hm;
      [done| |done].
    by apply uninitialized_move_n_nothrow in Hm.
  - apply strong_bind; [|intros; guarantee].
    intros s s' o. destruct (uninitialized_copy_n _ _ _ _ _ _) as [[w1 dst1] o1].
    by intros [= <- <-].
Qed.

Lemma strong_Reserve n : strong (Reserve n).
Proof.
  unfold Reserve.
  apply strong_bind; [apply steady_this | intros v].
  case_bool_decide; [guarantee|].
  apply strong_bind; [apply steady_in_world | intros new_data].
  apply strong_ReinicializationDataIn.
Qed.

Lemma strong_assign_from (other : Vector T) s s' :
  Capacity (snd s) < size_ other ->
  assign_from other s = (s', Thrown) -> snd s' = snd s.
Proof.
  intros Hbig. unfold assign_from. rewrite bind_this.
  rewrite bool_decide_eq_true_2 by done. intros Hrun.
  minv Hrun.
  - exfalso. apply in_world_inv in Hstep as (w1 & _ & ->).
    destruct s as [w v]. simpl in Hrun. rewrite (bind_Done _ _ _ _ _ (Swap_run _ _ _)) in Hrun.
    apply of_outcome_inv in Hrun as [_ Hd]. unfold Vector_destroy in Hd.
    by destruct (destroy_n _ _ _).
  - by apply in_world_inv in Hrun as (w1 & _ & ->).
Qed.

End Strong.

(** ** The guarantee, branch by branch

    What each path needs of the element type for the vector to be as it
    was when an exception leaves the call. *)

Section Branches.

Context {T W A : Type} `{E : ElementType T W A}.

Local Abbreviation block := (list (option T)).
Implicit Types (b src dst : block) (x y : T) (w : W).
Implicit Types (v : Vector T) (s : (W * Vector T)%type).

Lemma uninitialized_move_n_cannot_throw n :
  nothrow_move_construct ->
  forall w src (i : nat) dst (d : nat) w' src' dst',
  uninitialized_move_n w src i n dst d ≠ (w', src', dst', Thrown).
Proof.
  intros Hmc. induction n as [|n IH]; intros w src i dst d w' src' dst'; simpl; [done|].
  destruct (live src i) as [x|]; [|done]. destruct (in_block dst d); [|done].
  pose proof (Hmc x w) as Hn.
  destruct (move_construct x w) as [w1 [x' [y|]]]; simpl in Hn; [|by destruct Hn].
  destruct (uninitialized_move_n w1 _ (S i) n _ (S d)) as [[[w2 src2] dst2] [[]| |]] eqn:Hm;
    [done| |done].
  by apply IH in Hm.
Qed.

(** A safe transfer of a range moves and cannot throw, or copies and
    leaves the vector alone. *)
Lemma safe_transfer_range :
  safe_transfer ->
  (transfer_by_move = true /\
   forall first last new_buffer result,
     nothrow (ReinicializationDataIn_range first last new_buffer result)) \/
  (transfer_by_move = false /\
   forall first last new_buffer result,
     steady (ReinicializationDataIn_range first last new_buffer result)).
Proof.
  intros Hsafe.
  unfold nothrow, steady, ReinicializationDataIn_range, std_uninitialized_move.
  unfold safe_transfer in Hsafe. destruct transfer_by_move eqn:Hmode.
  - left. split; [done|]. specialize (Hsafe eq_refl).
    intros first last new_buffer result s s'. case_bool_decide; [|done].
    destruct (uninitialized_move_n _ _ _ _ _ _) as [[[w1 src1] dst1] [[]| |]] eqn:Hm;
      [done| |done].
    by apply uninitialized_move_n_cannot_throw in Hm.
  - right. split; [done|]. intros first last new_buffer result s s' o.
    destruct (std_uninitialized_copy _ _ _ _ _ _) as [[w1 dst1] o1].
    by intros [= <- <-].
Qed.

Lemma strong_ReinicializationDataIn_safe new_data :
  safe_transfer -> strong (ReinicializationDataIn new_data).
Proof.
  intros Hsafe. unfold ReinicializationDataIn.
  apply strong_bind; [apply steady_this | intros v].
  destruct (transfer_by_move (T:=T)) eqn:Hmode.
  - apply nothrow_strong. apply nothrow_bind; [|intros; guarantee].
    intros s s'.
    destruct (uninitialized_move_n _ _ _ _ _ _) as [[[w1 src1] dst1] [[]| |]] eqn:Hm;
      [done| |done].
    apply uninitialized_move_n_cannot_throw in Hm; [done|]. apply Hsafe.
    unfold transfer_by_move. exact Hmode.
  - apply strong_bind; [|intros; guarantee].
    intros s s' o. destruct (uninitialized_copy_n _ _ _ _ _ _) as [[w1 dst1] o1].
    by intros [= <- <-].
Qed.

Lemma strong_Reserve_safe n : safe_transfer -> strong (Reserve n).
Proof.
  intros Hsafe. unfold Reserve.
  apply strong_bind; [apply steady_this | intros v].
  case_bool_decide; [guarantee|].
  apply strong_bind; [apply steady_in_world | intros new_data].
  by apply strong_ReinicializationDataIn_safe.
Qed.

Lemma own_rvalue_or_not (a : arg T A) :
  (forall j, a ≠ Rvalue (Element j)) \/ (exists j, a = Rvalue (Element j)).
Proof. destruct a as [a|[x|j]|[x|j]]; eauto. Qed.

(** Moving from an element of the vector cannot throw when the move
    constructor does not. *)
Lemma nothrow_construct_own j :
  nothrow_move_construct -> nothrow (construct (Rvalue (Element j) : arg T A)).
Proof.
  intros Hmc. simpl.
  apply nothrow_bind; [apply nothrow_object_at | intros x].
  intros s s' Hrun. minv Hrun.
  - apply in_world_inv in Hstep as (w1 & Hm & ->).
    pose proof (Hmc x (fst s)) as Hn.
    destruct (move_construct x (fst s)) as [w2 [x' r]]. injection Hm as <- <-.
    simpl in Hn. destruct Hn as [y ->]. simpl in Hrun.
    minv Hrun; [done | by apply nothrow_store_at in Hrun].
  - apply in_world_inv in Hrun as (w1 & Hm & ->).
    by destruct (move_construct x (fst s)) as [w2 r].
Qed.

(** Appending into spare capacity. *)
Lemma strong_at_end a (e : nat) :
  (forall j, a ≠ Rvalue (Element j)) \/ nothrow_move_construct ->
  strong (x <- construct a;; store_at e x;;; incr_size;;; data_plus e).
Proof.
  intros Ha. destruct (own_rvalue_or_not a) as [Hnot|[j ->]].
  - apply strong_bind; [by apply steady_construct | intros x]. guarantee.
  - destruct Ha as [Ha|Hmc]; [by destruct (Ha j)|].
    apply nothrow_strong.
    apply nothrow_bind; [by apply nothrow_construct_own | intros x]. guarantee.
Qed.

(** Inserting before the end into spare capacity. *)
Lemma strong_inside a (pos : nat) :
  nothrow_move_construct -> nothrow_move_assign ->
  strong (temp_value <- construct a;;
          v1 <- this;;
          last <- data_index (size_ v1 - 1);;
          e <- end_;;
          move_construct_at e last;;;
          on_data (fun w blk => std_move_backward w blk pos (e - 1) e);;;
          i <- data_index pos;;
          move_assign_from i temp_value;;;
          incr_size;;;
          data_plus pos).
Proof.
  intros Hmc Hma.
  pose proof (Build_NothrowMove Hmc Hma) as Hmoves.
  destruct (own_rvalue_or_not a) as [Hnot|[j ->]].
  - apply strong_bind; [by apply steady_construct | intros x]. guarantee.
  - apply nothrow_strong.
    apply nothrow_bind; [by apply nothrow_construct_own | intros x]. guarantee.
Qed.

(** Inserting into a full vector. *)
Lemma strong_full a (pos n : nat) :
  safe_transfer ->
  (forall j, a ≠ Rvalue (Element j)) \/ transfer_by_move = true ->
  strong (new_data <- in_world (RawMemory_sized n);;
          p <- of_outcome (RawMemory_plus new_data pos);;
          x <- construct a;;
          assert (in_block (buffer_ new_data) p);;;
          front <- ReinicializationDataIn_range 0 pos (<[p := Some x]> (buffer_ new_data)) 0;;
          e <- end_;;
          q <- of_outcome (RawMemory_plus new_data pos);;
          filled <- ReinicializationDataIn_range pos e front (q + 1);;
          v1 <- this;;
          destroy_data 0 (size_ v1);;;
          adopt {| buffer_ := filled; capacity_ := capacity_ new_data |};;;
          incr_size;;;
          data_plus pos).
Proof.
  intros Hsafe Ha.
  apply strong_bind; [apply steady_in_world | intros new_data].
  apply strong_bind; [apply steady_of_outcome | intros p].
  destruct (safe_transfer_range Hsafe) as [[Hmode Hmove]|[Hmode Hcopy]].
  - apply strong_then.
    + destruct (own_rvalue_or_not a) as [Hnot|[j ->]].
      * by apply steady_strong, steady_construct.
      * apply nothrow_strong, nothrow_construct_own. by apply Hsafe.
    + intros x.
      apply nothrow_bind; [apply nothrow_assert | intros _].
      apply nothrow_bind; [apply Hmove | intros front].
      apply nothrow_bind; [apply nothrow_end | intros e].
      apply nothrow_bind; [apply nothrow_plus | intros q].
      apply nothrow_bind; [apply Hmove | intros filled]. guarantee.
  - destruct Ha as [Hnot|Hyes]; [|congruence].
    apply strong_bind; [by apply steady_construct | intros x].
    apply strong_bind; [apply steady_assert | intros _].
    apply strong_bind; [apply Hcopy | intros front].
    apply strong_bind; [apply steady_end | intros e].
    apply strong_bind; [apply steady_of_outcome | intros q].
    apply strong_bind; [apply Hcopy | intros filled]. guarantee.
Qed.

(** An insertion that threw had its position in range. *)
Lemma Emplace_thrown_in_range v w pos a s' :
  size_ v <= Capacity v -> Emplace pos a (w, v) = (s', Thrown) -> pos <= size_ v.
Proof.
  intros Hc Hrun. destruct (decide (pos <= size_ v)) as [Hpos|Hpos]; [done|].
  exfalso. unfold Emplace in Hrun.
  erewrite bind_Done in Hrun by reflexivity.
  erewrite bind_Done in Hrun by (by apply end_run).
  unfold bind at 1 in Hrun.
  rewrite (proj2 (andb_false_iff _ _)) in Hrun.
  - simpl in Hrun. by injection Hrun.
  - right. apply bool_decide_eq_false_2. lia.
Qed.


End Branches.

(** * More of the operations

    What the methods do beyond the insertions and [Reserve]: removal,
    element access, [Resize], the constructors and the assignments, and
    how the operations compose. *)

Section Operations.
Context {T W A : Type} `{E : ElementType T W A}.
Local Abbreviation block := (list (option T)).
Implicit Types (b src dst : block) (x y : T) (xs ys : list T).
Implicit Types (v : Vector T) (w : W).

Lemma elements_prefix v b' n :
  valid v -> n <= size_ v -> agree_below n (buffer_ (data_ v)) b' ->
  elements (with_size (with_buffer v b') n) = take n (elements v).
Proof.
  intros Hv Hn [Hlen Hsame]. pose proof Hv as (Hl & Hc & _).
  unfold elements at 1. simpl.
  assert (take n b' = take n (buffer_ (data_ v))) as ->.
  { apply list_eq. intros i. destruct (decide (i < n)) as [Hi|Hi].
    - rewrite !lookup_take_lt by done. by apply Hsame.
    - rewrite !lookup_take_ge by lia. done. }
  replace (take n (buffer_ (data_ v))) with (take n (take (size_ v) (buffer_ (data_ v)))).
  2:{ rewrite take_take. f_equal. lia. }
  rewrite (valid_take v Hv), <- fmap_take. apply omap_id_fmap_Some.
Qed.

Lemma PopBack_elements v w :
  valid v -> 0 < size_ v ->
  exists v', PopBack (w, v) = ((w, v'), Done tt) /\ valid v' /\
    size_ v' = size_ v - 1 /\ Capacity v' = Capacity v /\
    elements v' = take (size_ v - 1) (elements v) /\
    live (buffer_ (data_ v')) (size_ v - 1) = None.
Proof.
  intros Hv Hpos. pose proof Hv as (Hl & Hc & _).
  pose proof (proj1 (valid_alt v) Hv) as (_ & _ & Hlive & _).
  destruct (Hlive (size_ v - 1)) as [r Hr]; [lia|].
  pose proof (agree_below_insert (size_ v - 1) (buffer_ (data_ v)) (size_ v - 1) None
                (Nat.le_refl _)) as Hag.
  eexists. split; [by apply (PopBack_run v w r)|].
  split_and!.
  - apply valid_shrink; [done..|lia].
  - done.
  - done.
  - apply elements_prefix; [done|lia|done].
  - simpl. apply live_insert_eq. lia.
Qed.

(** X1.  [PopBack] on an empty vector trips its assert and changes
    nothing.  On a valid vector that is not empty it returns, and
    constructs, assigns and allocates nothing: the last element is
    destroyed, the others and the capacity stay. *)
Theorem PopBack_correct v w :
  (size_ v = 0 -> PopBack (w, v) = ((w, v), Fault)) /\
  (valid v -> 0 < size_ v ->
   exists v', PopBack (w, v) = ((w, v'), Done tt) /\
     size_ v' = size_ v - 1 /\ Capacity v' = Capacity v /\
     elements v' = take (size_ v - 1) (elements v) /\
     live (buffer_ (data_ v')) (size_ v - 1) = None).
Proof.
  split.
  - intros Hs. unfold PopBack. rewrite bind_this. simpl.
    unfold Empty. rewrite bool_decide_eq_true_2 by done. done.
  - intros Hv Hpos.
    destruct (PopBack_elements v w Hv Hpos) as (v' & Hrun & _ & Hrest).
    by exists v'.
Qed.

(** X2.  [Erase] at the last position does what [PopBack] does, and
    returns that position: no element is move-assigned. *)
Theorem Erase_last_is_PopBack v w :
  0 < size_ v <= Capacity v ->
  Erase (size_ v - 1) (w, v) =
    (fst (PopBack (w, v)),
     match snd (PopBack (w, v)) with
     | Done _ => Done (size_ v - 1)
     | Thrown => Thrown
     | Fault => Fault
     end).
Proof.
  intros [Hpos Hc]. unfold Erase.
  erewrite bind_Done by reflexivity.
  erewrite bind_Done by (by apply end_run).
  erewrite bind_Done.
  2:{ apply assert_run. rewrite andb_true_iff. split; apply bool_decide_eq_true_2; lia. }
  erewrite bind_Done by (by apply end_run).
  erewrite bind_Done.
  2:{ unfold on_data, std_move. simpl. rewrite bool_decide_eq_true_2 by lia.
      replace (size_ v - (size_ v - 1 + 1)) with 0 by lia. simpl.
      by rewrite with_buffer_id. }
  unfold bind. by destruct (PopBack (w, v)) as [s1 [[]| |]].
Qed.


Lemma Erase_elements `{!Lawful} v w pos s' o :
  valid v -> pos < size_ v ->
  Erase pos (w, v) = (s', o) -> o ≠ Thrown ->
  o = Done pos /\ size_ (snd s') = size_ v - 1 /\
  Capacity (snd s') = Capacity v /\
  elements (snd s') = take pos (elements v) ++ drop (S pos) (elements v).
Proof.
  intros Hv Hpos Hrun Ho.
  pose proof Hv as (Hlen & Hc & _).
  pose proof (length_elements v Hv) as Hxs.
  pose proof (valid_buffer v Hv) as Hbuf.
  set (pre := take pos (elements v)) in *.
  assert (length pre = pos) as Hpre by (unfold pre; rewrite length_take; lia).
  destruct (drop pos (elements v)) as [|x0 mid] eqn:Htail.
  { apply (f_equal length) in Htail. rewrite length_drop in Htail. simpl in Htail. lia. }
  assert (elements v = pre ++ x0 :: mid) as Hsplit.
  { rewrite <- Htail. unfold pre. by rewrite take_drop. }
  assert (drop (S pos) (elements v) = mid) as Hmid.
  { rewrite Hsplit. replace (S pos) with (length pre + 1) by lia.
    by rewrite drop_app_add. }
  assert (size_ v = pos + length mid + 1) as Hsize.
  { rewrite <- Hxs, Hsplit, length_app. simpl. lia. }
  set (rest := drop (size_ v) (buffer_ (data_ v))) in *.
  assert (buffer_ (data_ v) = (Some <$> pre) ++ Some x0 :: (Some <$> mid) ++ rest) as Hshape.
  { rewrite Hbuf, Hsplit, fmap_app, fmap_cons, <- app_assoc. done. }
  rewrite Hmid. clear Hmid Htail Hbuf.
  unfold Erase in Hrun.
  erewrite bind_Done in Hrun by reflexivity.
  erewrite bind_Done in Hrun by (by apply end_run).
  erewrite bind_Done in Hrun.
  2:{ apply assert_run. rewrite andb_true_iff.
      split; apply bool_decide_eq_true_2; lia. }
  erewrite bind_Done in Hrun by (by apply end_run).
  unfold bind at 1 in Hrun. unfold on_data, std_move in Hrun. simpl in Hrun.
  rewrite bool_decide_eq_true_2 in Hrun by lia.
  rewrite Hshape in Hrun.
  replace (size_ v - (pos + 1)) with (length mid) in Hrun by lia.
  replace (pos + 1) with (S (length (Some <$> pre))) in Hrun
    by (rewrite length_fmap; lia).
  replace pos with (length (Some <$> pre)) in Hrun at 1 by (by rewrite length_fmap).
  destruct (move_forward_n _ _ _ _ _) as [[w1 b1] o1] eqn:Hmf in Hrun.
  apply move_forward_n_shift in Hmf as (zs & -> & Hzs & Hf & Hdone).
  destruct o1 as [[]| |]; [|by injection Hrun as <- <-|done].
  destruct (Hdone eq_refl) as [r ->]. clear Hdone Hf.
  assert (((Some <$> pre) ++ (Some <$> mid ++ [r]) ++ rest) =
          ((Some <$> pre ++ mid) ++ Some r :: rest)) as Hb1.
  { rewrite !fmap_app, <- !app_assoc. done. }
  assert (length (Some <$> pre ++ mid) = size_ v - 1) as Hl1.
  { rewrite length_fmap, length_app. lia. }
  erewrite bind_Done in Hrun.
  2:{ apply (PopBack_run _ _ r); simpl; [lia | by unfold Capacity |].
      rewrite Hb1, <- Hl1. apply live_middle. }
  simpl in Hrun. unfold ret in Hrun. injection Hrun as <- <-. simpl.
  rewrite Hb1, <- Hl1, insert_middle, Hl1.
  split_and!; [done..|].
  apply elements_of; [apply holds_fmap_0|]. rewrite length_app. lia.
Qed.

Lemma Emplace_valid v w pos a s' o :
  valid v -> Emplace pos a (w, v) = (s', o) -> o ≠ Fault -> valid (snd s').
Proof. intros Hv Hrun Ho. by destruct (Emplace_shape v w pos a s' o Hv Hrun Ho). Qed.

(** X3.  [Insert(pos, x)] followed by [Erase] at the iterator it
    returned gives back the sequence the vector held, unless one of the
    two calls throws. *)
Theorem Insert_then_Erase `{!Lawful} v w pos x s' o :
  valid v -> pos <= size_ v -> (N.of_nat (size_ v) * 2 < 2 ^ 64)%N ->
  (it <- Insert_copy pos (External x);; Erase it) (w, v) = (s', o) -> o ≠ Thrown ->
  o = Done pos /\ size_ (snd s') = size_ v /\ elements (snd s') = elements v.
Proof.
  intros Hv Hpos Hsmall Hrun Ho.
  pose proof (length_elements v Hv) as Hlen.
  apply bind_inv in Hrun as [(s1 & it & Hins & Hrun) | [[Hins ->] | [Hins ->]]]; [|done|].
  - rewrite Insert_copy_Emplace in Hins by first [by apply valid_size_le | done].
    pose proof (Emplace_valid _ _ _ _ _ _ Hv Hins ltac:(done)) as Hv1.
    destruct (Emplace_correct v w pos _ x s1 (Done it) Hv Hpos Hsmall
                (passes_lvalue v x) Hins) as ([= ->] & Hs1 & He1); [done|].
    destruct s1 as [w1 v1]. simpl in *.
    destruct (Erase_elements v1 w1 pos s' o Hv1 ltac:(lia) Hrun Ho) as (-> & Hs & _ & He).
    split_and!; [done | lia |].
    rewrite He, He1, take_app_length' by (rewrite length_take; lia).
    rewrite cons_middle, app_assoc, drop_app_length'.
    + apply take_drop.
    + rewrite length_app, length_take. simpl. lia.
  - rewrite Insert_copy_Emplace in Hins by first [by apply valid_size_le | done].
    by destruct (Emplace_correct v w pos _ x s' Fault Hv Hpos Hsmall
                   (passes_lvalue v x) Hins).
Qed.


Lemma PushBack_Emplace_inv v w a s' o :
  valid v -> PushBack a (w, v) = (s', o) ->
  exists oe, Emplace (size_ v) a (w, v) = (s', oe) /\
    match oe with Done _ => o = Done tt | Thrown => o = Thrown | Fault => o = Fault end.
Proof.
  intros Hv Hrun. rewrite PushBack_EmplaceBack in Hrun.
  rewrite EmplaceBack_Emplace in Hrun by (by apply valid_size_le).
  destruct (Emplace (size_ v) a (w, v)) as [s1 oe]. simpl in Hrun.
  exists oe. by destruct oe; injection Hrun as <- <-.
Qed.

Lemma PushBack_appends `{!Lawful} v w a x s' o :
  valid v -> (N.of_nat (size_ v) * 2 < 2 ^ 64)%N -> passes v a x ->
  PushBack a (w, v) = (s', o) -> o ≠ Thrown ->
  o = Done tt /\ valid (snd s') /\ size_ (snd s') = S (size_ v) /\
  Capacity (snd s') = capacity_after (size_ v) (Capacity v) /\
  elements (snd s') = elements v ++ [x].
Proof.
  intros Hv Hsmall Hpass Hrun Ho.
  apply PushBack_Emplace_inv in Hrun as (oe & Hem & Hoe); [|done].
  assert (oe ≠ Thrown) as Hne by (by intros ->).
  destruct (Emplace_correct v w (size_ v) a x s' oe Hv (Nat.le_refl _) Hsmall Hpass Hem Hne)
    as (-> & Hs & He).
  destruct (Emplace_shape v w (size_ v) a s' _ Hv Hem ltac:(done)) as (Hv' & _ & _ & Hc).
  split_and!; [done..|].
  rewrite He, <- (length_elements v Hv), take_ge, drop_ge by lia. done.
Qed.

(** X4.  [PushBack] followed by [PopBack] gives back the size and the
    sequence the vector had, unless the [PushBack] throws; the capacity
    is the one the [PushBack] left. *)
Theorem PushBack_then_PopBack `{!Lawful} v w a x s' o :
  valid v -> (N.of_nat (size_ v) * 2 < 2 ^ 64)%N -> passes v a x ->
  (PushBack a;;; PopBack) (w, v) = (s', o) -> o ≠ Thrown ->
  o = Done tt /\ size_ (snd s') = size_ v /\ elements (snd s') = elements v /\
  Capacity (snd s') = capacity_after (size_ v) (Capacity v).
Proof.
  intros Hv Hsmall Hpass Hrun Ho.
  apply bind_inv in Hrun as [(s1 & [] & Hpush & Hrun) | [[Hpush ->] | [Hpush ->]]]; [|done|].
  - destruct (PushBack_appends v w a x s1 _ Hv Hsmall Hpass Hpush ltac:(done))
      as (_ & Hv1 & Hs1 & Hc1 & He1).
    destruct s1 as [w1 v1]. simpl in *.
    destruct (PopBack_elements v1 w1 Hv1 ltac:(lia)) as (v' & Hpop & _ & Hs & Hc & He & _).
    rewrite Hpop in Hrun. injection Hrun as <- <-. simpl.
    split_and!; [done | lia | | congruence].
    rewrite He, He1, Hs1, take_app_length'; [done|].
    rewrite (length_elements v Hv). lia.
  - by destruct (PushBack_appends v w a x s' _ Hv Hsmall Hpass Hpush).
Qed.

(** X5.  [PushBack] of the values [xs], one after the other, on a valid
    vector leaves it holding its old sequence followed by [xs], unless a
    call throws. *)
Theorem push_all_appends `{!Lawful} xs : forall v w s' o,
  valid v -> (N.of_nat (size_ v + length xs) <= 2 ^ 63)%N ->
  push_all ((fun x => Lvalue (External x)) <$> xs) (w, v) = (s', o) -> o ≠ Thrown ->
  o = Done tt /\ size_ (snd s') = size_ v + length xs /\
  elements (snd s') = elements v ++ xs.
Proof.
  induction xs as [|x xs IH]; intros v w s' o Hv Hsmall Hrun Ho.
  - simpl in Hrun. injection Hrun as <- <-. simpl.
    split_and!; [done | lia | by rewrite app_nil_r].
  - rewrite fmap_cons in Hrun. cbn [push_all] in Hrun.
    simpl in Hsmall.
    assert ((N.of_nat (size_ v) * 2 < 2 ^ 64)%N) as Hsmall1 by lia.
    apply bind_inv in Hrun as [(s1 & [] & Hpush & Hrun) | [[Hpush ->] | [Hpush ->]]]; [|done|].
    + destruct (PushBack_appends v w _ x s1 _ Hv Hsmall1 (passes_lvalue v x) Hpush
                  ltac:(done)) as (_ & Hv1 & Hs1 & _ & He1).
      destruct s1 as [w1 v1]. simpl in *.
      destruct (IH v1 w1 s' o Hv1 ltac:(lia) Hrun Ho) as (-> & Hs & He).
      split_and!; [done | lia |].
      by rewrite He, He1, <- app_assoc.
    + by destruct (PushBack_appends v w _ x s' _ Hv Hsmall1 (passes_lvalue v x) Hpush).
Qed.

(** X6.  [Insert(pos, v[j])] and [PushBack(v[j])] of a [const T&] to
    an element of the vector itself insert the value that element had,
    also when the vector is full and the elements go to a new block: the
    new object is constructed before any element is transferred. *)
Theorem own_element_at_any_capacity `{!Lawful} v w pos j x s' :
  valid v -> pos <= size_ v -> (N.of_nat (size_ v) * 2 < 2 ^ 64)%N ->
  elements v !! j = Some x ->
  (forall o, Insert_copy pos (Element j) (w, v) = (s', o) -> o ≠ Thrown ->
     o = Done pos /\
     elements (snd s') = take pos (elements v) ++ x :: drop pos (elements v)) /\
  (forall o, PushBack (Lvalue (Element j)) (w, v) = (s', o) -> o ≠ Thrown ->
     o = Done tt /\ elements (snd s') = elements v ++ [x]).
Proof.
  intros Hv Hpos Hsmall Hj.
  assert (passes v (Lvalue (Element j) : arg T A) x) as Hpass.
  { constructor. by apply elements_live. }
  split; intros o Hrun Ho.
  - rewrite Insert_copy_Emplace in Hrun by first [by apply valid_size_le | done].
    by destruct (Emplace_correct v w pos _ x s' o Hv Hpos Hsmall Hpass Hrun Ho)
      as (? & _ & ?).
  - by destruct (PushBack_appends v w _ x s' o Hv Hsmall Hpass Hrun Ho)
      as (? & _ & _ & _ & ?).
Qed.


(** ** Element access and positions out of range *)

Lemma Vector_index_reads v w i x :
  valid v -> elements v !! i = Some x ->
  (j <- Vector_index i;; object_at j) (w, v) = ((w, v), Done x).
Proof.
  intros Hv Hi. pose proof Hv as (_ & Hc & _).
  pose proof (lookup_lt_Some _ _ _ Hi) as Hlt. rewrite (length_elements v Hv) in Hlt.
  unfold Vector_index. rewrite bind_assoc, bind_this.
  rewrite bind_assoc. erewrite bind_Done.
  2:{ apply assert_run. by apply bool_decide_eq_true_2. }
  erewrite bind_Done by (apply data_index_run; unfold Capacity; lia).
  unfold object_at. rewrite bind_this. simpl.
  by rewrite (elements_live v i x Hv Hi).
Qed.

(** X7.  On a valid vector [operator[](i)] refers to the [i]-th element
    of the sequence when [i < size], and trips its assert otherwise; it
    changes nothing. *)
Theorem Vector_index_correct v w i :
  valid v ->
  (j <- Vector_index i;; object_at j) (w, v) =
    ((w, v), match elements v !! i with Some x => Done x | None => Fault end).
Proof.
  intros Hv. destruct (elements v !! i) as [x|] eqn:Hi.
  - by apply Vector_index_reads.
  - apply lookup_ge_None_1 in Hi. rewrite (length_elements v Hv) in Hi.
    unfold Vector_index. rewrite bind_assoc, bind_this. simpl.
    rewrite bool_decide_eq_false_2 by lia. done.
Qed.

(** X8.  After [Insert(pos, x)] has returned the iterator [it],
    [operator[]] at [it] reads [x]. *)
Theorem Insert_then_index `{!Lawful} v w pos x s' it :
  valid v -> pos <= size_ v -> (N.of_nat (size_ v) * 2 < 2 ^ 64)%N ->
  Insert_copy pos (External x) (w, v) = (s', Done it) \/
  Insert_move pos (External x) (w, v) = (s', Done it) ->
  (j <- Vector_index it;; object_at j) s' = (s', Done x).
Proof.
  intros Hv Hpos Hsmall Hrun.
  pose proof (length_elements v Hv) as Hlen.
  assert (exists a, passes v a x /\ Emplace pos a (w, v) = (s', Done it))
    as (a & Hpass & Hem).
  { destruct Hrun as [Hrun|Hrun].
    - rewrite Insert_copy_Emplace in Hrun by first [by apply valid_size_le | done].
      eexists. split; [apply passes_lvalue | done].
    - rewrite Insert_move_Emplace in Hrun by first [by apply valid_size_le | done].
      eexists. split; [apply passes_rvalue | done]. }
  pose proof (Emplace_valid _ _ _ _ _ _ Hv Hem ltac:(done)) as Hv1.
  destruct (Emplace_correct v w pos a x s' _ Hv Hpos Hsmall Hpass Hem ltac:(done))
    as ([= ->] & _ & He).
  destruct s' as [w1 v1]. apply Vector_index_reads; [done|]. simpl in He.
  rewrite He. rewrite lookup_app_r by (rewrite length_take; lia).
  rewrite length_take. by replace (pos - pos `min` length (elements v)) with 0 by lia.
Qed.

(** X9.  A position past [end()] trips the assert of [Emplace] and of
    both [Insert], a position at or past [end()] that of [Erase], and an
    index at or past the size that of [operator[]]; the vector and the
    world are untouched. *)
Theorem out_of_range_faults v w pos :
  (size_ v < pos -> forall a value,
     Emplace pos a (w, v) = ((w, v), Fault) /\
     Insert_copy pos value (w, v) = ((w, v), Fault) /\
     Insert_move pos value (w, v) = ((w, v), Fault)) /\
  (size_ v <= pos ->
     Erase pos (w, v) = ((w, v), Fault) /\
     Vector_index pos (w, v) = ((w, v), Fault)).
Proof.
  assert (forall (c : nat -> bool) {B} (k : Mv B),
    (forall e, e = size_ v -> c e = false) ->
    (b <- begin_;; e <- end_;; assert (bool_decide (b <= pos) && c e);;; k) (w, v)
      = ((w, v), Fault)) as Hguard.
  { intros c B k Hc. erewrite bind_Done by reflexivity.
    unfold end_. rewrite bind_assoc, bind_this. unfold data_plus.
    rewrite bind_assoc, bind_this. unfold bind at 1. simpl. unfold RawMemory_plus.
    case_bool_decide; simpl; [|done].
    rewrite Hc by done. done. }
  split.
  - intros Hpos a value. split_and!.
    + unfold Emplace. apply (Hguard (fun e => bool_decide (pos <= e))).
      intros e ->. apply bool_decide_eq_false_2. lia.
    + unfold Insert_copy. apply (Hguard (fun e => bool_decide (pos <= e))).
      intros e ->. apply bool_decide_eq_false_2. lia.
    + unfold Insert_move. apply (Hguard (fun e => bool_decide (pos <= e))).
      intros e ->. apply bool_decide_eq_false_2. lia.
  - intros Hpos. split.
    + unfold Erase. apply (Hguard (fun e => bool_decide (pos < e))).
      intros e ->. apply bool_decide_eq_false_2. lia.
    + unfold Vector_index. rewrite bind_this. simpl.
      by rewrite bool_decide_eq_false_2 by lia.
Qed.


(** ** Capacity *)

Lemma capacity_after_spare n c : n < c -> capacity_after n c = c.
Proof. intros H. unfold capacity_after. by rewrite bool_decide_eq_true_2. Qed.

Lemma PushBack_capacity v w a s' o :
  valid v -> PushBack a (w, v) = (s', o) -> o ≠ Fault ->
  valid (snd s') /\
  match o with
  | Done _ => size_ (snd s') = S (size_ v) /\
      Capacity (snd s') = capacity_after (size_ v) (Capacity v)
  | _ => size_ (snd s') = size_ v /\ Capacity (snd s') = Capacity v
  end.
Proof.
  intros Hv Hrun Ho.
  apply PushBack_Emplace_inv in Hrun as (oe & Hem & Hoe); [|done].
  assert (oe ≠ Fault) as Hne by (intros ->; by subst o).
  destruct (Emplace_shape v w (size_ v) a s' oe Hv Hem Hne) as (Hv' & Hsh).
  split; [done|]. destruct oe; subst o; [|done..]. by destruct Hsh as (_ & ? & ?).
Qed.

Lemma push_all_spare values : forall v w s' o,
  valid v -> size_ v + length values <= Capacity v ->
  push_all values (w, v) = (s', o) -> o ≠ Fault ->
  valid (snd s') /\ Capacity (snd s') = Capacity v /\
  (o = Done tt -> size_ (snd s') = size_ v + length values).
Proof.
  induction values as [|a values IH]; intros v w s' o Hv Hroom Hrun Ho.
  - simpl in Hrun. injection Hrun as <- <-. simpl. split_and!; [done..|]. intros _. lia.
  - cbn [push_all] in Hrun. simpl in Hroom.
    apply bind_inv in Hrun as [(s1 & [] & Hpush & Hrun) | [[Hpush ->] | [Hpush ->]]]; [| |done].
    + destruct (PushBack_capacity v w a s1 _ Hv Hpush ltac:(done)) as (Hv1 & Hs1 & Hc1).
      rewrite capacity_after_spare in Hc1 by lia.
      destruct s1 as [w1 v1]. simpl in *.
      destruct (IH v1 w1 s' o Hv1 ltac:(lia) Hrun Ho) as (Hv' & Hc' & Hs').
      split_and!; [done | congruence |]. intros Hd. rewrite (Hs' Hd). lia.
    + destruct (PushBack_capacity v w a s' _ Hv Hpush ltac:(done)) as (Hv1 & _ & Hc1).
      by split_and!.
Qed.

(** X10.  While the size stays within the capacity nothing is
    reallocated: an [Emplace] into a vector with spare capacity, and any
    number of [PushBack] that fit, leave the capacity as it was, whether
    they return or throw; so after [Reserve(n)] the vector takes
    elements up to size [n] at capacity [n]. *)
Theorem spare_capacity_kept v w :
  valid v ->
  (forall pos a s' o, size_ v < Capacity v ->
     Emplace pos a (w, v) = (s', o) -> o ≠ Fault -> Capacity (snd s') = Capacity v) /\
  (forall values s' o, size_ v + length values <= Capacity v ->
     push_all values (w, v) = (s', o) -> o ≠ Fault -> Capacity (snd s') = Capacity v) /\
  (forall n values s', Capacity v <= n -> size_ v + length values <= n ->
     (Reserve n;;; push_all values) (w, v) = (s', Done tt) ->
     Capacity (snd s') = n /\ size_ (snd s') = size_ v + length values).
Proof.
  intros Hv. split_and!.
  - intros pos a s' o Hspare Hrun Ho.
    destruct (Emplace_shape v w pos a s' o Hv Hrun Ho) as (_ & Hsh).
    destruct o as [it| |]; [|by destruct Hsh..].
    destruct Hsh as (_ & _ & ->). by apply capacity_after_spare.
  - intros values s' o Hroom Hrun Ho.
    by destruct (push_all_spare values v w s' o Hv Hroom Hrun Ho) as (_ & ? & _).
  - intros n values s' Hn Hroom Hrun.
    apply bind_inv in Hrun as [(s1 & [] & Hres & Hrun) | [[_ ?] | [_ ?]]]; [|done..].
    apply Reserve_numbers in Hres as (Hs1 & Hc1 & _). specialize (Hc1 eq_refl).
    destruct s1 as [w1 v1]. simpl in *.
    destruct (push_all_numbers values v1 w1 s' ltac:(lia) Hrun) as [Hc' Hs'].
    split; lia.
Qed.

(** X11.  [Reserve(n)] followed by [Reserve(m)] with [m <= n] is
    [Reserve(n)]. *)
Theorem Reserve_twice v w n m :
  valid v -> m <= n ->
  (Reserve n;;; Reserve m) (w, v) = Reserve n (w, v).
Proof.
  intros Hv Hm. unfold bind at 1.
  destruct (Reserve n (w, v)) as [[w1 v1] [[]| |]] eqn:Hres; [|done..].
  apply Reserve_numbers in Hres as (_ & Hc & _).
  specialize (Hc eq_refl). simpl in Hc.
  apply Reserve_small. lia.
Qed.


(** ** [Resize] *)

Lemma take_agree_below n b b' : agree_below n b b' -> take n b' = take n b.
Proof.
  intros [_ Hsame]. apply list_eq. intros i. destruct (decide (i < n)) as [Hi|Hi].
  - rewrite !lookup_take_lt by done. by apply Hsame.
  - by rewrite !lookup_take_ge by lia.
Qed.

Lemma elements_take v n xs :
  valid v -> n <= size_ v -> take n (buffer_ (data_ v)) = Some <$> xs ->
  take n (elements v) = xs.
Proof.
  intros Hv Hn Hxs.
  rewrite <- (omap_id_fmap_Some xs), <- Hxs.
  rewrite <- (omap_id_fmap_Some (take n (elements v))), fmap_take, <- (valid_take v Hv).
  rewrite take_take. do 2 f_equal. lia.
Qed.

(** A transfer that returned has found a slot for every element. *)
Lemma ReinicializationDataIn_room new_data s s' :
  ReinicializationDataIn new_data s = (s', Done tt) ->
  size_ (snd s) <= length (buffer_ new_data).
Proof.
  unfold ReinicializationDataIn. rewrite bind_this. intros Hrun.
  destruct (decide (size_ (snd s) = 0)) as [->|Hpos]; [lia|].
  minv Hrun. clear Hrun. simpl in Hstep. destruct transfer_by_move.
  - destruct (uninitialized_move_n _ _ _ _ _ _) as [[[w1 src1] dst1] [[]| |]] eqn:Hm;
      [|done..].
    apply uninitialized_move_n_filled, filled_room in Hm; lia.
  - destruct (uninitialized_copy_n _ _ _ _ _ _) as [[w1 dst1] [[]| |]] eqn:Hm;
      [|done..].
    apply uninitialized_copy_n_filled, filled_room in Hm; lia.
Qed.

(** [Reserve] that returned has kept the size and the elements and left
    the capacity [max(n, capacity)], whatever block it got. *)
Lemma Reserve_returned `{!Lawful} v w n s' :
  valid v -> Reserve n (w, v) = (s', Done tt) ->
  size_ (snd s') = size_ v /\ elements (snd s') = elements v /\
  Capacity (snd s') = n `max` Capacity v.
Proof.
  intros Hv Hrun. destruct (decide (n <= Capacity v)) as [Hle|Hgt].
  - rewrite Reserve_small in Hrun by done. injection Hrun as <-. simpl.
    split_and!; [done..|lia].
  - apply Reserve_grow in Hrun as (w1 & ok & _ & Hre); [|lia].
    destruct ok; [|by destruct Hre].
    pose proof (ReinicializationDataIn_room _ _ _ Hre) as Hroom.
    apply ReinicializationDataIn_done in Hre as (Hcap & Hs & He & _); [|done..].
    split_and!; [done..|]. rewrite Hcap. simpl. lia.
Qed.

Lemma Reserve_done `{!Lawful} v w n s' o :
  valid v -> representable n -> Reserve n (w, v) = (s', o) -> o ≠ Thrown ->
  o = Done tt /\ valid (snd s') /\ size_ (snd s') = size_ v /\
  elements (snd s') = elements v /\ Capacity (snd s') = n `max` Capacity v.
Proof.
  intros Hv Hrep Hrun Ho.
  destruct (Reserve_shape v w n s' o Hv Hrep Hrun) as (Hnf & Hv' & _).
  destruct o as [[]| |]; [|done..].
  destruct (Reserve_returned v w n s' Hv Hrun) as (? & ? & ?). by split_and!.
Qed.

(** C7.  [Reserve(n)] for an [n] above the capacity whose byte count
    [n * sizeof(T)] has wrapped in [size_t]: the block [Allocate] gets
    has fewer than [n] slots.  When the vector holds more elements than
    that, the call does not return: the allocation or a copy throws, or
    the transfer writes past the block.  When it returns, the vector
    has its size and its elements and [capacity_] is [n], over a block
    of fewer slots: the vector is not valid, and there is no block of
    [n] slots. *)
Theorem Reserve_wraps `{!Lawful} v w n s' o :
  valid v -> Capacity v < n -> ~ representable n ->
  Reserve n (w, v) = (s', o) ->
  alloc_slots n < n /\
  (alloc_slots n < size_ v -> o = Thrown \/ o = Fault) /\
  (o = Done tt ->
   size_ (snd s') = size_ v /\ elements (snd s') = elements v /\
   Capacity (snd s') = n /\
   length (buffer_ (data_ (snd s'))) = alloc_slots n /\ ~ valid (snd s')).
Proof.
  intros Hv Hn Hwrap Hrun. pose proof (alloc_slots_wrapped n Hwrap) as Hslots.
  assert (o = Done tt ->
          size_ v <= alloc_slots n /\
          length (buffer_ (data_ (snd s'))) = alloc_slots n) as Hdone.
  { intros ->. apply Reserve_grow in Hrun as (w1 & ok & _ & Hre); [|done].
    destruct ok; [|by destruct Hre].
    pose proof (ReinicializationDataIn_room _ _ _ Hre) as Hroom.
    apply ReinicializationDataIn_done in Hre as (_ & _ & _ & Hlen); [|done..].
    simpl in *. rewrite length_replicate in Hroom, Hlen. done. }
  split_and!; [done| |].
  - intros Hmore. destruct o as [[]| |]; [|by left|by right].
    destruct (Hdone eq_refl) as [Hroom _]. lia.
  - intros ->. destruct (Hdone eq_refl) as [_ Hlen].
    destruct (Reserve_returned v w n s' Hv Hrun) as (Hs & He & Hc).
    assert (Capacity (snd s') = n) as Hcap by lia.
    split_and!; [done..|]. intros (Hl & _). unfold Capacity in Hcap. lia.
Qed.

(** X25.  [Reserve(n)], for an [n] whose byte count [size_t] can hold,
    unless it throws, returns and leaves a valid vector of capacity
    [max(n, capacity)] with the size and the elements it had: for
    [n <= capacity] nothing is done at all, and for [n > capacity] the
    elements are in a new block of [n] slots. *)
Theorem Reserve_correct `{!Lawful} v w n :
  valid v -> representable n ->
  (n <= Capacity v -> Reserve n (w, v) = ((w, v), Done tt)) /\
  (Capacity v < n -> forall s' o, Reserve n (w, v) = (s', o) -> o ≠ Thrown ->
   o = Done tt /\ valid (snd s') /\ Capacity (snd s') = n /\
   length (buffer_ (data_ (snd s'))) = n /\
   size_ (snd s') = size_ v /\ elements (snd s') = elements v).
Proof.
  intros Hv Hrep. split; [apply Reserve_small|].
  intros Hn s' o Hrun Ho.
  destruct (Reserve_done v w n s' o Hv Hrep Hrun Ho) as (-> & Hv' & Hs & He & Hc).
  assert (Capacity (snd s') = n) as Hcap by lia.
  split_and!; [done..| |done|done].
  destruct Hv' as (Hl & _). unfold Capacity in Hcap. congruence.
Qed.

Lemma uninitialized_value_construct_n_no_fault n : forall w dst (d : nat) w' dst',
  d + n <= length dst ->
  uninitialized_value_construct_n w dst d n ≠ (w', dst', Fault).
Proof.
  induction n as [|n IH]; intros w dst d w' dst' Hroom; simpl; [done|].
  rewrite (proj2 (in_block_true dst d)) by lia.
  destruct (value_construct w) as [w1 [y|]]; [|done].
  destruct (uninitialized_value_construct_n w1 (<[d:=Some y]> dst) (S d) n)
    as [[w2 dst2] [[]| |]] eqn:Hrec; [done..|].
  exfalso. eapply (IH w1 (<[d:=Some y]> dst) (S d)); [|done].
  rewrite length_insert. lia.
Qed.

(** X12.  [Resize(n)] with [n <= size] returns, constructs and
    allocates nothing, and leaves the first [n] elements and the
    capacity.  With [n > size], for an [n] whose byte count [size_t]
    can hold, unless it throws, it returns and leaves a valid vector of
    [n] elements of which the first [size] are the old ones, at
    capacity [max(n, capacity)]. *)
Theorem Resize_correct `{!Lawful} v w n :
  valid v ->
  (n <= size_ v ->
   exists v', Resize n (w, v) = ((w, v'), Done tt) /\ size_ v' = n /\
     Capacity v' = Capacity v /\ elements v' = take n (elements v)) /\
  (size_ v < n -> representable n ->
   forall s' o, Resize n (w, v) = (s', o) -> o ≠ Thrown ->
   o = Done tt /\ valid (snd s') /\ size_ (snd s') = n /\
   length (elements (snd s')) = n /\
   Capacity (snd s') = n `max` Capacity v /\
   take (size_ v) (elements (snd s')) = elements v).
Proof.
  intros Hv. pose proof Hv as (Hl & Hc & _). split.
  - intros Hn. unfold Resize. rewrite bind_this. simpl.
    rewrite bool_decide_eq_true_2 by done.
    rewrite bind_assoc. erewrite bind_Done by (apply data_plus_run; unfold Capacity; lia).
    pose proof (holds_drop_all _ _ n (valid_holds v Hv)) as Hh. simpl in Hh.
    destruct (destroy_n_holds _ _ _ Hh) as [b1 Hd].
    rewrite length_drop, (length_elements v Hv) in Hd.
    erewrite bind_Done.
    2:{ unfold destroy_data. rewrite bind_this. simpl. rewrite Hd. reflexivity. }
    rewrite bind_this. unfold set_this. simpl.
    eexists. split; [reflexivity|]. split_and!; [done..|].
    apply destroy_n_below in Hd. by apply elements_prefix.
  - intros Hn Hrep s' o Hrun Ho.
    pose proof (Resize_shape v w n s' o Hv Hrep Hrun) as Hv'.
    unfold Resize in Hrun. rewrite bind_this in Hrun. simpl in Hrun.
    rewrite bool_decide_eq_false_2 in Hrun by lia.
    rewrite bind_assoc in Hrun.
    apply bind_inv in Hrun as [(s1 & [] & Hres & Hrun) | [[Hres ->] | [Hres ->]]];
      [|done|by destruct (Reserve_shape v w n _ _ Hv Hrep Hres)].
    destruct (Reserve_done v w n s1 _ Hv Hrep Hres ltac:(done))
      as (_ & Hv1 & Hs1 & He1 & Hc1).
    destruct s1 as [w1 v1]. simpl in *. pose proof Hv1 as (Hl1 & _ & _).
    rewrite bind_assoc, bind_this in Hrun. simpl in Hrun.
    rewrite bind_assoc in Hrun.
    erewrite bind_Done in Hrun by (apply data_plus_run; lia).
    apply bind_inv in Hrun as [(s2 & [] & Hfill & Hrun) | [[Hfill ->] | [Hfill ->]]]; [|done|].
    + apply on_data_inv in Hfill as (w2 & b2 & Hfill & ->). simpl in Hfill.
      apply uninitialized_value_construct_n_filled in Hfill.
      rewrite bind_this in Hrun. apply set_this_inv in Hrun as [-> ->]. simpl in *.
      specialize (Hv' ltac:(done)).
      split_and!; [done | done | done | by rewrite (length_elements _ Hv') | done |].
      rewrite <- He1, <- Hs1. apply elements_take; [done | simpl; lia |]. simpl.
      rewrite (take_agree_below _ _ _ (filled_below _ _ _ _ Hfill)).
      by apply valid_take.
    + apply on_data_inv in Hfill as (w2 & b2 & Hfill & ->). simpl in Hfill.
      exfalso. eapply uninitialized_value_construct_n_no_fault; [|done].
      unfold Capacity in *. lia.
Qed.


(** ** Constructors, destructor and copy assignment *)

Lemma RawMemory_sized_no_fault n w w1 : RawMemory_sized (T := T) n w ≠ (w1, Fault).
Proof.
  unfold RawMemory_sized, Allocate. case_bool_decide; [|done].
  by destruct (operator_new (alloc_bytes n) w) as [w2 []].
Qed.

(** X13.  [Vector(n)], for an [n] whose byte count [size_t] can hold,
    constructs nothing outside its block; when [Vector(n)] returns, the
    vector is valid and has size and capacity [n], and [n] is such a
    number: with a byte count that has wrapped the constructor does not
    return.  [Vector(0)] is the empty vector without a block, and calls
    neither the allocator nor a constructor. *)
Theorem Vector_sized_correct n w :
  (representable n -> forall w', Vector_sized n w ≠ (w', Fault)) /\
  (forall w' v, Vector_sized n w = (w', Done v) ->
     representable n /\ valid v /\ size_ v = n /\ Capacity v = n /\
     length (elements v) = n) /\
  (n = 0 -> Vector_sized n w = (w, Done Vector_default)).
Proof.
  split_and!.
  - intros Hrep w'. unfold Vector_sized.
    destruct (RawMemory_sized n w) as [w1 [m| |]] eqn:Hm;
      [|done|by apply RawMemory_sized_no_fault in Hm].
    apply RawMemory_sized_inv in Hm as (Hcap & Hlen & _).
    rewrite alloc_slots_representable in Hlen by done.
    destruct (uninitialized_value_construct_n _ _ _ _) as [[w2 b] [[]| |]] eqn:Hfill;
      [done..|].
    exfalso. eapply uninitialized_value_construct_n_no_fault; [|done]. lia.
  - intros w' v Hrun. pose proof (Vector_sized_valid _ _ _ _ Hrun) as Hv.
    split.
    { destruct Hv as (_ & _ & _ & Hfit).
      apply Vector_sized_numbers in Hrun as [_ Hc]. unfold Capacity in Hc.
      rewrite Hc in Hfit. unfold representable. lia. }
    unfold Vector_sized in Hrun.
    destruct (RawMemory_sized n w) as [w1 [m| |]] eqn:Hm; [|done..].
    apply RawMemory_sized_inv in Hm as (Hcap & Hlen & _).
    destruct (uninitialized_value_construct_n _ _ _ _) as [[w2 b] [[]| |]]; [|done..].
    injection Hrun as <- <-.
    split_and!; [done..|]. by rewrite (length_elements _ Hv).
  - intros ->. unfold Vector_sized, RawMemory_sized, Allocate.
    by rewrite bool_decide_eq_false_2 by (by intros []).
Qed.

Lemma Vector_copy_elements `{!Lawful} (other : Vector T) w w' o :
  valid other -> Vector_copy other w = (w', o) -> o ≠ Thrown ->
  exists v, o = Done v /\ valid v /\ size_ v = size_ other /\
    Capacity v = size_ other /\ elements v = elements other.
Proof.
  intros Hv Hrun Ho. unfold Vector_copy in Hrun.
  destruct (RawMemory_sized (size_ other) w) as [w1 [m| |]] eqn:Hm;
    [| by injection Hrun as <- <- | by apply RawMemory_sized_no_fault in Hm].
  apply RawMemory_sized_fit in Hm as (Hcap & Hlen & Hfit);
    [|by eapply valid_representable, valid_size_le].
  pose proof (length_elements other Hv) as Hxs.
  destruct (uninitialized_copy_n_each (elements other) w1 (buffer_ (data_ other)) 0
              (buffer_ m) 0 (valid_holds other Hv) ltac:(simpl; lia))
    as (dst' & Hcopy & Hl' & Hys).
  rewrite Hxs in Hcopy. rewrite Hcopy in Hrun.
  destruct (snd (copy_each (elements other) w1)) as [ys|] eqn:Hsome;
    [|by injection Hrun as <- <-].
  injection Hrun as <- <-.
  destruct (Hys ys eq_refl) as [-> Hlys].
  apply copy_each_value in Hsome as ->.
  eexists. split; [reflexivity|].
  split_and!; simpl; [|done..|].
  - apply (valid_intro _ _ _ (elements other));
      [congruence | lia | | done | by rewrite Hcap].
    apply holds_write_at. simpl. lia.
  - apply elements_write_at; [lia | done].
Qed.

Lemma Vector_destroy_valid v : valid v -> Vector_destroy v = Done tt.
Proof.
  intros Hv. unfold Vector_destroy.
  destruct (destroy_n_holds _ _ _ (valid_holds v Hv)) as [b Hb].
  rewrite (length_elements v Hv) in Hb. by rewrite Hb.
Qed.

(** X14.  The copy of a valid vector, unless the allocation or a copy
    constructor throws, holds the same sequence, and its capacity is the
    size of the source, not its capacity. *)
Theorem copy_construction `{!Lawful} (other : Vector T) w w' o :
  valid other -> Vector_copy other w = (w', o) -> o ≠ Thrown ->
  exists v, o = Done v /\ size_ v = size_ other /\ Capacity v = size_ other /\
    elements v = elements other.
Proof.
  intros Hv Hrun Ho.
  destruct (Vector_copy_elements other w w' o Hv Hrun Ho) as (v & -> & Hv' & Hs & Hc & He).
  by exists v.
Qed.

Lemma destroy_n_live n : forall b (p : nat),
  is_Some (destroy_n b p n) <-> forall i, p <= i < p + n -> is_Some (live b i).
Proof.
  induction n as [|n IH]; intros b p; simpl.
  - split; [intros _ i Hi; lia | by eexists].
  - destruct (live b p) as [x|] eqn:Hp.
    + rewrite IH. split; intros Hall i Hi.
      * destruct (decide (i = p)) as [->|Hne]; [by rewrite Hp|].
        rewrite <- (live_insert_ne b p i None) by done. apply Hall. lia.
      * rewrite live_insert_ne by lia. apply Hall. lia.
    + split; [by intros [? ?]|]. intros Hall.
      destruct (Hall p ltac:(lia)) as [x Hx]. congruence.
Qed.

(** X15.  The destructor finds an object to destroy in each slot
    exactly when the slots below [size_] are all live. *)
Theorem Vector_destroy_defined v :
  Vector_destroy v = Done tt <->
  forall i, i < size_ v -> is_Some (live (buffer_ (data_ v)) i).
Proof.
  unfold Vector_destroy.
  pose proof (destroy_n_live (size_ v) (buffer_ (data_ v)) 0) as Hlive.
  destruct (destroy_n (buffer_ (data_ v)) 0 (size_ v)) as [b|].
  - split; [|done]. intros _ i Hi. apply Hlive; [by eexists | lia].
  - split; [done|]. intros Hall.
    destruct (proj2 Hlive) as [? ?]; [|done]. intros i Hi. apply Hall. lia.
Qed.


Lemma copy_n_assigns `{!Lawful} xs : forall w src (s : nat) dst (d : nat) ys w' dst' o,
  holds src s xs -> holds dst d ys -> length ys = length xs ->
  copy_n w src s (length xs) dst d = (w', dst', o) ->
  o ≠ Fault /\ (o = Done tt -> dst' = write_at dst d xs).
Proof.
  induction xs as [|x xs IH]; intros w src s dst d ys w' dst' o Hsrc Hdst Hlen; simpl.
  - intros [= <- <- <-]. split; [done|]. intros _. by rewrite write_at_nil.
  - destruct ys as [|y ys]; [done|]. simpl in Hlen.
    apply holds_cons in Hsrc as [Hx Hsrc]. apply holds_cons in Hdst as [Hy Hdst].
    rewrite (proj2 (live_Some src s x) Hx), (proj2 (live_Some dst d y) Hy).
    pose proof (lookup_lt_Some _ _ _ Hy) as Hd.
    destruct (copy_assign y x w) as [w1 [y' []]] eqn:Hassign.
    + apply copy_assign_value in Hassign as ->. intros Hrun.
      apply (IH _ _ _ _ _ ys) in Hrun as [Hf Hdone];
        [| done | apply holds_insert_lt; [lia | done] | lia].
      split; [done|]. intros Ho. rewrite (Hdone Ho). by apply write_at_cons.
    + by intros [= <- <- <-].
Qed.

Lemma assign_from_elements `{!Lawful} v (other : Vector T) w s' o :
  valid v -> valid other ->
  assign_from other (w, v) = (s', o) -> o ≠ Thrown ->
  o = Done tt /\ valid (snd s') /\ size_ (snd s') = size_ other /\
  elements (snd s') = elements other /\
  Capacity (snd s') =
    if bool_decide (Capacity v < size_ other) then size_ other else Capacity v.
Proof.
  intros Hv Hother Hrun Ho.
  pose proof Hv as (Hl & Hc & _ & Hfitv). pose proof Hother as (Hlo & Hco & _).
  pose proof (length_elements v Hv) as Hxs.
  pose proof (length_elements other Hother) as Hys.
  unfold assign_from in Hrun. rewrite bind_this in Hrun. simpl in Hrun.
  case_bool_decide as Hbig.
  - (* a copy is made and swapped in *)
    apply bind_inv in Hrun as [(s1 & c & Hcopy & Hrun) | [[Hcopy ->] | [Hcopy ->]]]; [|done|].
    + apply in_world_inv in Hcopy as (w1 & Hcopy & ->). simpl in Hcopy.
      destruct (Vector_copy_elements other w w1 _ Hother Hcopy ltac:(done))
        as (c' & [= <-] & Hvc & Hsc & Hcc & Hec).
      rewrite (bind_Done _ _ _ _ _ (Swap_run _ _ _)) in Hrun. cbn [snd] in Hrun.
      rewrite (Vector_destroy_valid v Hv) in Hrun.
      apply of_outcome_inv in Hrun as [-> ->]. by split_and!.
    + apply in_world_inv in Hcopy as (w1 & Hcopy & ->). simpl in Hcopy.
      by destruct (Vector_copy_elements other w w1 _ Hother Hcopy ltac:(done))
        as (c' & ? & _).
  - (* the elements are assigned in place *)
    set (m := size_ other `min` size_ v) in *.
    apply bind_inv in Hrun as [(s1 & [] & Hassign & Hrun) | [[Hassign ->] | [Hassign ->]]];
      [|done|].
    2:{ apply on_data_inv in Hassign as (w1 & b1 & Hassign & ->). simpl in Hassign.
        replace m with (length (take m (elements other))) in Hassign
          by (rewrite length_take; lia).
        apply (copy_n_assigns _ _ _ _ _ _ (take m (elements v))) in Hassign as [Hf _];
          [done | by apply holds_take, valid_holds.. | rewrite !length_take; lia]. }
    apply on_data_inv in Hassign as (w1 & b1 & Hassign & ->). simpl in Hassign.
    replace m with (length (take m (elements other))) in Hassign
      by (rewrite length_take; lia).
    apply (copy_n_assigns _ _ _ _ _ _ (take m (elements v))) in Hassign as [_ Hb1];
      [| by apply holds_take, valid_holds.. | rewrite !length_take; lia].
    specialize (Hb1 eq_refl).
    assert (length (take m (elements other)) = m) as Hlm by (rewrite length_take; lia).
    assert (length b1 = length (buffer_ (data_ v))) as Hl1.
    { rewrite Hb1. apply length_write_at. simpl. lia. }
    assert (holds b1 0 (take m (elements other))) as Hfront.
    { rewrite Hb1. apply holds_write_at. simpl. lia. }
    simpl in Hrun. case_bool_decide as Hless.
    + (* the tail is destroyed *)
      assert (m = size_ other) as Hm by lia.
      rewrite bind_assoc in Hrun.
      erewrite bind_Done in Hrun by (apply data_plus_run; unfold Capacity in *; simpl; lia).
      assert (holds b1 (size_ other) (drop (size_ other) (elements v))) as Htail.
      { rewrite Hb1. apply holds_write_at_frame; [lia | right; simpl; lia |].
        apply holds_drop_all. by apply valid_holds. }
      destruct (destroy_n_holds _ _ _ Htail) as [b2 Hd].
      rewrite length_drop, Hxs in Hd.
      erewrite bind_Done in Hrun.
      2:{ unfold destroy_data. rewrite bind_this. simpl. rewrite Hd. reflexivity. }
      rewrite bind_this in Hrun. apply set_this_inv in Hrun as [-> ->]. simpl.
      apply destroy_n_below in Hd.
      rewrite take_ge in Hfront by lia.
      assert (holds b2 0 (elements other)) as Hh2.
      { intros i x Hi. pose proof (lookup_lt_Some _ _ _ Hi). simpl.
        destruct Hd as [_ Hsame]. rewrite Hsame by lia. by apply Hfront. }
      split_and!; [done | | done | by apply elements_of | done].
      apply (valid_intro _ _ _ (elements other)); [|simpl; lia|done..].
      simpl. destruct Hd as [-> _]. congruence.
    + (* the tail is copy-constructed *)
      assert (m = size_ v) as Hm by lia.
      rewrite bind_assoc in Hrun.
      erewrite bind_Done in Hrun.
      2:{ unfold of_outcome, RawMemory_plus.
          rewrite bool_decide_eq_true_2 by lia. reflexivity. }
      rewrite bind_assoc in Hrun.
      erewrite bind_Done in Hrun by (apply data_plus_run; unfold Capacity in *; simpl; lia).
      pose proof (holds_drop_all _ _ (size_ v) (valid_holds other Hother)) as Hsrc.
      destruct (uninitialized_copy_n_each (drop (size_ v) (elements other)) w1
                  (buffer_ (data_ other)) (size_ v) b1 (size_ v) Hsrc)
        as (b2 & Hcopy & Hl2 & Hdone).
      { rewrite length_drop. unfold Capacity in *. lia. }
      rewrite length_drop, Hys in Hcopy.
      apply bind_inv in Hrun as [(s2 & [] & Hfill & Hrun) | [[Hfill ->] | [Hfill ->]]];
        [|done|].
      2:{ apply on_data_inv in Hfill as (w2 & b3 & Hfill & ->). simpl in Hfill.
          rewrite Hcopy in Hfill. by destruct (snd (copy_each _ _)). }
      apply on_data_inv in Hfill as (w2 & b3 & Hfill & ->). simpl in Hfill.
      rewrite Hcopy in Hfill.
      destruct (snd (copy_each (drop (size_ v) (elements other)) w1)) as [ys|] eqn:Hsome;
        [|done].
      injection Hfill as <- <-.
      destruct (Hdone ys eq_refl) as [-> Hlys].
      apply copy_each_value in Hsome as ->.
      rewrite bind_this in Hrun. apply set_this_inv in Hrun as [-> ->]. simpl.
      assert (holds (write_at b1 (size_ v) (drop (size_ v) (elements other))) 0
                (elements other)) as Hh2.
      { rewrite <- (take_drop (size_ v) (elements other)) at 2.
        apply holds_app. rewrite <- Hm. split.
        - apply holds_write_at_frame; [lia | left; lia | done].
        - rewrite Hlm. simpl. apply holds_write_at. rewrite Hm, length_drop.
          unfold Capacity in *. lia. }
      split_and!; [done | | done | by apply elements_of | done].
      apply (valid_intro _ _ _ (elements other)); [|unfold Capacity in *; simpl; lia|done..].
      simpl. rewrite length_write_at; [congruence|]. rewrite length_drop. unfold Capacity in *. lia.
Qed.

End Operations.

(** ** The capacity over all operations *)

Section CapacityFacts.

Context {T W A : Type} `{E : ElementType T W A}.

Local Abbreviation block := (list (option T)).
Implicit Types (b src dst : block) (x y : T) (w : W).
Implicit Types (v : Vector T) (s : (W * Vector T)%type).

Lemma Erase_capacity v w pos s' o :
  valid v -> Erase pos (w, v) = (s', o) -> o ≠ Fault -> Capacity (snd s') = Capacity v.
Proof.
  intros Hv Hrun Ho. unfold Erase in Hrun.
  pose proof (extends_refl v) as Hext.
  assert (forall v', extends v v' -> Capacity v' = Capacity v) as Hfail.
  { by intros v' (? & _). }
  kstep Hrun Hext; [|by eapply Hfail]. clear Hstep.
  kstep Hrun Hext; [|by eapply Hfail]. clear Hstep.
  kstep Hrun Hext; [|by eapply Hfail]. clear Hstep.
  kstep Hrun Hext; [|by eapply Hfail]. clear Hstep.
  kstep Hrun Hext; [|by eapply Hfail]. clear Hstep.
  pose proof (valid_extends _ _ Hv Hext) as Hv1. destruct s3 as [w3 v3].
  rewrite <- (Hfail _ Hext).
  minv Hrun.
  - apply ret_inv in Hrun as [-> _].
    by eapply PopBack_shape in Hstep as (_ & ? & _).
  - by eapply PopBack_shape in Hrun as (_ & ? & _).
  - done.
Qed.

Lemma Reserve_capacity v w n s' o :
  valid v -> Reserve n (w, v) = (s', o) ->
  Capacity (snd s') = Capacity v \/ (Capacity v < n /\ Capacity (snd s') = n).
Proof.
  intros Hv Hrun. apply Reserve_numbers in Hrun as (_ & Hd & Hn).
  destruct o as [[]| |]; [|left; by apply Hn..].
  destruct (decide (n <= Capacity v)) as [Hle|Hgt].
  - left. rewrite Hd by done. lia.
  - right. rewrite Hd by done. lia.
Qed.

Lemma Resize_capacity v w n s' o :
  valid v -> Resize n (w, v) = (s', o) -> o ≠ Fault ->
  Capacity (snd s') = Capacity v \/ (Capacity v < n /\ Capacity (snd s') = n).
Proof.
  intros Hv Hrun Ho. unfold Resize in Hrun.
  rewrite bind_this in Hrun. simpl in Hrun.
  case_bool_decide as Hn.
  - left. rewrite bind_assoc in Hrun.
    minv Hrun; [|by apply data_plus_inv in Hrun as [_ ?]|done].
    apply data_plus_inv in Hstep as [-> [-> _]].
    minv Hrun; [|by apply destroy_data_inv in Hrun|done].
    apply destroy_data_inv in Hstep as (b1 & Hd & ->).
    rewrite bind_this in Hrun.
    by apply set_this_inv in Hrun as [-> _].
  - rewrite bind_assoc in Hrun.
    minv Hrun; [| by eapply Reserve_capacity | done].
    pose proof (Reserve_capacity v w n _ _ Hv Hstep) as Hcap.
    destruct s as [w1 v1]. simpl in *.
    rewrite bind_assoc, bind_this in Hrun. simpl in Hrun.
    rewrite bind_assoc in Hrun.
    minv Hrun; [|by apply data_plus_inv in Hrun as [_ ?]|done].
    apply data_plus_inv in Hstep0 as [-> [-> _]].
    minv Hrun.
    + apply on_data_inv in Hstep0 as (w2 & b2 & Hfill & ->).
      rewrite bind_this in Hrun.
      by apply set_this_inv in Hrun as [-> _].
    + by apply on_data_inv in Hrun as (w2 & b2 & Hfill & ->).
    + done.
Qed.

Lemma Vector_copy_capacity (other : Vector T) w w1 (v : Vector T) :
  Vector_copy other w = (w1, Done v) -> Capacity v = size_ other.
Proof.
  unfold Vector_copy.
  destruct (RawMemory_sized (size_ other) w) as [w2 [m| |]] eqn:Hm; [|done..].
  apply RawMemory_sized_inv in Hm as (Hcap & _).
  destruct (uninitialized_copy_n _ _ _ _ _ _) as [[w3 b] [[]| |]]; [|done..].
  by intros [= <- <-].
Qed.

Lemma assign_from_capacity v (other : Vector T) w s' o :
  valid v -> assign_from other (w, v) = (s', o) -> o ≠ Fault ->
  Capacity (snd s') = Capacity v \/
  (Capacity v < size_ other /\ Capacity (snd s') = size_ other).
Proof.
  intros Hv Hrun Ho. unfold assign_from in Hrun.
  rewrite bind_this in Hrun. simpl in Hrun.
  case_bool_decide as Hbig.
  - minv Hrun.
    + apply in_world_inv in Hstep as (w1 & Hcopy & ->).
      apply Vector_copy_capacity in Hcopy.
      rewrite (bind_Done _ _ _ _ _ (Swap_run _ _ _)) in Hrun.
      apply of_outcome_inv in Hrun as [-> _]. by right.
    + apply in_world_inv in Hrun as (w1 & _ & ->). by left.
    + done.
  - left. pose proof (extends_refl v) as Hext.
    assert (keeps (on_data (fun w blk =>
      copy_n w (buffer_ (data_ other)) 0 (size_ other `min` size_ v) blk 0))
      : Prop) as Hcopy.
    { apply keeps_on_data. intros. by eapply copy_n_extends. }
    pose proof (keeps_step _ _ _ _ _ _ Hrun Hcopy Hext)
      as [(s1 & [] & _ & Hext1 & Hrun1) | [Hext1 _]];
      [|by destruct Hext1].
    clear Hrun Hcopy Hext. rename Hrun1 into Hrun.
    destruct Hext1 as (Hc1 & Hs1 & _). destruct s1 as [w1 v1]. simpl in *.
    unfold Capacity. rewrite <- Hc1.
    case_bool_decide as Hless.
    + rewrite bind_assoc in Hrun.
      minv Hrun; [|by apply data_plus_inv in Hrun as [_ ?]|done].
      apply data_plus_inv in Hstep as [-> [-> _]].
      minv Hrun; [|by apply destroy_data_inv in Hrun|done].
      apply destroy_data_inv in Hstep as (b1 & Hd & ->).
      rewrite bind_this in Hrun.
      by apply set_this_inv in Hrun as [-> _].
    + rewrite bind_assoc in Hrun.
      minv Hrun; [|by apply of_outcome_inv in Hrun as [-> _]|done].
      apply of_outcome_inv in Hstep as [-> _].
      rewrite bind_assoc in Hrun.
      minv Hrun; [|by apply data_plus_inv in Hrun as [_ ?]|done].
      apply data_plus_inv in Hstep as [-> [-> _]].
      minv Hrun.
      * apply on_data_inv in Hstep as (w2 & b2 & Hfill & ->).
        rewrite bind_this in Hrun.
        by apply set_this_inv in Hrun as [-> _].
      * by apply on_data_inv in Hrun as (w2 & b2 & Hfill & ->).
      * done.
Qed.

(** X16.  No operation on one vector gives capacity back: after
    [Emplace], [PushBack], [Reserve], [Resize] and copy assignment the
    capacity is at least what it was, and after [PopBack] and [Erase] it
    is what it was, whether the call returned or threw. *)
Theorem capacity_never_shrinks v w s' :
  valid v -> (N.of_nat (size_ v) * 2 < 2 ^ 64)%N ->
  (forall pos a o, Emplace pos a (w, v) = (s', o) -> o ≠ Fault ->
     Capacity v <= Capacity (snd s')) /\
  (forall a o, PushBack a (w, v) = (s', o) -> o ≠ Fault ->
     Capacity v <= Capacity (snd s')) /\
  (forall o, PopBack (w, v) = (s', o) -> o ≠ Fault -> Capacity (snd s') = Capacity v) /\
  (forall pos o, Erase pos (w, v) = (s', o) -> o ≠ Fault ->
     Capacity (snd s') = Capacity v) /\
  (forall n o, Reserve n (w, v) = (s', o) -> Capacity v <= Capacity (snd s')) /\
  (forall n o, Resize n (w, v) = (s', o) -> o ≠ Fault ->
     Capacity v <= Capacity (snd s')) /\
  (forall other o, assign_from other (w, v) = (s', o) -> o ≠ Fault ->
     Capacity v <= Capacity (snd s')).
Proof.
  intros Hv Hsmall.
  assert (Capacity v <= capacity_after (size_ v) (Capacity v)) as Hafter.
  { unfold capacity_after. case_bool_decide as Hspare; [done|].
    pose proof (valid_size_le v Hv) as Hle.
    destruct (grown_room (size_ v) Hsmall) as [-> Hroom]. lia. }
  split_and!.
  - intros pos a o Hrun Ho.
    destruct (Emplace_shape v w pos a s' o Hv Hrun Ho) as (_ & Hsh).
    destruct o as [it| |]; [destruct Hsh as (_ & _ & ->); done | |];
      destruct Hsh as [_ ->]; done.
  - intros a o Hrun Ho.
    destruct (PushBack_capacity v w a s' o Hv Hrun Ho) as (_ & Hsh).
    destruct o as [[]| |]; destruct Hsh as [_ ->]; done.
  - intros o Hrun Ho. by destruct (PopBack_shape v w s' o Hv Hrun Ho) as (_ & ? & _).
  - intros pos o Hrun Ho. by eapply Erase_capacity.
  - intros n o Hrun. destruct (Reserve_capacity v w n s' o Hv Hrun) as [->|[? ->]]; lia.
  - intros n o Hrun Ho.
    destruct (Resize_capacity v w n s' o Hv Hrun Ho) as [->|[? ->]]; lia.
  - intros other o Hrun Ho.
    destruct (assign_from_capacity v other w s' o Hv Hrun Ho) as [->|[? ->]]; lia.
Qed.

End CapacityFacts.

(** ** Assignments, moves and swaps between objects *)

Section Objects.

Context {T W A : Type} `{E : ElementType T W A}.

Implicit Types (v : Vector T) (w : W) (st : gmap nat (Vector T)).

Lemma swap_objects_run st a b va vb w :
  st !! a = Some va -> st !! b = Some vb ->
  swap_objects a b (w, st) = ((w, <[b := va]> (<[a := vb]> st)), Done tt).
Proof.
  intros Ha Hb. unfold swap_objects.
  erewrite bind_Done by (unfold load; simpl; by rewrite Hb).
  erewrite bind_Done.
  2:{ unfold at_. cbn [fst snd]. rewrite Ha, Swap_run. reflexivity. }
  done.
Qed.

(** X17.  Copy assignment from another valid vector, unless it throws,
    leaves the target holding the sequence of the source and the source
    as it was; the capacity of the target stays when the source fits and
    becomes the size of the source otherwise. *)
Theorem copy_assignment `{!Lawful} st a b va vb w t' o :
  a ≠ b -> st !! a = Some va -> st !! b = Some vb -> valid va -> valid vb ->
  exec (AssignCopy a b) (w, st) = (t', o) -> o ≠ Thrown ->
  o = Done Self /\ snd t' !! b = Some vb /\
  exists va', snd t' = <[a := va']> st /\
    size_ va' = size_ vb /\ elements va' = elements vb /\
    Capacity va' = if bool_decide (Capacity va < size_ vb) then size_ vb else Capacity va.
Proof.
  intros Hne Ha Hb Hva Hvb Hrun Ho. simpl in Hrun.
  unfold assign_copy in Hrun. rewrite bool_decide_eq_true_2 in Hrun by done.
  rewrite bind_assoc in Hrun.
  erewrite bind_Done in Hrun by (unfold load; simpl; by rewrite Hb).
  unfold bind, at_ in Hrun. simpl in Hrun. rewrite Ha in Hrun.
  destruct (assign_from vb (w, va)) as [[w1 v1] o1] eqn:Hassign.
  assert (o1 ≠ Thrown) as Ho1.
  { intros ->. by injection Hrun as <- <-. }
  destruct (assign_from_elements va vb w _ _ Hva Hvb Hassign Ho1)
    as (-> & _ & Hs & He & Hc).
  injection Hrun as <- <-. simpl in *.
  split_and!; [done | by rewrite lookup_insert_ne |].
  by exists v1.
Qed.

(** X18.  Move assignment from another vector exchanges the two: the
    source is left with what the target held.  It is what [Swap] does,
    and no element is constructed or assigned and nothing allocated. *)
Theorem move_assignment_swaps st a b va vb w :
  a ≠ b -> st !! a = Some va -> st !! b = Some vb ->
  exec (AssignMove a b) (w, st) = ((w, <[b := va]> (<[a := vb]> st)), Done Self) /\
  exec (CallSwap a b) (w, st) = ((w, <[b := va]> (<[a := vb]> st)), Done Void).
Proof.
  intros Hne Ha Hb. split; simpl.
  - unfold assign_move. rewrite bool_decide_eq_true_2 by done.
    by erewrite bind_Done by (by apply swap_objects_run).
  - by erewrite bind_Done by (by apply swap_objects_run).
Qed.

(** X19.  Move construction gives the new vector the block and size of
    the source and leaves the source empty, without a block. *)
Theorem move_construction st a b vb w :
  st !! a = None -> st !! b = Some vb ->
  exec (NewMove a b) (w, st) =
    ((w, <[b := Vector_default]> (<[a := vb]> st)), Done Void).
Proof.
  intros Ha Hb. simpl.
  assert (a ≠ b) as Hne by (intros ->; congruence).
  unfold define_move. rewrite bind_assoc.
  erewrite bind_Done by (unfold define; simpl; by rewrite Ha).
  erewrite bind_Done.
  2:{ apply (swap_objects_run _ a b Vector_default vb).
      - apply lookup_insert_eq.
      - by rewrite lookup_insert_ne. }
  by rewrite insert_insert_eq.
Qed.

(** X20.  [Swap] with the same vector twice restores both. *)
Theorem Swap_twice st a b va vb w :
  st !! a = Some va -> st !! b = Some vb ->
  (exec (CallSwap a b);;; exec (CallSwap a b)) (w, st) = ((w, st), Done Void).
Proof.
  intros Ha Hb.
  assert (forall t t1, swap_objects a b t = (t1, Done tt) ->
            exec (CallSwap a b) t = (t1, Done Void)) as Hcall.
  { intros t t1 Hrun. simpl. by erewrite bind_Done by done. }
  erewrite bind_Done by (by apply Hcall, swap_objects_run).
  destruct (decide (a = b)) as [->|Hne].
  - assert (va = vb) as -> by congruence.
    erewrite Hcall.
    2:{ apply (swap_objects_run _ b b vb vb); apply lookup_insert_eq. }
    do 2 f_equal. rewrite !insert_insert_eq. by apply insert_id.
  - erewrite Hcall.
    2:{ apply (swap_objects_run _ a b vb va).
        - rewrite lookup_insert_ne by done. apply lookup_insert_eq.
        - apply lookup_insert_eq. }
    do 2 f_equal. apply map_eq. intros k.
    destruct (decide (k = b)) as [->|Hkb]; [by rewrite lookup_insert_eq|].
    rewrite lookup_insert_ne by done.
    destruct (decide (k = a)) as [->|Hka]; [by rewrite lookup_insert_eq|].
    by rewrite !lookup_insert_ne by done.
Qed.

End Objects.

(** ** What throws and what an exception leaves behind *)

Section Noexcept.

Context {T W A : Type} `{E : ElementType T W A}.

Local Abbreviation block := (list (option T)).
Implicit Types (b : block) (x y : T) (w : W) (v : Vector T) (s : (W * Vector T)%type).

Lemma move_forward_n_no_throw n :
  (forall y x w, snd (snd (move_assign y x w)) = true) ->
  forall w b (first d_first : nat) w' b',
    move_forward_n w b first n d_first ≠ (w', b', Thrown).
Proof.
  intros Hassign. induction n as [|n IH]; intros w b first d_first w' b'; simpl; [done|].
  unfold move_assign_at.
  destruct (live b first) as [x|]; [|done]. destruct (live b d_first) as [y|]; [|done].
  pose proof (Hassign y x w) as Hok.
  destruct (move_assign y x w) as [w1 [[y' x'] ok]]. simpl in Hok. subst ok.
  apply IH.
Qed.

(** X21.  [PopBack], [Swap] and [operator[]] never throw; [Erase] does
    not throw when the move assignment of [T] does not. *)
Theorem noexcept_operations v w s' :
  PopBack (w, v) ≠ (s', Thrown) /\
  (forall other, Swap other (w, v) ≠ (s', Thrown)) /\
  (forall i, Vector_index i (w, v) ≠ (s', Thrown)) /\
  ((forall y x w0, snd (snd (move_assign y x w0)) = true) ->
   forall pos, Erase pos (w, v) ≠ (s', Thrown)).
Proof.
  assert (nothrow (PopBack : @Mv T W unit)) as Hpop.
  { unfold PopBack. guarantee. }
  split_and!.
  - apply Hpop.
  - intros other. by rewrite Swap_run.
  - intros i. assert (nothrow (Vector_index i : @Mv T W nat)) as Hidx.
    { unfold Vector_index. guarantee. }
    apply Hidx.
  - intros Hassign pos.
    assert (nothrow (Erase pos : @Mv T W nat)) as Herase; [|by apply Herase].
    unfold Erase.
    apply nothrow_bind; [unfold begin_; guarantee | intros b0].
    apply nothrow_bind; [guarantee | intros e].
    apply nothrow_bind; [guarantee | intros _].
    apply nothrow_bind; [guarantee | intros e'].
    apply nothrow_bind; [|intros _; apply nothrow_bind; [done | intros _; guarantee]].
    intros s0 s1 Hrun. apply on_data_inv in Hrun as (w1 & b1 & Hmove & _).
    unfold std_move in Hmove. case_bool_decide; [|done].
    by apply move_forward_n_no_throw in Hmove.
Qed.

End Noexcept.

Section Basic.

Context {T W A : Type} `{E : ElementType T W A} `{!NothrowMove}.

Local Abbreviation block := (list (option T)).
Implicit Types (b : block) (x y : T) (w : W) (v : Vector T) (s : (W * Vector T)%type).

Lemma strong_EmplaceBack a :
  (forall j, a ≠ Rvalue (Element j)) -> strong (EmplaceBack a).
Proof.
  intros Ha. unfold EmplaceBack.
  apply strong_bind; [guarantee | intros v].
  apply strong_bind; [guarantee | intros pos].
  by apply strong_Emplace.
Qed.

(** X22.  For an element type whose moves do not throw, an exception
    out of [PushBack] or [EmplaceBack] (whose argument is not an rvalue
    of an element of the vector) leaves the vector as it was. *)
Theorem PushBack_strong v w a s' :
  (forall j, a ≠ Rvalue (Element j)) ->
  (PushBack a (w, v) = (s', Thrown) -> snd s' = v) /\
  (EmplaceBack a (w, v) = (s', Thrown) -> snd s' = v).
Proof.
  intros Ha. split.
  - intros Hrun.
    assert (strong (PushBack a)) as Hstrong.
    { unfold PushBack. apply strong_then; [by apply strong_EmplaceBack | intros _; guarantee]. }
    apply (Hstrong _ _ Hrun).
  - intros Hrun. apply (strong_EmplaceBack a Ha _ _ Hrun).
Qed.

(** X23.  For an element type whose moves do not throw, an exception
    out of [Resize] leaves the size and the elements as they were; the
    capacity is the old one, or [n] when the block had been replaced
    before a value construction threw. *)
Theorem Resize_basic_guarantee `{!Lawful} v w n s' :
  valid v -> Resize n (w, v) = (s', Thrown) ->
  size_ v < n /\ size_ (snd s') = size_ v /\ elements (snd s') = elements v /\
  (Capacity (snd s') = Capacity v \/ Capacity (snd s') = n).
Proof.
  intros Hv Hrun. pose proof Hv as (Hl & Hc & _).
  assert (size_ v < n) as Hn.
  { destruct (decide (n <= size_ v)) as [Hle|]; [|lia].
    unfold Resize in Hrun. rewrite bind_this in Hrun. simpl in Hrun.
    rewrite bool_decide_eq_true_2 in Hrun by done.
    rewrite bind_assoc in Hrun.
    minv Hrun; [|by apply data_plus_inv in Hrun as [_ ?]].
    apply data_plus_inv in Hstep as [-> [-> _]].
    minv Hrun; [|by apply destroy_data_inv in Hrun].
    rewrite bind_this in Hrun. by apply set_this_inv in Hrun as [_ ?]. }
  split; [done|].
  unfold Resize in Hrun. rewrite bind_this in Hrun. simpl in Hrun.
  rewrite bool_decide_eq_false_2 in Hrun by lia.
  rewrite bind_assoc in Hrun.
  minv Hrun.
  - destruct a. destruct (Reserve_returned v w n s Hv Hstep) as (Hs1 & He1 & Hc1).
    destruct s as [w1 v1]. simpl in *.
    rewrite bind_assoc, bind_this in Hrun. simpl in Hrun.
    rewrite bind_assoc in Hrun.
    minv Hrun; [|by apply data_plus_inv in Hrun as [_ ?]].
    apply data_plus_inv in Hstep0 as [-> [-> _]].
    minv Hrun.
    + rewrite bind_this in Hrun. by apply set_this_inv in Hrun as [_ ?].
    + apply on_data_inv in Hrun as (w2 & b2 & Hfill & ->). simpl in *.
      apply uninitialized_value_construct_n_below in Hfill.
      split_and!; [done | | unfold Capacity in *; simpl; lia].
      rewrite <- He1. unfold elements. simpl.
      by rewrite (take_agree_below _ _ _ Hfill).
  - pose proof (strong_Reserve n _ _ Hrun) as Hsame. simpl in Hsame.
    rewrite Hsame. by split_and!; [..|left].
Qed.

End Basic.

(** ** Construction in place *)

Section InPlace.
Context {T W A : Type} `{E : ElementType T W A}.
Local Abbreviation block := (list (option T)).
Implicit Types (b src dst : block) (x y : T) (xs ys : list T).
Implicit Types (v : Vector T) (w : W).

Lemma elements_snoc v y :
  valid v -> size_ v < Capacity v ->
  elements (with_size (with_buffer v (<[size_ v := Some y]> (buffer_ (data_ v))))
              (size_ v + 1)) = elements v ++ [y].
Proof.
  intros Hv Hc. pose proof Hv as (Hlen & _ & _).
  replace (size_ v + 1) with (length (elements v ++ [y]))
    by (rewrite length_app, length_elements by done; simpl; lia).
  apply holds_elements; [|done]. simpl.
  rewrite (valid_buffer v Hv).
  destruct (drop (size_ v) (buffer_ (data_ v))) as [|r0 rest] eqn:Hd.
  { apply (f_equal length) in Hd. rewrite length_drop in Hd. simpl in Hd.
    unfold Capacity in Hc. lia. }
  rewrite <- (length_elements v Hv).
  replace (length (elements v)) with (length (Some <$> elements v))
    by apply length_fmap.
  rewrite insert_middle.
  replace ((Some <$> elements v) ++ Some y :: rest)
    with ((Some <$> (elements v ++ [y])) ++ rest)
    by (by rewrite fmap_app, <- app_assoc).
  apply holds_fmap_0.
Qed.

(** X24.  [EmplaceBack(args...)] on a valid vector with spare capacity
    runs the constructor [T(args...)] once, in the world as the call
    found it, and nothing else of [T] or the allocator: when it returns,
    the new object is the last element, in the slot the reference names;
    when it throws, the vector is as it was. *)
Theorem EmplaceBack_in_place v w a :
  valid v -> size_ v < Capacity v ->
  (forall w1 y, args_construct a w = (w1, Some y) ->
     exists v', EmplaceBack (Args a) (w, v) = ((w1, v'), Done (size_ v)) /\
       size_ v' = S (size_ v) /\ Capacity v' = Capacity v /\
       elements v' = elements v ++ [y] /\
       live (buffer_ (data_ v')) (size_ v) = Some y) /\
  (forall w1, args_construct a w = (w1, None) ->
     EmplaceBack (Args a) (w, v) = ((w1, v), Thrown)).
Proof.
  intros Hv Hc. pose proof Hv as (Hlen & _ & _).
  rewrite EmplaceBack_Emplace by lia. rewrite Emplace_at_end by done.
  split.
  - intros w1 y Hargs.
    exists (with_size (with_buffer v (<[size_ v := Some y]> (buffer_ (data_ v))))
              (size_ v + 1)).
    split.
    { erewrite bind_Done.
      2:{ unfold construct, in_world, or_throw. simpl. rewrite Hargs. reflexivity. }
      cbn [fst snd].
      erewrite bind_Done by (apply store_at_run; unfold Capacity in Hc; lia).
      erewrite bind_Done by reflexivity. cbn [fst snd].
      by rewrite data_plus_run by (unfold Capacity in *; simpl; lia). }
    split_and!.
    + simpl. lia.
    + done.
    + by apply elements_snoc.
    + simpl. apply live_insert_eq. unfold Capacity in Hc. lia.
  - intros w1 Hargs. unfold bind at 1.
    unfold construct, in_world, or_throw. simpl. by rewrite Hargs.
Qed.

End InPlace.

(** * The test element type at work *)

Section CountingFacts.

Import Counting.

#[global] Instance counting_lawful nothrow_move copyable :
  Lawful (E := element nothrow_move copyable).
Proof.
  split; simpl.
  - intros x [|[|w]] w1 y; simpl; by intros [= _ <-].
  - by intros x w w1 x' y [= _ _ <-].
  - by intros y x w w1 y' [= _ <-].
  - by intros y x w w1 y' x' [= _ <- _].
Qed.

#[global] Instance counting_nothrow nothrow_move copyable :
  NothrowMove (E := element nothrow_move copyable).
Proof. split; simpl; [by eexists | done]. Qed.

Lemma valid_vec {W A} `{E : ElementType nat W A} cap xs :
  length xs <= cap -> (N.of_nat cap * sizeof_T < 2 ^ 63)%N -> valid (vec cap xs).
Proof.
  intros Hcap Hfit. apply (valid_intro _ _ _ xs); simpl.
  - rewrite length_app, length_fmap, length_replicate. lia.
  - done.
  - apply holds_fmap_0.
  - done.
  - done.
Qed.

Lemma counting_moves nothrow_move copyable :
  nothrow_move_construct (E := element nothrow_move copyable) /\
  nothrow_move_assign (E := element nothrow_move copyable).
Proof. split; [intros x w; simpl; by eexists | by intros y x w]. Qed.

Lemma copying_safe : safe_transfer (E := copying).
Proof. by intros H. Qed.

(** [Reserve(h)] above the capacity, with a byte count that has wrapped
    to [0], transfers to a block without slots. *)
Lemma wrapped_Reserve_run (h : nat) (v : Vector nat) :
  alloc_bytes (E := copying) h = 0%N -> Capacity v < h ->
  Reserve (E := copying) h (0, v) =
    ReinicializationDataIn (E := copying) {| buffer_ := []; capacity_ := h |} (0, v).
Proof.
  intros Hb Hc. unfold Reserve, bind, this. simpl.
  rewrite bool_decide_eq_false_2 by lia.
  unfold in_world, RawMemory_sized, Allocate. simpl.
  rewrite bool_decide_eq_true_2 by lia.
  unfold alloc_slots. rewrite Hb. reflexivity.
Qed.

(** [PushBack] on the empty vector whose [capacity_] is [h] over a block
    without slots constructs past the block. *)
Lemma PushBack_past_block (h : nat) :
  0 < h ->
  snd (PushBack (E := copying) (value 1)
         (0, {| data_ := {| buffer_ := []; capacity_ := h |}; size_ := 0 |})) = Fault.
Proof.
  intros Hh. rewrite PushBack_EmplaceBack.
  rewrite EmplaceBack_Emplace by (unfold Capacity; simpl; lia).
  rewrite Emplace_at_end by (unfold Capacity; simpl; lia).
  vm_compute. reflexivity.
Qed.

Lemma below_pow n : n < 8 -> n < 2 ^ 62.
Proof.
  intros Hn. apply (Nat.lt_le_trans _ (2 ^ 3)); [exact Hn|].
  apply Nat.pow_le_mono_r; lia.
Qed.

(** For elements of four bytes the byte count of [2^62] elements is
    [2^64]: it wraps to [0]. *)
Lemma wrapped_request nothrow_move copyable :
  ~ representable (E := element nothrow_move copyable) (2 ^ 62) /\
  alloc_bytes (E := element nothrow_move copyable) (2 ^ 62) = 0%N /\
  alloc_slots (E := element nothrow_move copyable) (2 ^ 62) = 0.
Proof.
  assert (N.of_nat (2 ^ 62) = 2 ^ 62)%N as Hn by (by rewrite Nat2N.inj_pow).
  assert (alloc_bytes (E := element nothrow_move copyable) (2 ^ 62) = 0%N) as Hb.
  { unfold alloc_bytes. rewrite Hn. reflexivity. }
  split_and!; [|done|].
  - unfold representable. rewrite Hn. by intros H.
  - unfold alloc_slots. rewrite Hb. reflexivity.
Qed.

End CountingFacts.

(** ** The theorems on concrete vectors *)

Section Checks.

Import Counting.



(** [Insert(begin() + 1, 99)] into [1, 2, 3] with a free slot, by copy
    and by move; into the full [1, 2, 3], by move at the end and by copy
    at the front. *)
Lemma Insert_correct_witness :
  valid (E := copying) (vec 4 [1; 2; 3]) /\
  (snd (Insert_copy (E := copying) 1 (External 99) (0, vec 4 [1; 2; 3])) = Done 1 /\
   size_ (snd (fst (Insert_copy (E := copying) 1 (External 99) (0, vec 4 [1; 2; 3])))) = 4 /\
   elements (snd (fst (Insert_copy (E := copying) 1 (External 99) (0, vec 4 [1; 2; 3]))))
     = [1; 99; 2; 3]) /\
  (snd (Insert_move (E := copying) 1 (External 99) (0, vec 4 [1; 2; 3])) = Done 1 /\
   size_ (snd (fst (Insert_move (E := copying) 1 (External 99) (0, vec 4 [1; 2; 3])))) = 4 /\
   elements (snd (fst (Insert_move (E := copying) 1 (External 99) (0, vec 4 [1; 2; 3]))))
     = [1; 99; 2; 3]) /\
  (snd (Insert_move (E := copying) 3 (External 99) (0, vec 3 [1; 2; 3])) = Done 3 /\
   size_ (snd (fst (Insert_move (E := copying) 3 (External 99) (0, vec 3 [1; 2; 3])))) = 4 /\
   elements (snd (fst (Insert_move (E := copying) 3 (External 99) (0, vec 3 [1; 2; 3]))))
     = [1; 2; 3; 99]) /\
  (snd (Insert_copy (E := copying) 0 (External 99) (0, vec 3 [1; 2; 3])) = Done 0 /\
   size_ (snd (fst (Insert_copy (E := copying) 0 (External 99) (0, vec 3 [1; 2; 3])))) = 4 /\
   elements (snd (fst (Insert_copy (E := copying) 0 (External 99) (0, vec 3 [1; 2; 3]))))
     = [99; 1; 2; 3]).
Proof.
  assert (valid (E := copying) (vec 4 [1; 2; 3])) as Hv4 by (apply valid_vec; simpl; lia).
  assert (valid (E := copying) (vec 3 [1; 2; 3])) as Hv3 by (apply valid_vec; simpl; lia).
  split; [done|]. split; [|split; [|split]].
  - apply (Insert_correct (E := copying) (vec 4 [1; 2; 3]) 0 1 99).
    + done.
    + simpl. lia.
    + reflexivity.
    + left. apply surjective_pairing.
    + vm_compute. discriminate.
  - apply (Insert_correct (E := copying) (vec 4 [1; 2; 3]) 0 1 99).
    + done.
    + simpl. lia.
    + reflexivity.
    + right. apply surjective_pairing.
    + vm_compute. discriminate.
  - apply (Insert_correct (E := copying) (vec 3 [1; 2; 3]) 0 3 99).
    + done.
    + simpl. lia.
    + reflexivity.
    + right. apply surjective_pairing.
    + vm_compute. discriminate.
  - apply (Insert_correct (E := copying) (vec 3 [1; 2; 3]) 0 0 99).
    + done.
    + simpl. lia.
    + reflexivity.
    + left. apply surjective_pairing.
    + vm_compute. discriminate.
Defined.

(** An append to the full [1, 2], and five appends to the empty vector. *)
Lemma growth_policy_witness :
  Capacity (snd (fst (PushBack (E := copying) (value 3) (0, vec 2 [1; 2])))) = grown 2 /\
  Capacity (snd (fst (push_all (E := copying) (value <$> [1; 2; 3; 4; 5])
                        (0, Vector_default)))) =
    (if bool_decide (5 = 0) then 0 else 2 ^ Nat.log2_up 5).
Proof.
  destruct (growth_policy (E := copying) 0) as [Hone Hall]. split.
  - apply (Hone (vec 2 [1; 2]) 0 (value 3) (External 0)).
    + apply valid_vec; simpl; lia.
    + reflexivity.
    + reflexivity.
    + right. right. left. reflexivity.
  - pose (values := value <$> [1; 2; 3; 4; 5]).
    assert (N.of_nat (length values) <= 2 ^ 63)%N as Hn by (vm_compute; discriminate).
    assert (push_all (E := copying) values (0, Vector_default) =
            (fst (push_all (E := copying) values (0, Vector_default)), Done tt)) as Hrun
      by (vm_compute; reflexivity).
    exact (proj2 (Hall values _ Hn Hrun)).
Defined.

(** The transfer of [1, 2, 3] to a block of four slots, copying, when
    the second copy throws: the vector is as it was. *)
Lemma transfer_policy_witness :
  valid (E := copying) (vec 3 [1; 2; 3]) /\
  ReinicializationDataIn_range (E := copying) 0 3 (replicate 4 None) 0 (2, vec 3 [1; 2; 3])
    = ((0, vec 3 [1; 2; 3]), Thrown).
Proof.
  split; [apply valid_vec; simpl; lia|].
  apply (proj1 (transfer_policy (E := copying) (vec 3 [1; 2; 3]) 2
                  ltac:(apply valid_vec; simpl; lia)) 0 3 (replicate 4 None) 0).
  - simpl. lia.
  - simpl. lia.
Defined.

(** [Erase(begin())] on [1, 2, 3]. *)
Lemma Erase_correct_witness :
  valid (E := copying) (vec 4 [1; 2; 3]) /\
  snd (Erase (E := copying) 0 (0, vec 4 [1; 2; 3])) = Done 0 /\
  elements (snd (fst (Erase (E := copying) 0 (0, vec 4 [1; 2; 3])))) = [2; 3].
Proof.
  split; [apply valid_vec; simpl; lia|].
  destruct (Erase_correct (E := copying) (vec 4 [1; 2; 3]) 0 0
              (fst (Erase (E := copying) 0 (0, vec 4 [1; 2; 3])))
              (snd (Erase (E := copying) 0 (0, vec 4 [1; 2; 3]))))
    as (Hret & _ & _ & Helems & _).
  - apply valid_vec; simpl; lia.
  - simpl. lia.
  - reflexivity.
  - discriminate.
  - split; [exact Hret | exact Helems].
Defined.

(** [EmplaceBack] and [PushBack] of 4 on [1, 2, 3]. *)
Lemma back_insertion_witness :
  valid (E := copying) (vec 4 [1; 2; 3]) /\
  EmplaceBack (E := copying) (value 4) (0, vec 4 [1; 2; 3]) =
    Emplace (E := copying) 3 (value 4) (0, vec 4 [1; 2; 3]).
Proof.
  split; [apply valid_vec; simpl; lia|].
  apply (back_insertion (E := copying) (vec 4 [1; 2; 3]) 0 (value 4)).
  apply valid_vec; simpl; lia.
Defined.

(** [PushBack] as a call evaluates to nothing, not to a reference. *)
Lemma PushBack_returns_no_reference :
  snd (exec (E := copying) (CallPushBack 0 (value 7)) (0, <[0 := Vector_default]> ∅))
    = Done Void /\
  ~ exists i,
      snd (exec (E := copying) (CallPushBack 0 (value 7)) (0, <[0 := Vector_default]> ∅))
        = Done (Reference i).
Proof.
  split; [reflexivity|]. intros [i Hi]. vm_compute in Hi. discriminate Hi.
Qed.

(** [Reserve(2^62)] on vectors of four-byte elements, whose byte count
    [2^64] wraps to [0]: on [1, 2, 3] the transfer writes past the
    block of no bytes; on the empty vector the call returns, with
    [capacity_ = 2^62] over that block, and the next [PushBack]
    constructs past it. *)
Lemma Reserve_wraps_witness :
  valid (E := copying) (vec 4 [1; 2; 3]) /\
  ~ representable (E := copying) (2 ^ 62) /\
  alloc_slots (E := copying) (2 ^ 62) < 2 ^ 62 /\
  Reserve (E := copying) (2 ^ 62) (0, vec 4 [1; 2; 3]) = ((0, vec 4 [1; 2; 3]), Fault) /\
  snd (Reserve (E := copying) (2 ^ 62) (0, Vector_default)) = Done tt /\
  Capacity (snd (fst (Reserve (E := copying) (2 ^ 62) (0, Vector_default)))) = 2 ^ 62 /\
  length (buffer_ (data_ (snd (fst (Reserve (E := copying) (2 ^ 62) (0, Vector_default))))))
    = 0 /\
  ~ valid (E := copying) (snd (fst (Reserve (E := copying) (2 ^ 62) (0, Vector_default)))) /\
  snd (PushBack (E := copying) (value 1)
         (fst (Reserve (E := copying) (2 ^ 62) (0, Vector_default)))) = Fault.
Proof.
  destruct (wrapped_request false true) as (Hwrap & Hbytes & Hslots).
  assert (valid (E := copying) (vec 4 [1; 2; 3])) as Hv by (apply valid_vec; simpl; lia).
  assert (Capacity (vec 4 [1; 2; 3]) < 2 ^ 62) as Hlt by (apply below_pow; unfold Capacity; simpl; lia).
  assert (Capacity (Vector_default : Vector nat) < 2 ^ 62) as Hlt0
    by (apply below_pow; unfold Capacity; simpl; lia).
  assert (Reserve (E := copying) (2 ^ 62) (0, Vector_default) =
          ((0, {| data_ := {| buffer_ := []; capacity_ := 2 ^ 62 |}; size_ := 0 |}), Done tt))
    as Hrun0.
  { rewrite (wrapped_Reserve_run _ _ Hbytes Hlt0). generalize (2 ^ 62). intros h.
    vm_compute. reflexivity. }
  assert (snd (Reserve (E := copying) (2 ^ 62) (0, Vector_default)) = Done tt) as Hdone
    by (by rewrite Hrun0).
  destruct (Reserve_wraps (E := copying) Vector_default 0 (2 ^ 62) _ _
              valid_default Hlt0 Hwrap (surjective_pairing _))
    as (Hfewer & _ & Hreturned).
  destruct (Hreturned Hdone) as (_ & _ & Hcap & Hlen & Hinvalid).
  split; [exact Hv|]. split; [exact Hwrap|]. split; [exact Hfewer|].
  split; [|split; [exact Hdone|]; split; [exact Hcap|]; split; [|split; [exact Hinvalid|]]].
  - rewrite (wrapped_Reserve_run _ _ Hbytes Hlt). generalize (2 ^ 62). intros h.
    vm_compute. reflexivity.
  - rewrite Hlen. exact Hslots.
  - rewrite Hrun0. apply PushBack_past_block, below_pow. lia.
Defined.

(** A program that fills, changes, copies and assigns vectors, from a
    state that holds [1, 2, 3]: each of its calls returns, and leaves
    every vector with its size within its capacity. *)
Lemma invariant_kept_witness :
  length (trace (E := copying)
       [CallPushBack 0 (value 1); CallPushBack 0 (value 2);
        CallPushBack 0 (value 3); CallInsertCopy 0 1 (External 99); CallErase 0 0;
        CallPopBack 0; CallResize 0 9; CallResize 0 1; NewCopy 1 0; CallReserve 1 10;
        CallSwap 0 1; AssignCopy 0 1; AssignMove 1 0; NewSized 2 3; NewMove 3 2;
        CallEmplaceBack 3 (Args 5); CallEmplace 3 0 (Args 6); NewDefault 4]
       (0, <[0 := vec 4 [1; 2; 3]]> ∅)) = 18 /\
  Forall (fun t' : nat * gmap nat (Vector nat) =>
            forall a v, snd t' !! a = Some v -> 0 <= size_ v <= Capacity v)
    (trace (E := copying)
       [CallPushBack 0 (value 1); CallPushBack 0 (value 2);
        CallPushBack 0 (value 3); CallInsertCopy 0 1 (External 99); CallErase 0 0;
        CallPopBack 0; CallResize 0 9; CallResize 0 1; NewCopy 1 0; CallReserve 1 10;
        CallSwap 0 1; AssignCopy 0 1; AssignMove 1 0; NewSized 2 3; NewMove 3 2;
        CallEmplaceBack 3 (Args 5); CallEmplace 3 0 (Args 6); NewDefault 4]
       (0, <[0 := vec 4 [1; 2; 3]]> ∅)).
Proof.
  split; [vm_compute; reflexivity|].
  apply (invariant_kept (E := copying)). intros a v Ha. simpl in Ha.
  apply lookup_insert_Some in Ha as [[_ <-]|[_ Ha]].
  - apply valid_vec; simpl; lia.
  - by rewrite lookup_empty in Ha.
Defined.

(** [Insert(begin() + 1, v[2])] and [Emplace(begin() + 1, v[2])] into
    [1, 2, 3] with a free slot, and the same [Insert] when the copy of
    [v[2]] throws. *)
Lemma Insert_own_element_witness :
  valid (E := copying) (vec 4 [1; 2; 3]) /\
  (snd (Insert_copy (E := copying) 1 (Element 2) (0, vec 4 [1; 2; 3])) = Done 1 /\
   size_ (snd (fst (Insert_copy (E := copying) 1 (Element 2) (0, vec 4 [1; 2; 3])))) = 4 /\
   elements (snd (fst (Insert_copy (E := copying) 1 (Element 2) (0, vec 4 [1; 2; 3]))))
     = [1; 3; 2; 3]) /\
  (snd (Emplace (E := copying) 1 (Lvalue (Element 2)) (0, vec 4 [1; 2; 3])) = Done 1 /\
   size_ (snd (fst (Emplace (E := copying) 1 (Lvalue (Element 2)) (0, vec 4 [1; 2; 3]))))
     = 4 /\
   elements (snd (fst (Emplace (E := copying) 1 (Lvalue (Element 2)) (0, vec 4 [1; 2; 3]))))
     = [1; 3; 2; 3]) /\
  (fst (Insert_copy (E := copying) 1 (Element 2) (1, vec 4 [1; 2; 3]))
     = (0, vec 4 [1; 2; 3]) /\
   snd (Insert_copy (E := copying) 1 (Element 2) (1, vec 4 [1; 2; 3])) = Thrown).
Proof.
  assert (valid (E := copying) (vec 4 [1; 2; 3])) as Hv by (apply valid_vec; simpl; lia).
  assert (size_ (vec 4 [1; 2; 3]) < Capacity (vec 4 [1; 2; 3])) as Hc
    by (unfold Capacity; simpl; lia).
  assert (1 < size_ (vec 4 [1; 2; 3])) as Hpos by (simpl; lia).
  assert (elements (vec 4 [1; 2; 3]) !! 2 = Some 3) as Hj by reflexivity.
  split; [done|]. split; [|split].
  - apply (proj2 (Insert_own_element (E := copying) (vec 4 [1; 2; 3]) 0 1 2 3 _ _
                    Hv Hc Hpos Hj (or_introl (surjective_pairing _)))).
    vm_compute. discriminate.
  - apply (proj2 (Insert_own_element (E := copying) (vec 4 [1; 2; 3]) 0 1 2 3 _ _
                    Hv Hc Hpos Hj (or_intror (surjective_pairing _)))).
    vm_compute. discriminate.
  - apply (proj1 (Insert_own_element (E := copying) (vec 4 [1; 2; 3]) 1 1 2 3 _ _
                    Hv Hc Hpos Hj (or_introl (surjective_pairing _))) 0).
    reflexivity.
Defined.

End Checks.

(** ** The further operations on concrete vectors *)

Section MoreChecks.

Import Counting.

(** [PopBack] on the empty vector and on [1, 2, 3]. *)
Lemma PopBack_correct_witness :
  PopBack (T := nat) (0, Vector_default) = ((0, Vector_default), Fault) /\
  exists v', PopBack (0, vec 4 [1; 2; 3]) = ((0, v'), Done tt) /\
    size_ v' = 2 /\ Capacity v' = 4 /\ elements v' = [1; 2] /\
    live (buffer_ (data_ v')) 2 = None.
Proof.
  destruct (PopBack_correct (E := copying) Vector_default 0) as [Hempty _].
  destruct (PopBack_correct (E := copying) (vec 4 [1; 2; 3]) 0) as [_ Hpop].
  split; [by apply Hempty|].
  apply Hpop; [apply valid_vec; simpl; lia | simpl; lia].
Defined.

(** [Erase(begin() + 2)] on [1, 2, 3]. *)
Lemma Erase_last_is_PopBack_witness :
  Erase (E := copying) 2 (0, vec 4 [1; 2; 3]) =
    (fst (PopBack (0, vec 4 [1; 2; 3])), Done 2).
Proof.
  apply (Erase_last_is_PopBack (E := copying) (vec 4 [1; 2; 3]) 0).
  unfold Capacity. simpl. lia.
Defined.

(** [Insert(begin() + 1, 99)] into [1, 2, 3], then [Erase] there. *)
Lemma Insert_then_Erase_witness :
  let r := (it <- Insert_copy (E := copying) 1 (External 99);; Erase (E := copying) it)
             (0, vec 4 [1; 2; 3]) in
  snd r = Done 1 /\ size_ (snd (fst r)) = 3 /\ elements (snd (fst r)) = [1; 2; 3].
Proof.
  apply (Insert_then_Erase (E := copying) (vec 4 [1; 2; 3]) 0 1 99).
  - apply valid_vec; simpl; lia.
  - simpl. lia.
  - reflexivity.
  - vm_compute. reflexivity.
  - vm_compute. discriminate.
Defined.

(** [PushBack(3)] on the full [1, 2], then [PopBack]. *)
Lemma PushBack_then_PopBack_witness :
  let r := (PushBack (E := copying) (value 3);;; PopBack) (0, vec 2 [1; 2]) in
  snd r = Done tt /\ size_ (snd (fst r)) = 2 /\ elements (snd (fst r)) = [1; 2] /\
  Capacity (snd (fst r)) = 4.
Proof.
  apply (PushBack_then_PopBack (E := copying) (vec 2 [1; 2]) 0 (value 3) 3).
  - apply valid_vec; simpl; lia.
  - reflexivity.
  - apply passes_lvalue.
  - vm_compute. reflexivity.
  - vm_compute. discriminate.
Defined.

(** Three appends to the empty vector. *)
Lemma push_all_appends_witness :
  let r := push_all (E := copying) ((fun x => Lvalue (External x)) <$> [1; 2; 3])
             (0, Vector_default) in
  snd r = Done tt /\ size_ (snd (fst r)) = 3 /\ elements (snd (fst r)) = [1; 2; 3].
Proof.
  apply (push_all_appends (E := copying) [1; 2; 3] Vector_default 0).
  - apply valid_default.
  - vm_compute. discriminate.
  - vm_compute. reflexivity.
  - vm_compute. discriminate.
Defined.

(** [PushBack(v[0])] on the full [1, 2]. *)
Lemma own_element_at_any_capacity_witness :
  let r := PushBack (E := copying) (Lvalue (Element 0)) (0, vec 2 [1; 2]) in
  snd r = Done tt /\ elements (snd (fst r)) = [1; 2; 1].
Proof.
  apply (proj2 (own_element_at_any_capacity (E := copying) (vec 2 [1; 2]) 0 0 0 1 _
                  (valid_vec (E := copying) 2 [1; 2] (Nat.le_refl _) eq_refl) (Nat.le_0_l _) eq_refl eq_refl)).
  - vm_compute. reflexivity.
  - vm_compute. discriminate.
Defined.

(** [v[1]] and [v[3]] on [1, 2, 3]. *)
Lemma Vector_index_correct_witness :
  (j <- Vector_index 1;; object_at j) (0, vec 4 [1; 2; 3]) =
    ((0, vec 4 [1; 2; 3]), Done 2) /\
  (j <- Vector_index 3;; object_at j) (0, vec 4 [1; 2; 3]) =
    ((0, vec 4 [1; 2; 3]), Fault).
Proof.
  split.
  - apply (Vector_index_correct (E := copying) (vec 4 [1; 2; 3]) 0 1).
    apply valid_vec; simpl; lia.
  - apply (Vector_index_correct (E := copying) (vec 4 [1; 2; 3]) 0 3).
    apply valid_vec; simpl; lia.
Defined.

(** [Insert(begin() + 1, 99)] into [1, 2, 3], then [v[1]]. *)
Lemma Insert_then_index_witness :
  let s' := fst (Insert_copy (E := copying) 1 (External 99) (0, vec 4 [1; 2; 3])) in
  (j <- Vector_index 1;; object_at j) s' = (s', Done 99).
Proof.
  apply (Insert_then_index (E := copying) (vec 4 [1; 2; 3]) 0 1 99).
  - apply valid_vec; simpl; lia.
  - simpl. lia.
  - reflexivity.
  - left. vm_compute. reflexivity.
Defined.


(** Positions out of range on [1, 2, 3]. *)
Lemma out_of_range_faults_witness :
  Insert_copy (E := copying) 4 (External 9) (0, vec 4 [1; 2; 3]) =
    ((0, vec 4 [1; 2; 3]), Fault) /\
  Erase (E := copying) 3 (0, vec 4 [1; 2; 3]) = ((0, vec 4 [1; 2; 3]), Fault).
Proof.
  destruct (out_of_range_faults (E := copying) (vec 4 [1; 2; 3]) 0 4) as [Hins _].
  destruct (out_of_range_faults (E := copying) (vec 4 [1; 2; 3]) 0 3) as [_ Hera].
  split.
  - apply (Hins ltac:(simpl; lia) (value 0) (External 9)).
  - apply (Hera ltac:(simpl; lia)).
Defined.

(** [Reserve(4)] on [1, 2] of capacity 2, then two appends. *)
Lemma spare_capacity_kept_witness :
  let r := (Reserve (E := copying) 4;;; push_all (E := copying) (value <$> [3; 4])) (0, vec 2 [1; 2]) in
  Capacity (snd (fst r)) = 4 /\ size_ (snd (fst r)) = 4.
Proof.
  pose (values := value <$> [3; 4]).
  assert ((Reserve (E := copying) 4;;; push_all (E := copying) values) (0, vec 2 [1; 2]) =
          (fst ((Reserve (E := copying) 4;;; push_all (E := copying) values) (0, vec 2 [1; 2])), Done tt))
    as Hrun by (vm_compute; reflexivity).
  destruct (spare_capacity_kept (E := copying) (vec 2 [1; 2]) 0
              (valid_vec (E := copying) 2 [1; 2] (Nat.le_refl _) eq_refl)) as (_ & _ & Hboth).
  apply (Hboth 4 values _ ltac:(unfold Capacity; simpl; lia) ltac:(simpl; lia) Hrun).
Defined.

(** [Reserve(8)] and then [Reserve(5)] on [1, 2, 3]. *)
Lemma Reserve_twice_witness :
  (Reserve (E := copying) 8;;; Reserve (E := copying) 5) (0, vec 3 [1; 2; 3]) =
    Reserve (E := copying) 8 (0, vec 3 [1; 2; 3]).
Proof.
  apply (Reserve_twice (E := copying) (vec 3 [1; 2; 3]) 0 8 5).
  - apply valid_vec; simpl; lia.
  - lia.
Defined.

(** [Resize(1)] and [Resize(6)] on [1, 2, 3]. *)
Lemma Resize_correct_witness :
  (exists v', Resize (E := copying) 1 (0, vec 4 [1; 2; 3]) = ((0, v'), Done tt) /\
     size_ v' = 1 /\ Capacity v' = 4 /\ elements v' = [1]) /\
  (let r := Resize (E := copying) 6 (0, vec 4 [1; 2; 3]) in
   snd r = Done tt /\ valid (E := copying) (snd (fst r)) /\
   size_ (snd (fst r)) = 6 /\ length (elements (snd (fst r))) = 6 /\
   Capacity (snd (fst r)) = 6 /\ take 3 (elements (snd (fst r))) = [1; 2; 3]).
Proof.
  destruct (Resize_correct (E := copying) (vec 4 [1; 2; 3]) 0 1
              (valid_vec (E := copying) 4 [1; 2; 3] ltac:(simpl; lia) eq_refl)) as [Hshrink _].
  destruct (Resize_correct (E := copying) (vec 4 [1; 2; 3]) 0 6
              (valid_vec (E := copying) 4 [1; 2; 3] ltac:(simpl; lia) eq_refl)) as [_ Hgrow].
  split.
  - apply Hshrink. simpl. lia.
  - apply Hgrow;
      [simpl; lia | unfold representable; simpl; lia | vm_compute; reflexivity
      | vm_compute; discriminate].
Defined.

(** [Reserve(2)] and [Reserve(8)] on [1, 2, 3] of capacity 3. *)
Lemma Reserve_correct_witness :
  valid (E := copying) (vec 3 [1; 2; 3]) /\
  representable (E := copying) 8 /\
  Reserve (E := copying) 2 (0, vec 3 [1; 2; 3]) = ((0, vec 3 [1; 2; 3]), Done tt) /\
  (snd (Reserve (E := copying) 8 (0, vec 3 [1; 2; 3])) = Done tt /\
   valid (E := copying) (snd (fst (Reserve (E := copying) 8 (0, vec 3 [1; 2; 3])))) /\
   Capacity (snd (fst (Reserve (E := copying) 8 (0, vec 3 [1; 2; 3])))) = 8 /\
   length (buffer_ (data_ (snd (fst (Reserve (E := copying) 8 (0, vec 3 [1; 2; 3])))))) = 8 /\
   size_ (snd (fst (Reserve (E := copying) 8 (0, vec 3 [1; 2; 3])))) = 3 /\
   elements (snd (fst (Reserve (E := copying) 8 (0, vec 3 [1; 2; 3])))) = [1; 2; 3]).
Proof.
  assert (valid (E := copying) (vec 3 [1; 2; 3])) as Hv by (apply valid_vec; simpl; lia).
  assert (representable (E := copying) 8) as H8 by (unfold representable; simpl; lia).
  assert (representable (E := copying) 2) as H2 by (unfold representable; simpl; lia).
  split; [exact Hv|]. split; [exact H8|]. split.
  - apply (proj1 (Reserve_correct (E := copying) (vec 3 [1; 2; 3]) 0 2 Hv H2)).
    unfold Capacity. simpl. lia.
  - apply (proj2 (Reserve_correct (E := copying) (vec 3 [1; 2; 3]) 0 8 Hv H8)).
    + unfold Capacity. simpl. lia.
    + apply surjective_pairing.
    + vm_compute. discriminate.
Defined.

(** [Vector(3)] and [Vector(0)]. *)
Lemma Vector_sized_correct_witness :
  Vector_sized (E := copying) 3 0 = (0, Done (vec 3 [0; 0; 0])) /\
  (representable (E := copying) 3 /\ valid (E := copying) (vec 3 [0; 0; 0]) /\
   size_ (vec 3 [0; 0; 0]) = 3 /\ Capacity (vec 3 [0; 0; 0]) = 3 /\
   length (elements (vec 3 [0; 0; 0])) = 3) /\
  Vector_sized (E := copying) 0 0 = (0, Done Vector_default).
Proof.
  assert (Vector_sized (E := copying) 3 0 = (0, Done (vec 3 [0; 0; 0]))) as Hrun
    by (vm_compute; reflexivity).
  destruct (Vector_sized_correct (E := copying) 3 0) as (_ & Hsized & _).
  destruct (Vector_sized_correct (E := copying) 0 0) as (_ & _ & Hzero).
  split; [exact Hrun|]. split; [exact (Hsized _ _ Hrun) | by apply Hzero].
Defined.

(** The copy of [1, 2, 3] of capacity 5. *)
Lemma copy_construction_witness :
  exists v, snd (Vector_copy (E := copying) (vec 5 [1; 2; 3]) 0) = Done v /\
    size_ v = 3 /\ Capacity v = 3 /\ elements v = [1; 2; 3].
Proof.
  apply (copy_construction (E := copying) (vec 5 [1; 2; 3]) 0
           (fst (Vector_copy (E := copying) (vec 5 [1; 2; 3]) 0))).
  - apply valid_vec; simpl; lia.
  - vm_compute. reflexivity.
  - vm_compute. discriminate.
Defined.

(** The destructor of [1, 2, 3], and of a vector whose second slot is
    raw. *)
Lemma Vector_destroy_defined_witness :
  Vector_destroy (vec 4 [1; 2; 3]) = Done tt /\
  Vector_destroy {| data_ := {| buffer_ := [Some 1; None]; capacity_ := 2 |};
                    size_ := 2 |} ≠ Done tt.
Proof.
  split.
  - apply (proj2 (Vector_destroy_defined (vec 4 [1; 2; 3]))).
    intros i Hi. simpl in Hi.
    destruct i as [|[|[|i]]]; [by eexists..|lia].
  - intros Hdone.
    destruct (proj1 (Vector_destroy_defined _) Hdone 1 ltac:(simpl; lia)) as [x Hx].
    discriminate Hx.
Defined.

(** The operations on [1, 2] of capacity 2. *)
Lemma capacity_never_shrinks_witness :
  2 <= Capacity (snd (fst (PushBack (E := copying) (value 3) (0, vec 2 [1; 2])))) /\
  Capacity (snd (fst (Erase (E := copying) 0 (0, vec 2 [1; 2])))) = 2 /\
  2 <= Capacity (snd (fst (Resize (E := copying) 0 (0, vec 2 [1; 2])))).
Proof.
  assert (valid (E := copying) (vec 2 [1; 2])) as Hv by (apply valid_vec; simpl; lia).
  split_and!.
  - destruct (capacity_never_shrinks (E := copying) (vec 2 [1; 2]) 0
                (fst (PushBack (E := copying) (value 3) (0, vec 2 [1; 2]))) Hv eq_refl)
      as (_ & Hpush & _).
    apply (Hpush (value 3) (snd (PushBack (E := copying) (value 3) (0, vec 2 [1; 2]))));
      [vm_compute; reflexivity | vm_compute; discriminate].
  - destruct (capacity_never_shrinks (E := copying) (vec 2 [1; 2]) 0
                (fst (Erase (E := copying) 0 (0, vec 2 [1; 2]))) Hv eq_refl)
      as (_ & _ & _ & Herase & _).
    apply (Herase 0 (snd (Erase (E := copying) 0 (0, vec 2 [1; 2]))));
      [vm_compute; reflexivity | vm_compute; discriminate].
  - destruct (capacity_never_shrinks (E := copying) (vec 2 [1; 2]) 0
                (fst (Resize (E := copying) 0 (0, vec 2 [1; 2]))) Hv eq_refl)
      as (_ & _ & _ & _ & _ & Hresize & _).
    apply (Hresize 0 (snd (Resize (E := copying) 0 (0, vec 2 [1; 2]))));
      [vm_compute; reflexivity | vm_compute; discriminate].
Defined.

(** Copy assignment of [7, 8, 9] to [1, 2] of capacity 3. *)
Lemma copy_assignment_witness :
  let st : gmap nat (Vector nat) := <[1 := vec 3 [7; 8; 9]]> (<[0 := vec 3 [1; 2]]> ∅) in
  let r := exec (E := copying) (AssignCopy 0 1) (0, st) in
  snd r = Done Self /\ snd (fst r) !! 1 = Some (vec 3 [7; 8; 9]) /\
  exists va', snd (fst r) = <[0 := va']> st /\
    size_ va' = 3 /\ elements va' = [7; 8; 9] /\ Capacity va' = 3.
Proof.
  apply (copy_assignment (E := copying)
           (<[1 := vec 3 [7; 8; 9]]> (<[0 := vec 3 [1; 2]]> ∅)) 0 1
           (vec 3 [1; 2]) (vec 3 [7; 8; 9]) 0).
  - done.
  - reflexivity.
  - reflexivity.
  - apply valid_vec; simpl; lia.
  - apply valid_vec; simpl; lia.
  - vm_compute. reflexivity.
  - vm_compute. discriminate.
Defined.

(** Move assignment of [7, 8, 9] to [1, 2]. *)
Lemma move_assignment_swaps_witness :
  let st : gmap nat (Vector nat) := <[1 := vec 3 [7; 8; 9]]> (<[0 := vec 3 [1; 2]]> ∅) in
  exec (E := copying) (AssignMove 0 1) (0, st) =
    ((0, <[1 := vec 3 [1; 2]]> (<[0 := vec 3 [7; 8; 9]]> st)), Done Self) /\
  exec (E := copying) (CallSwap 0 1) (0, st) =
    ((0, <[1 := vec 3 [1; 2]]> (<[0 := vec 3 [7; 8; 9]]> st)), Done Void).
Proof.
  apply (move_assignment_swaps (E := copying)
           (<[1 := vec 3 [7; 8; 9]]> (<[0 := vec 3 [1; 2]]> ∅)) 0 1
           (vec 3 [1; 2]) (vec 3 [7; 8; 9]) 0).
  - done.
  - reflexivity.
  - reflexivity.
Defined.

(** Move construction from [7, 8, 9]. *)
Lemma move_construction_witness :
  let st : gmap nat (Vector nat) := <[1 := vec 3 [7; 8; 9]]> ∅ in
  exec (E := copying) (NewMove 0 1) (0, st) =
    ((0, <[1 := Vector_default]> (<[0 := vec 3 [7; 8; 9]]> st)), Done Void).
Proof.
  apply (move_construction (E := copying) (<[1 := vec 3 [7; 8; 9]]> ∅) 0 1
           (vec 3 [7; 8; 9]) 0).
  - reflexivity.
  - reflexivity.
Defined.

(** Two swaps of [1, 2] and [7, 8, 9]. *)
Lemma Swap_twice_witness :
  let st : gmap nat (Vector nat) := <[1 := vec 3 [7; 8; 9]]> (<[0 := vec 3 [1; 2]]> ∅) in
  (exec (E := copying) (CallSwap 0 1);;; exec (E := copying) (CallSwap 0 1)) (0, st) =
    ((0, st), Done Void).
Proof.
  apply (Swap_twice (E := copying) (<[1 := vec 3 [7; 8; 9]]> (<[0 := vec 3 [1; 2]]> ∅)) 0 1
           (vec 3 [1; 2]) (vec 3 [7; 8; 9]) 0).
  - reflexivity.
  - reflexivity.
Defined.

(** [PushBack(3)] on the full [1, 2] when the copy of [3] throws. *)
Lemma PushBack_strong_witness :
  snd (PushBack (E := copying) (value 3) (1, vec 2 [1; 2])) = Thrown /\
  snd (fst (PushBack (E := copying) (value 3) (1, vec 2 [1; 2]))) = vec 2 [1; 2].
Proof.
  split; [vm_compute; reflexivity|].
  apply (proj1 (PushBack_strong (E := copying) (vec 2 [1; 2]) 1 (value 3) _
                  ltac:(discriminate))).
  vm_compute. reflexivity.
Defined.

(** [Resize(5)] on [1, 2, 3] when the first value construction throws,
    after the three copies to the new block. *)
Lemma Resize_basic_guarantee_witness :
  let r := Resize (E := copying) 5 (4, vec 3 [1; 2; 3]) in
  snd r = Thrown /\
  (3 < 5 /\ size_ (snd (fst r)) = 3 /\ elements (snd (fst r)) = [1; 2; 3] /\
   (Capacity (snd (fst r)) = 3 \/ Capacity (snd (fst r)) = 5)) /\
  Capacity (snd (fst r)) = 5.
Proof.
  split; [vm_compute; reflexivity|]. split; [|vm_compute; reflexivity].
  apply (Resize_basic_guarantee (E := copying) (vec 3 [1; 2; 3]) 4 5).
  - apply valid_vec; simpl; lia.
  - vm_compute. reflexivity.
Defined.

(** [EmplaceBack(7)] on [1, 2, 3] of capacity 4. *)
Lemma EmplaceBack_in_place_witness :
  exists v', EmplaceBack (E := copying) (Args 7) (0, vec 4 [1; 2; 3]) = ((0, v'), Done 3) /\
    size_ v' = 4 /\ Capacity v' = 4 /\ elements v' = [1; 2; 3; 7] /\
    live (buffer_ (data_ v')) 3 = Some 7.
Proof.
  destruct (EmplaceBack_in_place (E := copying) (vec 4 [1; 2; 3]) 0 7
              (valid_vec (E := copying) 4 [1; 2; 3] ltac:(simpl; lia) eq_refl) ltac:(unfold Capacity; simpl; lia))
    as [Hdone _].
  apply (Hdone 0 7). reflexivity.
Defined.

End MoreChecks.
